(** * ell-cpp: cutting-plane drivers, LDLT manager and profit oracle

    A shallow embedding of the C++ sources of the ellipsoid-method library

    - the configuration types [CutStatus], [Options] and [CInfo]
      ([ell_config.hpp]),
    - the drivers [cutting_plane_feas], [cutting_plane_optim],
      [cutting_plane_q], [bsearch] and the class [bsearch_adaptor]
      (the header that includes [ell_config.hpp] and
      [half_nonnegative.hpp]),
    - [LDLTMgr::factor], [LDLTMgr::factor_with_allow_semidefinte] and
      [LDLTMgr::witness] (the implementation file of [ldlt_mgr.hpp]),
    - [ProfitOracle::assess_optim] and [ProfitOracleQ::assess_optim_q]
      ([source/profit_oracle.cpp]),
    - [LmiOracle::assess_feas] ([oracles/lmi_oracle.hpp]),
    - [MyQuasicCvxOracle::assess_optim] ([test/source/test_quasicvx.cpp]),

    followed by the properties proved about them.

    Numbers.  The C++ type [double] is idealised as an exact field: the
    rationals in canonical form ([Qc]) for the LDLT manager and for the
    bisection driver, and the real numbers ([R]) for the profit oracle, which
    needs [exp] and [log]; the values of [std::log] off the positive numbers
    (minus infinity at [0], not a number below) are kept as they are.  The
    three cutting-plane drivers only ever compare
    [tsq()] with [options.tol]; they are kept generic in the scalar type.
    Loop counters ([unsigned], [size_t]) are natural numbers.

    Loops.  Every loop of the sources runs a number of times that is known
    when it starts; it is written as a structural recursion on the number of
    iterations left, with the running index beside it. *)

From Stdlib Require Import Arith ZArith Lia List Bool.
From Stdlib Require Import QArith Qcanon Lqa.
From Stdlib Require Import Reals Lra.

(* ================================================================== *)
(** * Part I: definitions                                              *)
(* ================================================================== *)

(** ** ell_config.hpp *)

Module Config.

(** [enum class CutStatus { Success, NoSoln, SmallEnough, NoEffect }] *)
Inductive CutStatus : Set :=
| Success
| NoSoln
| SmallEnough
| NoEffect.

Definition CutStatus_eqb (a b : CutStatus) : bool :=
  match a, b with
  | Success, Success => true
  | NoSoln, NoSoln => true
  | SmallEnough, SmallEnough => true
  | NoEffect, NoEffect => true
  | _, _ => false
  end.

(** [struct Options { unsigned int max_iter = 2000; double tol = 1e-8; }],
    over the scalar type [Num]. *)
Record Options (Num : Type) : Type := mkOptions
  { max_iter : nat;
    tol : Num }.
Arguments mkOptions {Num} _ _.
Arguments max_iter {Num} _.
Arguments tol {Num} _.

(** [struct CInfo { bool feasible; size_t num_iters; CutStatus status; }].
    The drivers build it as [{b, niter}], which value-initialises
    [status] to the first enumerator. *)
Record CInfo : Set := mkCInfo
  { feasible : bool;
    num_iters : nat;
    status : CutStatus }.

Definition cinfo (b : bool) (niter : nat) : CInfo := mkCInfo b niter Success.

End Config.

(** ** Exact scalars: comparisons on [Qc] *)

Module Scalar.
Local Open Scope Qc_scope.

(** [x < y], [x <= y] and [x == y] on doubles, as booleans. *)
Definition Qcltb (x y : Qc) : bool :=
  match x ?= y with Lt => true | _ => false end.
Definition Qcleb (x y : Qc) : bool :=
  match x ?= y with Gt => false | _ => true end.
Definition Qceqb (x y : Qc) : bool :=
  match x ?= y with Eq => true | _ => false end.

(** The rational [a/b] as a scalar. *)
Definition qc (a : Z) (b : positive) : Qc := Q2Qc (a # b).

(** Sum of [f k] for [k = lo, lo+1, ..., lo+cnt-1]. *)
Fixpoint sum_cnt (cnt lo : nat) (f : nat -> Qc) : Qc :=
  match cnt with
  | O => 0
  | S c => f lo + sum_cnt c (S lo) f
  end.

(** Sum of [f k] over the half-open range [lo <= k < hi]. *)
Definition sumr (lo hi : nat) (f : nat -> Qc) : Qc :=
  sum_cnt (hi - lo)%nat lo f.

End Scalar.

(** ** The implementation of ldlt_mgr.hpp *)

Module LDLT.
Import Scalar.
Local Open Scope Qc_scope.

(** The three methods use the members [_n], the range [p = (start, stop)],
    the workspace [T] and [witness_vec] of the class.  [T] and
    [witness_vec] are only ever read and written through [T(i, j)] and
    [witness_vec[i]], with [i, j < _n] in the factorisations and
    [i < stop] in [witness]; they are kept as total maps from indices to
    scalars. *)
Definition Mat : Type := nat -> nat -> Qc.
Definition Vec : Type := nat -> Qc.

(** [T(i, j) = x] *)
Definition mset (T : Mat) (i j : nat) (x : Qc) : Mat :=
  fun a b => if ((a =? i) && (b =? j))%nat then x else T a b.

(** [v[i] = x] *)
Definition vset (v : Vec) (i : nat) (x : Qc) : Vec :=
  fun a => if (a =? i)%nat then x else v a.

Record LDLTMgr : Type := mkLDLTMgr
  { n_ : nat;
    p : nat * nat;
    witness_vec : Vec;
    T : Mat }.

Definition set_p (m : LDLTMgr) (r : nat * nat) : LDLTMgr :=
  mkLDLTMgr (n_ m) r (witness_vec m) (T m).
Definition set_start (m : LDLTMgr) (s : nat) : LDLTMgr :=
  set_p m (s, snd (p m)).
Definition set_stop (m : LDLTMgr) (s : nat) : LDLTMgr :=
  set_p m (fst (p m), s).
Definition set_T (m : LDLTMgr) (T' : Mat) : LDLTMgr :=
  mkLDLTMgr (n_ m) (p m) (witness_vec m) T'.
Definition set_witness_vec (m : LDLTMgr) (v : Vec) : LDLTMgr :=
  mkLDLTMgr (n_ m) (p m) v (T m).

(** Modelled from the spec: [LDLTMgr::is_spd()], which lives in
    [ldlt_mgr.hpp] with the class declaration and is not part of the
    implementation file.  [factor] resets [p] to [(0, 0)], records
    [stop = i + 1] when it fails and is specified to return false exactly
    then; [witness] asserts [!is_spd()] and goes on to "assume stop > 0".
    So [is_spd()] holds exactly when no stop has been recorded. *)
Definition is_spd (m : LDLTMgr) : bool := (snd (p m) =? 0)%nat.

(** [for (auto k = start; k != s; ++k) { d -= T(i, k) * T(k, s); }]
    [cnt] is the number of iterations left, [k] the running index. *)
Fixpoint loop_k (T : Mat) (i s : nat) (cnt k : nat) (d : Qc) : Qc :=
  match cnt with
  | O => d
  | S cnt' => loop_k T i s cnt' (S k) (d - T i k * T k s)
  end.

(** [for (auto j = start; j != i; ++j) { ... }] of the factorisations.
    It runs [i - start] times: [start] never exceeds [i] (it is [0] in
    [factor], and see [sd_rows_start] for the other). *)
Fixpoint loop_j (get : nat -> nat -> Qc) (start i : nat) (cnt j : nat)
         (T : Mat) (d : Qc) : Mat * Qc :=
  match cnt with
  | O => (T, d)
  | S cnt' =>
      let T1 := mset T j i d in
      let T2 := mset T1 i j (d / T1 j j) in
      let s := S j in
      let d' := loop_k T2 i s (s - start)%nat start (get i s) in
      loop_j get start i cnt' s T2 d'
  end.

(** The body of the outer loop up to and including [T(i, i) = d]; the two
    factorisations share it verbatim.  Returns the workspace and [d]. *)
Definition factor_row (get : nat -> nat -> Qc) (start i : nat) (T : Mat)
  : Mat * Qc :=
  let '(T', d) := loop_j get start i (i - start)%nat start T (get i start) in
  (mset T' i i d, d).

(** [for (auto i = 0U; i != _n; ++i) { ...; if (d <= 0.0) { stop = i + 1;
    break; } }] of [factor]. *)
Fixpoint factor_loop (get : nat -> nat -> Qc) (cnt i : nat) (m : LDLTMgr)
  : LDLTMgr :=
  match cnt with
  | O => m
  | S cnt' =>
      let '(T', d) := factor_row get (fst (p m)) i (T m) in
      let m1 := set_T m T' in
      if Qcleb d 0 then set_stop m1 (i + 1)%nat
      else factor_loop get cnt' (S i) m1
  end.

(** [LDLTMgr::factor]: the manager after the call and the returned flag. *)
Definition factor (get : nat -> nat -> Qc) (m : LDLTMgr) : LDLTMgr * bool :=
  let m0 := set_p m (0, 0)%nat in
  let m1 := factor_loop get (n_ m0) 0 m0 in
  (m1, is_spd m1).

(** The outer loop of [factor_with_allow_semidefinte]. *)
Fixpoint factor_sd_loop (get : nat -> nat -> Qc) (cnt i : nat) (m : LDLTMgr)
  : LDLTMgr :=
  match cnt with
  | O => m
  | S cnt' =>
      let '(T', d) := factor_row get (fst (p m)) i (T m) in
      let m1 := set_T m T' in
      if Qcltb d 0 then set_stop m1 (i + 1)%nat
      else
        let m2 := if Qceqb d 0 then set_start m1 (i + 1)%nat else m1 in
        factor_sd_loop get cnt' (S i) m2
  end.

(** [LDLTMgr::factor_with_allow_semidefinte] *)
Definition factor_with_allow_semidefinte (get : nat -> nat -> Qc)
           (m : LDLTMgr) : LDLTMgr * bool :=
  let m0 := set_p m (0, 0)%nat in
  let m1 := factor_sd_loop get (n_ m0) 0 m0 in
  (m1, is_spd m1).

(** [for (auto k = i; k != n; ++k) { witness_vec[i - 1] -= T(k, i - 1) *
    witness_vec[k]; }] *)
Fixpoint wloop_k (T : Mat) (i : nat) (cnt k : nat) (v : Vec) : Vec :=
  match cnt with
  | O => v
  | S cnt' =>
      wloop_k T i cnt' (S k)
        (vset v (i - 1)%nat (v (i - 1)%nat - T k (i - 1)%nat * v k))
  end.

(** [for (auto i = m; i > start; --i) { witness_vec[i - 1] = 0.0; ... }] *)
Fixpoint wloop_i (T : Mat) (n : nat) (cnt i : nat) (v : Vec) : Vec :=
  match cnt with
  | O => v
  | S cnt' =>
      let v1 := vset v (i - 1)%nat 0 in
      let v2 := wloop_k T i (n - i)%nat i v1 in
      wloop_i T n cnt' (i - 1)%nat v2
  end.

(** [LDLTMgr::witness].  [None] stands for the failed
    [assert(!this->is_spd())]. *)
Definition witness (mgr : LDLTMgr) : option (LDLTMgr * Qc) :=
  if is_spd mgr then None
  else
    let start := fst (p mgr) in
    let n := snd (p mgr) in
    let m := (n - 1)%nat in
    let v := vset (witness_vec mgr) m 1 in
    let v' := wloop_i (T mgr) n (m - start)%nat m v in
    Some (set_witness_vec mgr v', - T mgr m m).

(** *** Vocabulary of the statements *)

(** The symmetric matrix an accessor defines: the factorisations read
    [get i j] for [j <= i] only. *)
Definition sym (get : nat -> nat -> Qc) : Mat :=
  fun i j => if (j <=? i)%nat then get i j else get j i.

(** [v' A v] over the index range [lo <= i, j < hi]. *)
Definition quad_form (A : Mat) (v : Vec) (lo hi : nat) : Qc :=
  sumr lo hi (fun i => sumr lo hi (fun j => v i * A i j * v j)).

(** The unit lower-triangular factor stored below the diagonal of [T]. *)
Definition Lfac (T : Mat) : Mat :=
  fun r k => if (k <? r)%nat then T r k else if (k =? r)%nat then 1 else 0.

(** Entry [(r, c)] of [L D L'] over the pivots [lo <= k < hi]. *)
Definition LDLt (T : Mat) (lo hi : nat) : Mat :=
  fun r c => sumr lo hi (fun k => Lfac T r k * T k k * Lfac T c k).

(** Component [k] of [L' v] over the rows [start <= r <= m]. *)
Definition Ltv (T : Mat) (v : Vec) (start m k : nat) : Qc :=
  sumr start (S m) (fun r => Lfac T r k * v r).

(** The workspace after the first [k] rows have been processed with
    [start = 0] and without any test on the pivots. *)
Fixpoint rows (get : nat -> nat -> Qc) (k : nat) (T : Mat) : Mat :=
  match k with
  | O => T
  | S k' => fst (factor_row get 0 k' (rows get k' T))
  end.

(** The value [d] that [factor] computes for row [k]. *)
Definition pivot (get : nat -> nat -> Qc) (T : Mat) (k : nat) : Qc :=
  snd (factor_row get 0 k (rows get k T)).

(** [start] and the workspace after the first [k] rows have been processed
    the semidefinite way: a zero pivot in row [k'] moves [start] to
    [k' + 1]; no test for a negative pivot. *)
Fixpoint sd_rows (get : nat -> nat -> Qc) (k : nat) (T : Mat) : nat * Mat :=
  match k with
  | O => (O, T)
  | S k' =>
      let '(start, T1) := sd_rows get k' T in
      let '(T2, d) := factor_row get start k' T1 in
      (if Qceqb d 0 then (k' + 1)%nat else start, T2)
  end.

(** The value [d] that [factor_with_allow_semidefinte] computes for row
    [k]. *)
Definition sd_pivot (get : nat -> nat -> Qc) (T : Mat) (k : nat) : Qc :=
  snd (factor_row get (fst (sd_rows get k T)) k (snd (sd_rows get k T))).

(** Columns [start <= c < j] of row [i] hold their factors: above the
    diagonal the entry minus the products already formed, below it the
    same divided by the pivot. *)
Definition row_ok (get : nat -> nat -> Qc) (start i j : nat) (T : Mat)
  : Prop :=
  forall c, (start <= c < j)%nat ->
    T c i = get i c - sumr start c (fun k => T i k * T k c)
    /\ T i c = T c i / T c c.

(** The same for all the rows [start <= r < i]. *)
Definition ldl_inv (get : nat -> nat -> Qc) (start i : nat) (T : Mat)
  : Prop :=
  forall r c, (start <= c)%nat -> (c <= r)%nat -> (r < i)%nat ->
    T c r = get r c - sumr start c (fun k => T r k * T k c)
    /\ ((c < r)%nat -> T r c = T c r / T c c).

(** Decide the index tests an updated workspace or vector is read with. *)
Ltac upd :=
  unfold mset, vset;
  repeat match goal with
    | |- context [Nat.eqb ?a ?b] => destruct (Nat.eqb_spec a b); try lia
    end;
  cbn [andb]; trivial.

(** The manager after a factorisation that failed in row [i]: the rows
    [start .. i] are factored, the pivots before [i] are positive and the
    pivot of row [i] is not. *)
Definition failed (get : nat -> nat -> Qc) (m : LDLTMgr) : Prop :=
  exists i,
    snd (p m) = S i /\ (fst (p m) <= i)%nat /\ (i < n_ m)%nat
    /\ ldl_inv get (fst (p m)) (S i) (T m)
    /\ (forall c, (fst (p m) <= c < i)%nat -> 0 < T m c c)
    /\ T m i i <= 0.

End LDLT.

(** ** The cutting-plane drivers *)

Module CuttingPlane.
Import Config.

(** *** The concepts the templates rely on

    The drivers are templates over [Oracle] and [Space]; the member
    functions they call are collected in one class per concept.  A member
    function that may change its object returns the object after the
    call. *)

(** [a < b] on the scalar type of [tsq()] and [options.tol]. *)
Class NumLt (Num : Type) : Type :=
  num_ltb : Num -> Num -> bool.

(** A default-constructed [ArrayType], as in [x_best{}]. *)
Class DefaultArr (Arr : Type) : Type :=
  arr_default : Arr.

(** The search space: [xc()], [set_xc(v)], [tsq()], [update(cut)] and
    [copy()]. *)
Class SearchSpace (Space Arr Cut Num : Type) : Type :=
  { xc : Space -> Arr;
    set_xc : Space -> Arr -> Space;
    tsq : Space -> Num;
    update : Space -> Cut -> Space * CutStatus;
    copy : Space -> Space }.

(** [omega.assess_feas(x)] returns a pointer to a cut, or null. *)
Class OracleFeas (Oracle Arr Cut : Type) : Type :=
  assess_feas : Oracle -> Arr -> Oracle * option Cut.

(** [omega.assess_optim(x, tea)] takes [tea] by reference and returns
    [(cut, shrunk)]. *)
Class OracleOptim (Oracle Arr Cut Tea : Type) : Type :=
  assess_optim : Oracle -> Arr -> Tea -> Oracle * Tea * (Cut * bool).

(** [omega.assess_q(x, tea, retry)] returns [(cut, shrunk, x0, more_alt)]. *)
Class OracleQ (Oracle Arr Cut Tea : Type) : Type :=
  assess_q : Oracle -> Arr -> Tea -> bool ->
             Oracle * Tea * (Cut * bool * Arr * bool).

(** [omega.update(tea)], used by [bsearch_adaptor]. *)
Class OracleUpdate (Oracle Tea : Type) : Type :=
  oracle_update : Oracle -> Tea -> Oracle.

(** [omega.assess_bs(tea)] *)
Class OracleBS (Oracle Tea : Type) : Type :=
  assess_bs : Oracle -> Tea -> Oracle * bool.

Section Drivers.
Context {Oracle Space Arr Cut Num Tea : Type}.
Context `{NumLt Num} `{DefaultArr Arr} `{SearchSpace Space Arr Cut Num}.

(** [cutstatus != CutStatus::Success || space.tsq() < options.tol] *)
Definition no_more (options : Options Num) (cutstatus : CutStatus)
           (space : Space) : bool :=
  negb (CutStatus_eqb cutstatus Success)
  || num_ltb (tsq space) (tol options).

(** **** cutting_plane_feas

    [fuel] counts the iterations left: the loop
    [for (niter = 0; niter != max_iter; ++niter)] starts with
    [fuel = max_iter].  The result is the oracle and the space after the
    call, and the returned [CInfo]. *)
Fixpoint feas_loop `{OracleFeas Oracle Arr Cut} (options : Options Num)
         (fuel niter : nat) (omega : Oracle) (space : Space)
  : Oracle * Space * CInfo :=
  match fuel with
  | O => (omega, space, cinfo false (max_iter options))
  | S fuel' =>
      let '(omega1, cut) := assess_feas omega (xc space) in
      match cut with
      | None => (omega1, space, cinfo true niter)
      | Some c =>
          let '(space1, cutstatus) := update space c in
          if no_more options cutstatus space1
          then (omega1, space1, cinfo false niter)
          else feas_loop options fuel' (S niter) omega1 space1
      end
  end.

Definition cutting_plane_feas `{OracleFeas Oracle Arr Cut}
           (omega : Oracle) (space : Space) (options : Options Num)
  : Oracle * Space * CInfo :=
  feas_loop options (max_iter options) 0 omega space.

(** **** cutting_plane_optim

    What the call leaves behind: the oracle, the space and [tea] (all
    three passed by reference), and the returned pair. *)
Record Outcome : Type := mkOutcome
  { out_omega : Oracle;
    out_space : Space;
    out_tea : Tea;
    out_x_best : Arr;
    out_niter : nat }.

Fixpoint optim_loop `{OracleOptim Oracle Arr Cut Tea}
         (options : Options Num) (fuel niter : nat)
         (omega : Oracle) (space : Space) (tea : Tea) (x_best : Arr)
  : Outcome :=
  match fuel with
  | O => mkOutcome omega space tea x_best (max_iter options)
  | S fuel' =>
      let '(omega1, tea1, (cut, shrunk)) :=
        assess_optim omega (xc space) tea in
      let '(x_best1, (space1, cutstatus)) :=
        if shrunk
        then (xc space, update space cut)
        else (x_best, update space cut) in
      if no_more options cutstatus space1
      then mkOutcome omega1 space1 tea1 x_best1 niter
      else optim_loop options fuel' (S niter) omega1 space1 tea1 x_best1
  end.

Definition cutting_plane_optim `{OracleOptim Oracle Arr Cut Tea}
           (omega : Oracle) (space : Space) (tea : Tea)
           (options : Options Num) : Outcome :=
  optim_loop options (max_iter options) 0 omega space tea arr_default.

(** **** cutting_plane_q

    The locals [status] and [retry] are carried through the loop.  The
    [break] leaves the loop for the final
    [return {x_best, options.max_iter}].  The test [tsq() < tol] that
    follows the [if ... else if ...] of the source is reached from the
    [NoEffect] branch (when there are more alternatives) and when the
    status is neither [NoEffect] nor [NoSoln]; it appears once in each of
    the two places. *)
Fixpoint q_loop `{OracleQ Oracle Arr Cut Tea}
         (options : Options Num) (fuel niter : nat)
         (omega : Oracle) (space : Space) (tea : Tea) (x_best : Arr)
         (status : CutStatus) (retry : bool) : Outcome :=
  match fuel with
  | O => mkOutcome omega space tea x_best (max_iter options)
  | S fuel' =>
      let '(omega1, tea1, (cut, shrunk, x0, more_alt)) :=
        assess_q omega (xc space) tea retry in
      let x_best1 := if shrunk then x0 else x_best in
      let '(space1, cutstatus) := update space cut in
      if CutStatus_eqb cutstatus NoEffect then
        if negb more_alt
        then mkOutcome omega1 space1 tea1 x_best1 (max_iter options)
        else
          if num_ltb (tsq space1) (tol options)
          then mkOutcome omega1 space1 tea1 x_best1 niter
          else q_loop options fuel' (S niter) omega1 space1 tea1 x_best1
                      cutstatus true
      else if CutStatus_eqb cutstatus NoSoln
      then mkOutcome omega1 space1 tea1 x_best1 niter
      else
        if num_ltb (tsq space1) (tol options)
        then mkOutcome omega1 space1 tea1 x_best1 niter
        else q_loop options fuel' (S niter) omega1 space1 tea1 x_best1
                    status retry
  end.

Definition cutting_plane_q `{OracleQ Oracle Arr Cut Tea}
           (omega : Oracle) (space : Space) (tea : Tea)
           (options : Options Num) : Outcome :=
  let status := NoSoln in
  let retry := CutStatus_eqb status NoEffect in
  q_loop options (max_iter options) 0 omega space tea arr_default
         status retry.

(** **** bsearch_adaptor

    The adaptor keeps references to the oracle and to the space, and its
    own copy of the options. *)
Record bsearch_adaptor : Type := mkAdaptor
  { _omega : Oracle;
    _space : Space;
    _options : Options Num }.

Definition x_best (a : bsearch_adaptor) : Arr := xc (_space a).

(** [bsearch_adaptor::assess_bs]: the adaptor after the call (that is,
    the oracle and the space it refers to) and the returned flag. *)
Definition adaptor_assess_bs `{OracleFeas Oracle Arr Cut}
           `{OracleUpdate Oracle Tea}
           (a : bsearch_adaptor) (tea : Tea) : bsearch_adaptor * bool :=
  let space := copy (_space a) in
  let omega1 := oracle_update (_omega a) tea in
  let '(omega2, space', ell_info) :=
    cutting_plane_feas omega1 space (_options a) in
  if feasible ell_info
  then (mkAdaptor omega2 (set_xc (_space a) (xc space')) (_options a),
        true)
  else (mkAdaptor omega2 (_space a) (_options a), false).

End Drivers.

Arguments Outcome : clear implicits.
Arguments bsearch_adaptor : clear implicits.

End CuttingPlane.

(** *** Vocabulary of the statements about the drivers

    The drivers leave their loops early.  The statements compare them with
    the plain iteration of one step: [*_run k] is the state after [k]
    iterations, whatever the tests say. *)

Module CuttingPlaneSpec.
Import Config CuttingPlane.

Section Traces.
Context {Oracle Space Arr Cut Num Tea : Type}.
Context {NL : NumLt Num} {DA : DefaultArr Arr}
        {SS : SearchSpace Space Arr Cut Num}.

(** **** Feasibility *)

Section Feas.
Context {OF : OracleFeas Oracle Arr Cut}.

(** One iteration: ask the oracle at the centre; a null answer leaves the
    space alone, a cut is handed to [update].  The third component is the
    status of the update, if there was one. *)
Definition feas_iter (st : Oracle * Space)
  : Oracle * Space * option CutStatus :=
  let '(omega1, cut) := assess_feas (fst st) (xc (snd st)) in
  match cut with
  | None => (omega1, snd st, None)
  | Some c =>
      let '(space1, cutstatus) := update (snd st) c in
      (omega1, space1, Some cutstatus)
  end.

Definition feas_next (st : Oracle * Space) : Oracle * Space :=
  fst (feas_iter st).

(** The oracle and the space after [k] iterations. *)
Fixpoint feas_run (k : nat) (st : Oracle * Space) : Oracle * Space :=
  match k with
  | O => st
  | S k' => feas_next (feas_run k' st)
  end.

(** The iteration that starts in [st] gets the null answer. *)
Definition feas_found (st : Oracle * Space) : bool :=
  match snd (feas_iter st) with
  | None => true
  | Some _ => false
  end.

(** The iteration that starts in [st] applies a cut, and the status is not
    [Success] or [tsq()] is below the tolerance. *)
Definition feas_gives_up (options : Options Num) (st : Oracle * Space)
  : bool :=
  match snd (feas_iter st) with
  | None => false
  | Some cutstatus => no_more options cutstatus (snd (feas_next st))
  end.

End Feas.

(** **** Optimisation *)

(** What the optimisation loops carry from one iteration to the next. *)
Record LoopState : Type := mkLoopState
  { ls_omega : Oracle;
    ls_space : Space;
    ls_tea : Tea;
    ls_x_best : Arr }.

(** Leaving the loop in state [st] with the count [niter]. *)
Definition finish (st : LoopState) (niter : nat)
  : Outcome Oracle Space Arr Tea :=
  mkOutcome (ls_omega st) (ls_space st) (ls_tea st) (ls_x_best st) niter.

Section Optim.
Context {OO : OracleOptim Oracle Arr Cut Tea}.

(** One iteration: ask the oracle at the centre, record the centre as the
    best point when [shrunk], apply the cut. *)
Definition optim_iter (st : LoopState) : LoopState * CutStatus :=
  let '(omega1, tea1, (cut, shrunk)) :=
    assess_optim (ls_omega st) (xc (ls_space st)) (ls_tea st) in
  let '(space1, cutstatus) := update (ls_space st) cut in
  (mkLoopState omega1 space1 tea1
     (if shrunk then xc (ls_space st) else ls_x_best st),
   cutstatus).

Definition optim_next (st : LoopState) : LoopState := fst (optim_iter st).

Fixpoint optim_run (k : nat) (st : LoopState) : LoopState :=
  match k with
  | O => st
  | S k' => optim_next (optim_run k' st)
  end.

(** The iteration that starts in [st] ends with a status other than
    [Success] or with [tsq()] below the tolerance. *)
Definition optim_stops (options : Options Num) (st : LoopState) : bool :=
  no_more options (snd (optim_iter st)) (ls_space (optim_next st)).

End Optim.

(** **** Discrete optimisation *)

Record QState : Type := mkQState
  { qs_loop : LoopState;
    qs_retry : bool }.

(** What one iteration saw: the oracle's [shrunk], [x0] and [more_alt], and
    the status of the update. *)
Record QSeen : Type := mkQSeen
  { seen_shrunk : bool;
    seen_x0 : Arr;
    seen_more_alt : bool;
    seen_status : CutStatus }.

(** How an iteration ends. *)
Inductive QExit : Set :=
| GoOn
| Break
| ReturnNoSoln
| ReturnTol.

Section Q.
Context {OQ : OracleQ Oracle Arr Cut Tea}.

Definition q_iter (st : QState) : QState * QSeen :=
  let ls := qs_loop st in
  let '(omega1, tea1, (cut, shrunk, x0, more_alt)) :=
    assess_q (ls_omega ls) (xc (ls_space ls)) (ls_tea ls) (qs_retry st) in
  let '(space1, cutstatus) := update (ls_space ls) cut in
  (mkQState
     (mkLoopState omega1 space1 tea1 (if shrunk then x0 else ls_x_best ls))
     (if CutStatus_eqb cutstatus NoEffect && more_alt then true
      else qs_retry st),
   mkQSeen shrunk x0 more_alt cutstatus).

Definition q_next (st : QState) : QState := fst (q_iter st).
Definition q_seen (st : QState) : QSeen := snd (q_iter st).

Fixpoint q_run (k : nat) (st : QState) : QState :=
  match k with
  | O => st
  | S k' => q_next (q_run k' st)
  end.

Definition q_exit (options : Options Num) (st : QState) : QExit :=
  let small := num_ltb (tsq (ls_space (qs_loop (q_next st)))) (tol options) in
  match seen_status (q_seen st) with
  | NoEffect =>
      if negb (seen_more_alt (q_seen st)) then Break
      else if small then ReturnTol else GoOn
  | NoSoln => ReturnNoSoln
  | _ => if small then ReturnTol else GoOn
  end.

(** The state [cutting_plane_q] enters its loop with. *)
Definition q_start (omega : Oracle) (space : Space) (tea : Tea) : QState :=
  mkQState (mkLoopState omega space tea arr_default) false.

(** The count an exit is reported with at iteration [k]. *)
Definition q_count (options : Options Num) (e : QExit) (k : nat) : nat :=
  match e with
  | Break => max_iter options
  | _ => k
  end.

End Q.

End Traces.

Arguments LoopState : clear implicits.
Arguments QState : clear implicits.
Arguments QSeen : clear implicits.

End CuttingPlaneSpec.

(** **** bsearch *)

Module Bsearch.
Import Config Scalar CuttingPlane.
Local Open Scope Qc_scope.

(** Modelled from the spec: [algo::half_nonnegative], which lives in
    [half_nonnegative.hpp] and not in the drivers' header.  The bisection
    stops "when [(hi - lo)/2 < tol]": the helper halves its argument. *)
Definition half_nonnegative (a : Qc) : Qc := a / qc 2 1.

(** Order facts on [Qc], by way of [Q]. *)
Ltac qc_order :=
  unfold Qcle, Qclt, half_nonnegative, qc, Qcdiv, Qcminus, Qcplus, Qcmult,
    Qcopp, Qcinv, Q2Qc in *;
  cbn [this] in *;
  repeat (rewrite ?Qred_correct in *);
  change (/ (2 # 1))%Q with (1 # 2)%Q in *;
  Lqa.lra.

Section Loop.
Context {Oracle : Type} `{OracleBS Oracle Qc}.

(** The loop of [bsearch]; [lower] and [upper] are references into
    [intvl], which the result carries after the oracle. *)
Fixpoint bsearch_loop (options : Options Qc) (fuel niter : nat)
         (omega : Oracle) (lower upper u_orig : Qc)
  : Oracle * (Qc * Qc) * CInfo :=
  match fuel with
  | O =>
      (omega, (lower, upper),
       cinfo (negb (Qceqb upper u_orig)) (max_iter options))
  | S fuel' =>
      let tau := half_nonnegative (upper - lower) in
      if Qcltb tau (tol options)
      then (omega, (lower, upper), cinfo (negb (Qceqb upper u_orig)) niter)
      else
        let tea := lower + tau in
        let '(omega1, ok) := assess_bs omega tea in
        if ok
        then bsearch_loop options fuel' (S niter) omega1 lower tea u_orig
        else bsearch_loop options fuel' (S niter) omega1 tea upper u_orig
  end.

(** [bsearch]; [None] stands for the failed [assert(lower <= upper)]. *)
Definition bsearch (omega : Oracle) (intvl : Qc * Qc)
           (options : Options Qc)
  : option (Oracle * (Qc * Qc) * CInfo) :=
  let lower := fst intvl in
  let upper := snd intvl in
  if Qcleb lower upper
  then
    let u_orig := upper in
    Some (bsearch_loop options (max_iter options) 0 omega lower upper
                       u_orig)
  else None.

(** *** Vocabulary of the statements *)

(** One bisection step as the specification words it: ask the oracle at
    the midpoint; on feasible the midpoint becomes the upper end,
    otherwise the lower end. *)
Definition bisect (st : Oracle * (Qc * Qc)) : Oracle * (Qc * Qc) :=
  let '(omega, (lower, upper)) := st in
  let mid := lower + (upper - lower) / qc 2 1 in
  let '(omega1, ok) := assess_bs omega mid in
  if ok then (omega1, (lower, mid)) else (omega1, (mid, upper)).

Fixpoint bisect_run (k : nat) (st : Oracle * (Qc * Qc))
  : Oracle * (Qc * Qc) :=
  match k with
  | O => st
  | S k' => bisect (bisect_run k' st)
  end.

(** [(upper - lower)/2 < tol] in a state. *)
Definition narrow (options : Options Qc) (st : Oracle * (Qc * Qc)) : bool :=
  let '(_, (lower, upper)) := st in
  Qcltb ((upper - lower) / qc 2 1) (tol options).

End Loop.

End Bsearch.

(** ** profit_oracle.cpp *)

Module Profit.
Local Open Scope R_scope.

(** [using Vec = std::valarray<double>;  using Cut = std::pair<Vec, double>]
    A valarray is a list of scalars; the arithmetic operators act
    element by element.  Indexing past the end and combining valarrays of
    different sizes are undefined in C++; here the former reads [0] and the
    latter stops at the shorter one.  The oracle is used with vectors of
    size two. *)
Definition Vec : Type := list R.

(** The [double] that [std::log] returns, and with it the offset of a cut:
    a real number, minus infinity (the logarithm of [0]) or not a number
    (the logarithm of a negative number). *)
Inductive Double : Type :=
| Finite (r : R)
| MinusInf
| NaN.

Definition Cut : Type := (Vec * Double)%type.

(** [v[i]] *)
Definition at_ (v : Vec) (i : nat) : R := nth i v 0.

Fixpoint zip_with (f : R -> R -> R) (a b : Vec) : Vec :=
  match a, b with
  | x :: a', y :: b' => f x y :: zip_with f a' b'
  | _, _ => nil
  end.

(** [a * b], [a - b] and [a / t] on valarrays, and [std::exp(a)]. *)
Definition vmul (a b : Vec) : Vec := zip_with Rmult a b.
Definition vsub (a b : Vec) : Vec := zip_with Rminus a b.
Definition vdiv (a : Vec) (t : R) : Vec := map (fun x => x / t) a.
Definition vexp (a : Vec) : Vec := map exp a.

(** [std::log(x)]: the natural logarithm of a positive [x], minus infinity
    at [0], not a number below [0]. *)
Definition xlog (x : R) : Double :=
  if Rlt_dec 0 x then Finite (ln x)
  else if Req_dec_T x 0 then MinusInf
  else NaN.

(** [a - b] and [a + b] for a real number [b]. *)
Definition xsub (a : Double) (b : R) : Double :=
  match a with
  | Finite r => Finite (r - b)
  | MinusInf => MinusInf
  | NaN => NaN
  end.

Definition xadd (a : Double) (b : R) : Double :=
  match a with
  | Finite r => Finite (r + b)
  | MinusInf => MinusInf
  | NaN => NaN
  end.

(** [a < 0.0] and [a > 0.0]: a comparison with not a number is false. *)
Definition xneg (a : Double) : Prop :=
  match a with
  | Finite r => r < 0
  | MinusInf => True
  | NaN => False
  end.

Definition xpos (a : Double) : Prop :=
  match a with
  | Finite r => 0 < r
  | MinusInf => False
  | NaN => False
  end.

Definition xneg_dec (a : Double) : {xneg a} + {~ xneg a} :=
  match a return {xneg a} + {~ xneg a} with
  | Finite r => Rlt_dec r 0
  | MinusInf => left I
  | NaN => right (fun H : False => H)
  end.

(** The members of [ProfitOracle] that [assess_optim] reads. *)
Record ProfitOracle : Type := mkProfitOracle
  { _log_pA : R;
    _log_k : R;
    _price_out : Vec;
    _elasticities : Vec }.

(** [ProfitOracle::assess_optim(const Vec &y, double &target) const]:
    the returned [(cut, shrunk)] and [target] after the call. *)
Definition assess_optim (o : ProfitOracle) (y : Vec) (target : R)
  : (Cut * bool) * R :=
  let f1 := at_ y 0 - _log_k o in
  if Rlt_dec 0 f1 then
    (((1 :: 0 :: nil, Finite f1), false), target)
  else
    let log_Cobb :=
      _log_pA o + at_ (_elasticities o) 0 * at_ y 0
      + at_ (_elasticities o) 1 * at_ y 1 in
    let x := vexp y in
    let vx := at_ (_price_out o) 0 * at_ x 0 + at_ (_price_out o) 1 * at_ x 1 in
    let te := target + vx in
    let fj := xsub (xlog te) log_Cobb in
    if xneg_dec fj then
      let te' := exp log_Cobb in
      let target' := te' - vx in
      let g := vsub (vdiv (vmul (_price_out o) x) te') (_elasticities o) in
      (((g, Finite 0), true), target')
    else
      let g := vsub (vdiv (vmul (_price_out o) x) te) (_elasticities o) in
      (((g, fj), false), target).

(** *** Vocabulary of the statements *)

(** The two quantities the second test compares. *)
Definition log_Cobb (o : ProfitOracle) (y : Vec) : R :=
  _log_pA o + at_ (_elasticities o) 0 * at_ y 0
  + at_ (_elasticities o) 1 * at_ y 1.

Definition vx (o : ProfitOracle) (y : Vec) : R :=
  at_ (_price_out o) 0 * at_ (vexp y) 0
  + at_ (_price_out o) 1 * at_ (vexp y) 1.

(** The offset [beta] of a cut, the flag and the new target of a result. *)
Definition beta_of (r : (Cut * bool) * R) : Double := snd (fst (fst r)).
Definition shrunk_of (r : (Cut * bool) * R) : bool := snd (fst r).
Definition target_of (r : (Cut * bool) * R) : R := snd r.

(** An oracle with elasticities [(0.1, 0.4)] and output prices [(10, 35)],
    [unit_price * scale = 1] and [limit = 1]. *)
Definition unit_oracle : ProfitOracle :=
  mkProfitOracle 0 0 (10 :: 35 :: nil) (1 / 10 :: 4 / 10 :: nil).

End Profit.

Module LDLTExamples.
Import Scalar LDLT.
Local Open Scope Qc_scope.

Definition zeroT : Mat := fun _ _ => 0.
Definition zerov : Vec := fun _ => 0.

(** A manager as constructed for dimension [n]. *)
Definition mgr0 (n : nat) : LDLTMgr := mkLDLTMgr n (0, 0)%nat zerov zeroT.

(** [[1 2] [2 1]] is indefinite. *)
Definition getA (i j : nat) : Qc := if (i =? j)%nat then 1 else qc 2 1.

(** The zero matrix. *)
Definition get0 : nat -> nat -> Qc := fun _ _ => 0.

(** [diag(0, -1)]: a zero pivot followed by a negative one. *)
Definition getD (i j : nat) : Qc :=
  if ((i =? 1) && (j =? 1))%nat then - (1) else 0.

(** A manager that has been used before: [factor] on [[1 2] [2 1]] and then
    [witness()], which leaves the vector [(-2, 1)] behind. *)
Definition used_mgr : LDLTMgr :=
  match witness (fst (factor getA (mgr0 2))) with
  | Some (m, _) => m
  | None => mgr0 2
  end.

End LDLTExamples.

(** ** A small instance of the concepts

    A one-dimensional search space on the integers, with oracles that look
    for a target point.  It stands in for the ellipsoid where a statement is
    run on concrete data. *)

Module Toy.
Import Config CuttingPlane.
Local Open Scope Z_scope.

(** The interval [centre - radius, centre + radius]. *)
Record Interval : Set := mkInterval
  { centre : Z;
    radius : Z }.

(** A cut [(g, beta)]: the points [x] with [g * (x - centre) + beta <= 0]. *)
Definition Cut1 : Set := (Z * Z)%type.

(** A zero gradient has no effect, an offset beyond the radius leaves no
    solution, an offset below minus the radius is vacuous; otherwise the
    interval is cut down to the half-line's side. *)
Definition interval_update (s : Interval) (cut : Cut1)
  : Interval * CutStatus :=
  let '(g, beta) := cut in
  if g =? 0 then (s, NoEffect)
  else if radius s <? beta then (s, NoSoln)
  else if beta <? - radius s then (s, SmallEnough)
  else
    (mkInterval (centre s - Z.sgn g * ((radius s + beta + 1) / 2))
                ((radius s - beta) / 2),
     Success).

#[export] Instance Z_lt : NumLt Z := Z.ltb.
#[export] Instance Z_default : DefaultArr Z := 0.
#[export] Instance Interval_space : SearchSpace Interval Z Cut1 Z :=
  {| xc := centre;
     set_xc := fun s v => mkInterval v (radius s);
     tsq := fun s => radius s * radius s;
     update := interval_update;
     copy := fun s => s |}.

(** The oracles are a target point [t]. *)
Definition Target : Set := Z.

(** Feasible at the target; otherwise a central cut towards it. *)
#[export] Instance Target_feas : OracleFeas Target Z Cut1 :=
  fun t x => (t, if x =? t then None else Some (Z.sgn (x - t), 0)).

(** Minimise the squared distance to the target; [tea] is the best value
    so far. *)
#[export] Instance Target_optim : OracleOptim Target Z Cut1 Z :=
  fun t x tea =>
    let f := (x - t) * (x - t) in
    if f <? tea then (t, f, ((Z.sgn (x - t), 0), true))
    else (t, tea, ((Z.sgn (x - t), f - tea), false)).

(** An oracle for the discrete driver that replays a list of answers
    [(cut, shrunk, x0, more_alt)]; [tea] drops by one on every [shrunk]. *)
Definition Script : Set := list (Cut1 * bool * Z * bool).

#[export] Instance Script_q : OracleQ Script Z Cut1 Z :=
  fun s x tea retry =>
    match s with
    | nil => (nil, tea, ((0, 0), false, x, false))
    | (cut, shrunk, x0, more_alt) :: s' =>
        (s', if shrunk then tea - 1 else tea, (cut, shrunk, x0, more_alt))
    end.

(** [update(tea)] moves the target. *)
#[export] Instance Target_update : OracleUpdate Target Z :=
  fun _ tea => tea.

Definition start : Interval := mkInterval 0 8.
Definition opts : Options Z := mkOptions 10%nat 1.

(** Two answers with a zero gradient: the first offers an alternative. *)
Definition script_retry : Script :=
  ((0, 0), true, 5, true) :: ((0, 0), false, 5, false) :: nil.

(** A vacuous cut followed by one that leaves no solution. *)
Definition script_small : Script :=
  ((1, -9), false, 0, false) :: ((1, 9), false, 0, false) :: nil.

Definition adaptor0 : bsearch_adaptor Target Interval Z :=
  mkAdaptor (0 : Target) start opts.

End Toy.

(** An oracle for [bsearch]: feasible from a threshold upwards. *)

Module BsearchExample.
Import Config Scalar CuttingPlane.

#[export] Instance Threshold_bs : OracleBS Qc Qc :=
  fun t tea => (t, Qcleb t tea).

Definition third : Qc := qc 1 3.
Definition unit_interval : Qc * Qc := (qc 0 1, qc 1 1).
Definition opts : Options Qc := mkOptions 10%nat (qc 1 8).

End BsearchExample.

(** ** Definite matrices and the order of [Qc] *)

Module Definite.
Import Scalar LDLT.
Local Open Scope Qc_scope.

(** [A] is positive definite, positive semidefinite, on the indices below
    [n]. *)
Definition pos_def (A : Mat) (n : nat) : Prop :=
  forall v : Vec,
    (exists i, (i < n)%nat /\ v i <> 0) -> 0 < quad_form A v 0 n.

Definition pos_semidef (A : Mat) (n : nat) : Prop :=
  forall v : Vec, 0 <= quad_form A v 0 n.

Definition symmetric (M : Mat) : Prop := forall i j, M i j = M j i.

(** State an order fact of [Qc] in [Q]. *)
Ltac to_Q :=
  unfold Qcle, Qclt, Qcdiv, Qcminus, Qcplus, Qcmult, Qcopp, Q2Qc in *;
  cbn [this] in *;
  repeat (rewrite ?Qred_correct in * ).

End Definite.

Module LDLTMoreExamples.
Import Scalar LDLT.
Local Open Scope Qc_scope.

(** [[2 1] [1 2]] is positive definite. *)
Definition getP (i j : nat) : Qc := if (i =? j)%nat then qc 2 1 else 1.

(** [[0 1] [1 0]] is indefinite, with a zero diagonal. *)
Definition getZ (i j : nat) : Qc := if (i =? j)%nat then 0 else 1.

End LDLTMoreExamples.

(** ** lmi_oracle.hpp: the class [LmiOracle] *)

Module Lmi.
Import Config Scalar LDLT CuttingPlane.
Local Open Scope Qc_scope.

(** [Arr036] is read through [x.size()] and [x[k]], copied and written
    through [g[i]]; [Mat] is read through [M(i, j)].
    [using Cut = std::pair<Arr036, double>]. *)
Definition Arr : Type := list Qc.
Definition Cut : Type := (Arr * Qc)%type.

Definition zeroM : Mat := fun _ _ => 0.

(** [g[i] = x], for [i] within the array. *)
Fixpoint arr_set (g : Arr) (i : nat) (x : Qc) : Arr :=
  match g, i with
  | nil, _ => nil
  | _ :: g', O => x :: g'
  | y :: g', S i' => y :: arr_set g' i' x
  end.

(** The members of [LmiOracle]: the manager [_mq], the matrices [_F] and
    [_F0], and the cut that the returned pointer refers to. *)
Record LmiOracle : Type := mkLmiOracle
  { _mq : LDLTMgr;
    _F : list Mat;
    _F0 : Mat;
    cut : Cut }.

(** [for (auto k = 0U; k != n; ++k) { a -= this->_F[k](i, j) * x[k]; }]
    Reading [_F[k]] past the end of the vector is undefined in C++; it
    reads the zero matrix here. *)
Fixpoint getA_loop (F : list Mat) (x : Arr) (i j : nat) (cnt k : nat)
         (a : Qc) : Qc :=
  match cnt with
  | O => a
  | S cnt' =>
      getA_loop F x i j cnt' (S k) (a - nth k F zeroM i j * nth k x 0)
  end.

(** The lambda [getA] of [assess_feas]. *)
Definition getA (o : LmiOracle) (x : Arr) (i j : nat) : Qc :=
  getA_loop (_F o) x i j (length x) 0 (_F0 o i j).

(** Modelled from the spec: [LDLTMgr::sym_quad], which lives in
    [ldlt_mgr.hpp] with the class declaration.  "[sym_quad(M)]: compute
    [v' M v] over the same index range", the range and the vector being
    the ones [witness()] has left in the manager. *)
Definition sym_quad (mq : LDLTMgr) (M : Mat) : Qc :=
  quad_form M (witness_vec mq) (fst (p mq)) (snd (p mq)).

(** [for (auto i = 0U; i != n; ++i) { g[i] = this->_mq.sym_quad(
    this->_F[i]); }] *)
Fixpoint g_loop (mq : LDLTMgr) (F : list Mat) (cnt i : nat) (g : Arr)
  : Arr :=
  match cnt with
  | O => g
  | S cnt' =>
      g_loop mq F cnt' (S i) (arr_set g i (sym_quad mq (nth i F zeroM)))
  end.

(** [LmiOracle::assess_feas]: the oracle after the call and the cut the
    returned pointer refers to, if it is not null.  The outer [None]
    stands for the failed assertion of [witness()]. *)
Definition assess_feas (o : LmiOracle) (x : Arr)
  : option (LmiOracle * option Cut) :=
  let n := length x in
  let '(mq1, ok) := factor (getA o x) (_mq o) in
  if ok then Some (mkLmiOracle mq1 (_F o) (_F0 o) (cut o), None)
  else
    match witness mq1 with
    | None => None
    | Some (mq2, ep) =>
        let g := g_loop mq2 (_F o) n 0 x in
        Some (mkLmiOracle mq2 (_F o) (_F0 o) (g, ep), Some (g, ep))
    end.

(** The oracle as [cutting_plane_feas] uses it, through
    [omega.assess_feas(space.xc())].  The assertion of [witness()] does
    not fail there (see [assess_feas_outcome]). *)
#[export] Instance LmiOracle_feas : OracleFeas LmiOracle Arr Cut :=
  fun o x =>
    match assess_feas o x with
    | Some r => r
    | None => (o, None)
    end.

(** *** Vocabulary of the statements *)

(** [g' (z - x)] over the components of [x]. *)
Definition slope (g z x : Arr) : Qc :=
  sumr 0 (length x) (fun k => nth k g 0 * (nth k z 0 - nth k x 0)).

End Lmi.

(** ** A small instance for the LMI oracle

    The inequality [1 - x >= 0] in one variable, searched on a segment of
    the line that is halved towards the side a cut leaves. *)

Module LmiExample.
Import Config Scalar LDLT CuttingPlane Lmi LDLTExamples.
Local Open Scope Qc_scope.

Record Segment : Type := mkSegment
  { mid : Qc;
    half : Qc }.

Definition segment_update (s : Segment) (c : Cut) : Segment * CutStatus :=
  let g0 := nth 0 (fst c) 0 in
  if Qceqb g0 0 then (s, NoEffect)
  else if Qcltb 0 g0
       then (mkSegment (mid s - half s / qc 2 1) (half s / qc 2 1), Success)
       else (mkSegment (mid s + half s / qc 2 1) (half s / qc 2 1), Success).

#[export] Instance Qc_lt : NumLt Qc := Qcltb.
#[export] Instance Arr_default : DefaultArr Arr := nil.
#[export] Instance Segment_space : SearchSpace Segment Arr Cut Qc :=
  {| xc := fun s => mid s :: nil;
     set_xc := fun s v => mkSegment (nth 0 v 0) (half s);
     tsq := fun s => half s * half s;
     update := segment_update;
     copy := fun s => s |}.

Definition one : Mat := fun _ _ => 1.

(** [B = (1)], [F = ((1))]: the matrix is [(1 - x[0])]. *)
Definition lmi1 : LmiOracle := mkLmiOracle (mgr0 1) (one :: nil) one (nil, 0).

Definition seg : Segment := mkSegment (qc 2 1) (qc 2 1).
Definition seg_opts : Options Qc := mkOptions 10%nat (qc 1 100).

(** The oracle after the call at [x = (2)]. *)
Definition lmi1_after : LmiOracle :=
  match Lmi.assess_feas lmi1 (qc 2 1 :: nil) with
  | Some (o, _) => o
  | None => lmi1
  end.

End LmiExample.

(** ** Vocabulary of further statements about [bsearch] *)

Module BsearchVocabulary.
Import Config Scalar CuttingPlane Bsearch.
Local Open Scope Qc_scope.

(** The answer of [assess_bs] at the midpoint of a state. *)
Definition bs_accepts {Oracle : Type} `{OracleBS Oracle Qc}
           (st : Oracle * (Qc * Qc)) : bool :=
  let '(omega, (lower, upper)) := st in
  snd (assess_bs omega (lower + (upper - lower) / qc 2 1)).

End BsearchVocabulary.

(** ** [bsearch] on a [bsearch_adaptor] *)

Module Adaptor.
Import Config Scalar CuttingPlane.

(** [bsearch(omega, intvl, options)] with a [bsearch_adaptor] for [omega]:
    the driver calls [omega.assess_bs(tea)]. *)
#[export] Instance adaptor_bs {Oracle Space Arr Cut Num : Type}
  `{NumLt Num} `{SearchSpace Space Arr Cut Num}
  `{OracleFeas Oracle Arr Cut} `{OracleUpdate Oracle Qc}
  : OracleBS (bsearch_adaptor Oracle Space Num) Qc :=
  adaptor_assess_bs.

End Adaptor.

Module AdaptorExample.
Import Config Scalar CuttingPlane Toy.

(** [update(tea)] moves the target to the integer part of [tea]. *)
#[export] Instance Target_update_Qc : OracleUpdate Target Qc :=
  fun _ tea => (Qnum (this tea) / Zpos (Qden (this tea)))%Z.

Definition intvl : Qc * Qc := (qc 0 1, qc 8 1).
Definition bs_opts : Options Qc := mkOptions 4%nat (qc 1 4).

End AdaptorExample.

(** ** profit_oracle.cpp: [ProfitOracleQ], and [ProfitOracle] as the
    drivers use it *)

Module ProfitQ.
Import CuttingPlane Profit.
Local Open Scope R_scope.

(** [cutting_plane_optim(omega, ellip, 0.0)] calls
    [omega.assess_optim(space.xc(), tea)]; the member function is
    [const]. *)
#[export] Instance ProfitOracle_optim : OracleOptim ProfitOracle Vec Cut R :=
  fun o y target =>
    let '(r, target') := assess_optim o y target in (o, target', r).

(** [Vec{}] *)
#[export] Instance Vec_default : DefaultArr Vec := nil.

(** [std::round]: the nearest integer, halfway cases away from zero. *)
Definition round (x : R) : R :=
  if Rle_dec 0 x then IZR (Int_part (x + / 2))
  else - IZR (Int_part (- x + / 2)).

(** [x[i] = t], for [i] within the valarray. *)
Fixpoint vupd (v : Vec) (i : nat) (t : R) : Vec :=
  match v, i with
  | nil, _ => nil
  | _ :: v', O => t :: v'
  | a :: v', S i' => a :: vupd v' i' t
  end.

(** [std::log(x)] on a valarray. *)
Definition vlog (a : Vec) : Vec := map ln a.

(** The members of [ProfitOracleQ]: the continuous oracle [_P] and the
    point [_yd] it was last asked at. *)
Record ProfitOracleQ : Type := mkProfitOracleQ
  { _P : ProfitOracle;
    _yd : Vec }.

(** The block under [if (!retry)]: the value assigned to [_yd]. *)
Definition rounded (y : Vec) : Vec :=
  let x := vexp y in
  let x := map round x in
  let x := if Req_dec_T (at_ x 0) 0 then vupd x 0 1 else x in
  let x := if Req_dec_T (at_ x 1) 0 then vupd x 1 1 else x in
  vlog x.

(** [ProfitOracleQ::assess_optim_q]: the oracle and [target] after the
    call, and the returned [(cut, shrunk, _yd, false)]. *)
Definition assess_optim_q (o : ProfitOracleQ) (y : Vec) (target : R)
           (retry : bool)
  : ProfitOracleQ * R * (Cut * bool * Vec * bool) :=
  let yd := if negb retry then rounded y else _yd o in
  let '(((g, h), shrunk), target') := assess_optim (_P o) yd target in
  let d := vsub yd y in
  let h' := xadd h (at_ g 0 * at_ d 0 + at_ g 1 * at_ d 1) in
  (mkProfitOracleQ (_P o) yd, target', ((g, h'), shrunk, yd, false)).

End ProfitQ.

(** ** test_quasicvx.cpp: the oracle of the quasiconvex example *)

Module Quasicvx.
Import CuttingPlane Profit.
Local Open Scope R_scope.

(** [struct MyQuasicCvxOracle { int idx = 0; double tmp2 = 0.0;
    double tmp3 = 0.0; ... }].  The counter [idx] is an [int]; it is an
    integer here, and stays [0] or [1] (see [quasicvx_call]). *)
Record MyQuasicCvxOracle : Type := mkMyQuasicCvxOracle
  { idx : Z;
    tmp2 : R;
    tmp3 : R }.

(** [using Cut = std::pair<Vec, double>], the member type of the struct:
    every offset this oracle returns is a number. *)
Definition Cut : Type := (Vec * R)%type.

(** [MyQuasicCvxOracle{}] *)
Definition fresh : MyQuasicCvxOracle := mkMyQuasicCvxOracle 0 0 0.

(** [this->idx++; if (this->idx == 2) { this->idx = 0; }] *)
Definition next_idx (o : MyQuasicCvxOracle) : MyQuasicCvxOracle :=
  let i := (idx o + 1)%Z in
  mkMyQuasicCvxOracle (if (i =? 2)%Z then 0%Z else i) (tmp2 o) (tmp3 o).

(** The first [switch]: the oracle after it and [fj]; [None] stands for
    [exit(0)]. *)
Definition constraint (o : MyQuasicCvxOracle) (sqrtx ly gamma : R)
  : option (MyQuasicCvxOracle * R) :=
  match idx o with
  | 0%Z => Some (o, sqrtx * sqrtx - ly)
  | 1%Z =>
      let t2 := exp ly in
      let t3 := gamma * t2 in
      Some (mkMyQuasicCvxOracle (idx o) t2 t3, - sqrtx + t3)
  | _ => None
  end.

(** The second [switch], under [if (fj > 0.0)]. *)
Definition violated (o : MyQuasicCvxOracle) (sqrtx fj : R)
  : option (Cut * bool) :=
  match idx o with
  | 0%Z => Some ((2 * sqrtx :: -1 :: nil, fj), false)
  | 1%Z => Some ((-1 :: tmp3 o :: nil, fj), false)
  | _ => None
  end.

(** How the [for] loop ends: by [exit(0)], by a [return] inside it, or by
    running out. *)
Inductive LoopEnd : Type :=
| Exit
| Return (o : MyQuasicCvxOracle) (r : Cut * bool)
| Through (o : MyQuasicCvxOracle).

(** [for (int i = 0; i != 2; i++) { ... }], with [cnt] iterations left. *)
Fixpoint loop (cnt : nat) (o : MyQuasicCvxOracle) (sqrtx ly gamma : R)
  : LoopEnd :=
  match cnt with
  | O => Through o
  | S cnt' =>
      match constraint (next_idx o) sqrtx ly gamma with
      | None => Exit
      | Some (o1, fj) =>
          if Rlt_dec 0 fj then
            match violated o1 sqrtx fj with
            | None => Exit
            | Some r => Return o1 r
            end
          else loop cnt' o1 sqrtx ly gamma
      end
  end.

(** [MyQuasicCvxOracle::assess_optim]: the oracle and [gamma] after the
    call and the returned [(cut, shrunk)]; [None] stands for [exit(0)]. *)
Definition assess_optim (o : MyQuasicCvxOracle) (z : Vec) (gamma : R)
  : option (MyQuasicCvxOracle * R * (Cut * bool)) :=
  let sqrtx := at_ z 0 in
  let ly := at_ z 1 in
  match loop 2 o sqrtx ly gamma with
  | Exit => None
  | Return o1 r => Some (o1, gamma, r)
  | Through o1 =>
      Some (o1, sqrtx / tmp2 o1, ((-1 :: sqrtx :: nil, 0), true))
  end.

(** The oracle as [cutting_plane_optim(omega, ellip, gamma, options)] uses
    it, through [omega.assess_optim(space.xc(), tea)].  The program does
    not exit there (see [quasicvx_call]). *)
#[export] Instance MyQuasicCvxOracle_optim
  : OracleOptim MyQuasicCvxOracle Vec Cut R :=
  fun o z gamma =>
    match assess_optim o z gamma with
    | Some r => r
    | None => (o, gamma, ((nil, 0), false))
    end.

(** Evaluate the loop by one step. *)
Ltac qstep :=
  cbn [loop next_idx idx tmp2 tmp3 constraint violated
       Z.add Pos.add Z.eqb Pos.eqb].

End Quasicvx.

(** A search space over the reals that is a single point: every cut
    (a gradient with a number as offset) is without effect.  It stands in for the ellipsoid where a statement
    about the real-valued oracles is run on concrete data. *)

Module RealExample.
Import Config CuttingPlane Profit.
Local Open Scope R_scope.

#[export] Instance R_lt : NumLt R :=
  fun a b => if Rlt_dec a b then true else false.

#[export] Instance Point_space : SearchSpace Vec Vec Quasicvx.Cut R :=
  {| xc := fun s => s;
     set_xc := fun _ v => v;
     tsq := fun _ => 0;
     update := fun s _ => (s, NoEffect);
     copy := fun s => s |}.

Definition origin : Vec := 0 :: 0 :: nil.
Definition real_opts : Options R := mkOptions 10%nat (/ 100).

End RealExample.

(* ================================================================== *)
(** * Part II: properties                                               *)
(* ================================================================== *)

(** ** Comparisons and finite sums *)

Module ScalarFacts.
Import Scalar.
Local Open Scope Qc_scope.

Lemma Qcltb_true (x y : Qc) : Qcltb x y = true <-> x < y.
Proof.
  unfold Qcltb. rewrite Qclt_alt.
  destruct (x ?= y); split; intros E; congruence.
Qed.

Lemma Qcltb_false (x y : Qc) : Qcltb x y = false <-> y <= x.
Proof.
  split; intros E.
  - apply Qcnot_lt_le. intros L. apply Qcltb_true in L. congruence.
  - destruct (Qcltb x y) eqn:B; trivial.
    apply Qcltb_true in B. exfalso. exact (Qcle_not_lt _ _ E B).
Qed.

Lemma Qcleb_true (x y : Qc) : Qcleb x y = true <-> x <= y.
Proof.
  unfold Qcleb. rewrite Qcle_alt.
  destruct (x ?= y); split; intros E; congruence.
Qed.

Lemma Qcleb_false (x y : Qc) : Qcleb x y = false <-> y < x.
Proof.
  split; intros E.
  - apply Qcnot_le_lt. intros L. apply Qcleb_true in L. congruence.
  - destruct (Qcleb x y) eqn:B; trivial.
    apply Qcleb_true in B. exfalso. exact (Qclt_not_le _ _ E B).
Qed.

Lemma Qceqb_true (x y : Qc) : Qceqb x y = true <-> x = y.
Proof.
  unfold Qceqb. rewrite Qceq_alt.
  destruct (x ?= y); split; intros E; congruence.
Qed.

Lemma Qceqb_false (x y : Qc) : Qceqb x y = false <-> x <> y.
Proof.
  split; intros E.
  - intros L. apply Qceqb_true in L. congruence.
  - destruct (Qceqb x y) eqn:B; trivial.
    apply Qceqb_true in B. contradiction.
Qed.

(** *** Finite sums *)

Lemma sum_cnt_ext (f g : nat -> Qc) :
  forall cnt lo,
    (forall k, (lo <= k < lo + cnt)%nat -> f k = g k) ->
    sum_cnt cnt lo f = sum_cnt cnt lo g.
Proof.
  induction cnt as [|c IH]; intros lo E; cbn [sum_cnt]; trivial.
  rewrite (E lo) by lia. rewrite (IH (S lo)); trivial.
  intros k Hk. apply E. lia.
Qed.

Lemma sum_cnt_snoc (f : nat -> Qc) :
  forall cnt lo, sum_cnt (S cnt) lo f = sum_cnt cnt lo f + f (lo + cnt)%nat.
Proof.
  induction cnt as [|c IH]; intros lo.
  - cbn [sum_cnt]. rewrite Nat.add_0_r. ring.
  - change (sum_cnt (S (S c)) lo f) with (f lo + sum_cnt (S c) (S lo) f).
    rewrite IH. cbn [sum_cnt].
    replace (S lo + c)%nat with (lo + S c)%nat by lia. ring.
Qed.

Lemma sum_cnt_app (f : nat -> Qc) :
  forall a b lo,
    sum_cnt (a + b) lo f = sum_cnt a lo f + sum_cnt b (lo + a) f.
Proof.
  induction a as [|a IH]; intros b lo; cbn [sum_cnt Nat.add].
  - rewrite Nat.add_0_r. ring.
  - rewrite IH. replace (S lo + a)%nat with (lo + S a)%nat by lia. ring.
Qed.

Lemma sum_cnt_zero (f : nat -> Qc) :
  forall cnt lo,
    (forall k, (lo <= k < lo + cnt)%nat -> f k = 0) -> sum_cnt cnt lo f = 0.
Proof.
  induction cnt as [|c IH]; intros lo E; cbn [sum_cnt]; trivial.
  rewrite (E lo) by lia. rewrite IH; [ring|].
  intros k Hk. apply E. lia.
Qed.

Lemma sum_cnt_plus (f g : nat -> Qc) :
  forall cnt lo,
    sum_cnt cnt lo (fun k => f k + g k) = sum_cnt cnt lo f + sum_cnt cnt lo g.
Proof.
  induction cnt as [|c IH]; intros lo; cbn [sum_cnt]; [ring|]. rewrite IH. ring.
Qed.

Lemma sum_cnt_scale (a : Qc) (f : nat -> Qc) :
  forall cnt lo, sum_cnt cnt lo (fun k => a * f k) = a * sum_cnt cnt lo f.
Proof.
  induction cnt as [|c IH]; intros lo; cbn [sum_cnt]; [ring|]. rewrite IH. ring.
Qed.

Lemma sum_cnt_swap (f : nat -> nat -> Qc) :
  forall a la b lb,
    sum_cnt a la (fun i => sum_cnt b lb (fun j => f i j))
    = sum_cnt b lb (fun j => sum_cnt a la (fun i => f i j)).
Proof.
  induction a as [|a IH]; intros la b lb; cbn [sum_cnt].
  - symmetry. apply sum_cnt_zero. trivial.
  - rewrite IH. rewrite <- sum_cnt_plus. trivial.
Qed.

Lemma sumr_ext (f g : nat -> Qc) (lo hi : nat) :
  (forall k, (lo <= k < hi)%nat -> f k = g k) -> sumr lo hi f = sumr lo hi g.
Proof.
  intros E. apply sum_cnt_ext. intros k Hk. apply E. lia.
Qed.

Lemma sumr_zero (f : nat -> Qc) (lo hi : nat) :
  (forall k, (lo <= k < hi)%nat -> f k = 0) -> sumr lo hi f = 0.
Proof.
  intros E. apply sum_cnt_zero. intros k Hk. apply E. lia.
Qed.

Lemma sumr_empty (f : nat -> Qc) (lo hi : nat) :
  (hi <= lo)%nat -> sumr lo hi f = 0.
Proof.
  intros L. unfold sumr. replace (hi - lo)%nat with O by lia. trivial.
Qed.

Lemma sumr_split (f : nat -> Qc) (lo mid hi : nat) :
  (lo <= mid <= hi)%nat -> sumr lo hi f = sumr lo mid f + sumr mid hi f.
Proof.
  intros L. unfold sumr.
  replace (hi - lo)%nat with ((mid - lo) + (hi - mid))%nat by lia.
  rewrite sum_cnt_app. replace (lo + (mid - lo))%nat with mid by lia. trivial.
Qed.

Lemma sumr_first (f : nat -> Qc) (lo hi : nat) :
  (lo < hi)%nat -> sumr lo hi f = f lo + sumr (S lo) hi f.
Proof.
  intros L. unfold sumr.
  replace (hi - lo)%nat with (S (hi - S lo)) by lia. trivial.
Qed.

Lemma sumr_last (f : nat -> Qc) (lo hi : nat) :
  (lo <= hi)%nat -> sumr lo (S hi) f = sumr lo hi f + f hi.
Proof.
  intros L. unfold sumr.
  replace (S hi - lo)%nat with (S (hi - lo)) by lia.
  rewrite sum_cnt_snoc. replace (lo + (hi - lo))%nat with hi by lia. trivial.
Qed.

Lemma sumr_scale (a : Qc) (f : nat -> Qc) (lo hi : nat) :
  sumr lo hi (fun k => a * f k) = a * sumr lo hi f.
Proof. apply sum_cnt_scale. Qed.

Lemma sumr_swap (f : nat -> nat -> Qc) (la ha lb hb : nat) :
  sumr la ha (fun i => sumr lb hb (fun j => f i j))
  = sumr lb hb (fun j => sumr la ha (fun i => f i j)).
Proof. apply sum_cnt_swap. Qed.

(** A sum whose terms vanish away from one index. *)
Lemma sumr_pick (f : nat -> Qc) (lo hi m : nat) :
  (lo <= m < hi)%nat ->
  (forall k, (lo <= k < hi)%nat -> k <> m -> f k = 0) ->
  sumr lo hi f = f m.
Proof.
  intros L Z.
  rewrite (sumr_split f lo m hi) by lia.
  rewrite (sumr_first f m hi) by lia.
  rewrite (sumr_zero f lo m), (sumr_zero f (S m) hi).
  - ring.
  - intros k Hk. apply Z; lia.
  - intros k Hk. apply Z; lia.
Qed.

Lemma sumr_restrict (f : nat -> Qc) (lo' lo hi hi' : nat) :
  (lo' <= lo)%nat -> (lo <= hi)%nat -> (hi <= hi')%nat ->
  (forall k, (lo' <= k < lo \/ hi <= k < hi')%nat -> f k = 0) ->
  sumr lo' hi' f = sumr lo hi f.
Proof.
  intros L1 L2 L3 Z.
  rewrite (sumr_split f lo' lo hi') by lia.
  rewrite (sumr_split f lo hi hi') by lia.
  rewrite (sumr_zero f lo' lo), (sumr_zero f hi hi').
  - ring.
  - intros k Hk. apply Z. lia.
  - intros k Hk. apply Z. lia.
Qed.

Lemma sumr_scale2 (a b : Qc) (f : nat -> Qc) (lo hi : nat) :
  a * sumr lo hi f * b = sumr lo hi (fun k => a * f k * b).
Proof.
  rewrite <- Qcmult_assoc, (Qcmult_comm _ b), Qcmult_assoc.
  rewrite <- sumr_scale. apply sumr_ext. intros k _. ring.
Qed.

Lemma Qcopp_nonneg (x : Qc) : x <= 0 -> 0 <= - x.
Proof. intros L. apply Qcle_minus_iff in L. now rewrite Qcplus_0_l in L. Qed.

Lemma Qcopp_pos (x : Qc) : x < 0 -> 0 < - x.
Proof. intros L. apply Qclt_minus_iff in L. now rewrite Qcplus_0_l in L. Qed.

Lemma Qcopp_nonpos (x : Qc) : 0 <= x -> - x <= 0.
Proof.
  intros L. apply Qcle_minus_iff. rewrite Qcopp_involutive.
  now rewrite Qcplus_0_l.
Qed.

End ScalarFacts.

(** ** The LDLT manager *)

Module LDLTFacts.
Import Scalar ScalarFacts LDLT.
Local Open Scope Qc_scope.

Lemma loop_k_sum (T : Mat) (i s : nat) :
  forall cnt k d,
    loop_k T i s cnt k d = d - sum_cnt cnt k (fun t => T i t * T t s).
Proof.
  induction cnt as [|c IH]; intros k d; cbn [loop_k sum_cnt]; [ring|].
  rewrite IH. ring.
Qed.

(** *** One row *)

Section Row.
Variable get : nat -> nat -> Qc.
Variables start i : nat.

Lemma loop_j_frame :
  forall cnt j T d T' d',
    loop_j get start i cnt j T d = (T', d') ->
    forall a b, a <> i -> b <> i -> T' a b = T a b.
Proof.
  induction cnt as [|c IH]; intros j T d T' d' E a b Ha Hb;
    cbn [loop_j] in E.
  - congruence.
  - rewrite (IH _ _ _ _ _ E a b Ha Hb). upd.
Qed.

Lemma loop_j_diag :
  forall cnt j T d T' d',
    loop_j get start i cnt j T d = (T', d') ->
    (j + cnt <= i)%nat ->
    T' i i = T i i.
Proof.
  induction cnt as [|c IH]; intros j T d T' d' E L; cbn [loop_j] in E.
  - congruence.
  - rewrite (IH _ _ _ _ _ E) by lia. upd.
Qed.

Lemma loop_j_spec :
  forall cnt j T d T' d',
    loop_j get start i cnt j T d = (T', d') ->
    (start <= j)%nat -> (j + cnt = i)%nat ->
    row_ok get start i j T ->
    d = get i j - sumr start j (fun k => T i k * T k j) ->
    row_ok get start i i T'
    /\ d' = get i i - sumr start i (fun k => T' i k * T' k i).
Proof.
  induction cnt as [|c IH]; intros j T d T' d' E Lj Lc R D;
    cbn [loop_j] in E.
  - injection E as <- <-. assert (j = i) as -> by lia. split; trivial.
  - apply (IH _ _ _ _ _ E); try lia.
    + intros c0 Hc0.
      assert (c0 < j \/ c0 = j)%nat as [Lt | ->] by lia.
      * destruct (R c0) as [R1 R2]; [lia|]. split.
        -- transitivity (T c0 i); [upd|]. rewrite R1. f_equal.
           apply sumr_ext. intros k Hk. f_equal; upd.
        -- transitivity (T i c0); [upd|]. rewrite R2. f_equal; upd.
      * split.
        -- transitivity d; [upd|]. rewrite D. f_equal.
           apply sumr_ext. intros k Hk. f_equal; upd.
        -- upd.
    + rewrite loop_k_sum. reflexivity.
Qed.

End Row.

Lemma factor_row_frame get start i T T' d :
  factor_row get start i T = (T', d) ->
  T' i i = d /\ forall a b, (a < i)%nat -> (b < i)%nat -> T' a b = T a b.
Proof.
  unfold factor_row. destruct (loop_j _ _ _ _ _ _ _) as [T1 d1] eqn:E.
  intros [= <- <-]. split; [upd|].
  intros a b Ha Hb. transitivity (T1 a b); [upd|].
  apply (loop_j_frame _ _ _ _ _ _ _ _ _ E); lia.
Qed.

Lemma factor_row_inv get start i T T' d :
  factor_row get start i T = (T', d) ->
  (start <= i)%nat ->
  ldl_inv get start i T -> ldl_inv get start (S i) T'.
Proof.
  unfold factor_row. destruct (loop_j _ _ _ _ _ _ _) as [T1 d1] eqn:E.
  intros [= <- <-] L I.
  assert (F := loop_j_frame _ _ _ _ _ _ _ _ _ E).
  destruct (loop_j_spec _ _ _ _ _ _ _ _ _ E) as [R D]; try lia.
  { intros c Hc. lia. }
  { rewrite sumr_empty by lia. ring. }
  intros r c Hc Hcr Hr.
  assert (r < i \/ r = i)%nat as [Lt | ->] by lia.
  - destruct (I r c) as [I1 I2]; try lia. split.
    + transitivity (T c r); [upd; apply F; lia|]. rewrite I1. f_equal.
      apply sumr_ext. intros k Hk. f_equal; upd; symmetry; apply F; lia.
    + intros Lcr. transitivity (T r c); [upd; apply F; lia|].
      rewrite (I2 Lcr). f_equal; upd; symmetry; apply F; lia.
  - assert (c < i \/ c = i)%nat as [Lt | ->] by lia.
    + destruct (R c) as [R1 R2]; [lia|]. split.
      * transitivity (T1 c i); [upd|]. rewrite R1. f_equal.
        apply sumr_ext. intros k Hk. f_equal; upd.
      * intros _. transitivity (T1 i c); [upd|]. rewrite R2. f_equal; upd.
    + split; [|lia]. transitivity d1; [upd|]. rewrite D. f_equal.
      apply sumr_ext. intros k Hk. f_equal; upd.
Qed.

(** *** The algebra of the witness *)

Lemma Lfac_below T r k : (k < r)%nat -> Lfac T r k = T r k.
Proof. intros L. unfold Lfac. destruct (Nat.ltb_spec k r); [trivial|lia]. Qed.

Lemma Lfac_diag T r : Lfac T r r = 1.
Proof.
  unfold Lfac. destruct (Nat.ltb_spec r r); [lia|].
  now rewrite Nat.eqb_refl.
Qed.

Lemma Lfac_above T r k : (r < k)%nat -> Lfac T r k = 0.
Proof.
  intros L. unfold Lfac. destruct (Nat.ltb_spec k r); [lia|].
  destruct (Nat.eqb_spec k r); [lia|trivial].
Qed.

Lemma LDLt_sym T lo hi r c : LDLt T lo hi r c = LDLt T lo hi c r.
Proof. apply sumr_ext. intros k _. ring. Qed.

Section Algebra.
Variable get : nat -> nat -> Qc.
Variable T : Mat.
Variables start m : nat.
Hypothesis start_le : (start <= m)%nat.
Hypothesis inv : ldl_inv get start (S m) T.
Hypothesis pivots : forall c, (start <= c < m)%nat -> T c c <> 0.

(** Below the diagonal the accessor is reproduced by [L D L']. *)
Lemma get_LDLt r c :
  (start <= c)%nat -> (c <= r)%nat -> (r <= m)%nat ->
  get r c = LDLt T start (S m) r c.
Proof.
  intros Hc Hcr Hr. unfold LDLt.
  rewrite (sumr_split _ start c (S m)) by lia.
  rewrite (sumr_first _ c (S m)) by lia.
  rewrite (sumr_zero _ (S c) (S m)).
  2:{ intros k Hk. rewrite (Lfac_above T c k) by lia. ring. }
  rewrite Lfac_diag.
  destruct (inv r c) as [I1 I2]; try lia.
  assert (Lfac T r c * T c c = T c r) as E.
  { assert (c < r \/ c = r)%nat as [Lt | ->] by lia.
    - rewrite Lfac_below by lia. rewrite (I2 Lt).
      field. apply pivots. lia.
    - rewrite Lfac_diag. ring. }
  rewrite (sumr_ext _ (fun k => T r k * T k c) start c).
  - rewrite <- (Qcmult_assoc (Lfac T r c)), Qcmult_1_r, E, I1. ring.
  - intros k Hk. rewrite !Lfac_below by lia.
    destruct (inv c k) as [_ J]; try lia. rewrite J by lia.
    field. apply pivots. lia.
Qed.

Lemma sym_LDLt r c :
  (start <= r <= m)%nat -> (start <= c <= m)%nat ->
  sym get r c = LDLt T start (S m) r c.
Proof.
  intros Hr Hc. unfold sym. destruct (Nat.leb_spec c r).
  - apply get_LDLt; lia.
  - rewrite LDLt_sym. apply get_LDLt; lia.
Qed.

Variable v : Vec.

Lemma quad_form_LDLt :
  quad_form (sym get) v start (S m)
  = sumr start (S m) (fun k => T k k * (Ltv T v start m k * Ltv T v start m k)).
Proof.
  unfold quad_form.
  transitivity
    (sumr start (S m) (fun i => sumr start (S m) (fun j =>
       sumr start (S m) (fun k =>
         T k k * ((Lfac T i k * v i) * (Lfac T j k * v j)))))).
  { apply sumr_ext. intros i Hi. apply sumr_ext. intros j Hj.
    rewrite sym_LDLt by lia. unfold LDLt.
    rewrite sumr_scale2. apply sumr_ext. intros k _. ring. }
  transitivity
    (sumr start (S m) (fun i => sumr start (S m) (fun k =>
       sumr start (S m) (fun j =>
         T k k * ((Lfac T i k * v i) * (Lfac T j k * v j)))))).
  { apply sumr_ext. intros i Hi. apply sumr_swap. }
  rewrite sumr_swap. apply sumr_ext. intros k Hk.
  unfold Ltv at 1. rewrite Qcmult_assoc, sumr_scale2.
  apply sumr_ext. intros i Hi.
  unfold Ltv. rewrite <- sumr_scale.
  apply sumr_ext. intros j _. ring.
Qed.

Hypothesis v_last : v m = 1.
Hypothesis v_rec : forall c, (start <= c < m)%nat ->
  v c = - sumr (S c) (S m) (fun k => T k c * v k).

Lemma Ltv_unit k :
  (start <= k <= m)%nat -> Ltv T v start m k = if (k =? m)%nat then 1 else 0.
Proof.
  intros Hk. unfold Ltv.
  rewrite (sumr_split _ start k (S m)) by lia.
  rewrite (sumr_first _ k (S m)) by lia.
  rewrite (sumr_zero _ start k).
  2:{ intros r Hr. rewrite (Lfac_above T r k) by lia. ring. }
  rewrite Lfac_diag.
  rewrite (sumr_ext _ (fun r => T r k * v r) (S k) (S m)).
  2:{ intros r Hr. rewrite Lfac_below by lia. trivial. }
  destruct (Nat.eqb_spec k m) as [-> | N].
  - rewrite sumr_empty by lia. rewrite v_last. ring.
  - rewrite (v_rec k) by lia. ring.
Qed.

(** The quadratic form of the witness is the last pivot. *)
Lemma quad_form_witness : quad_form (sym get) v start (S m) = T m m.
Proof.
  rewrite quad_form_LDLt.
  rewrite (sumr_pick _ start (S m) m).
  - rewrite Ltv_unit by lia. rewrite Nat.eqb_refl. ring.
  - lia.
  - intros k Hk N. rewrite Ltv_unit by lia.
    destruct (Nat.eqb_spec k m); [lia|ring].
Qed.

End Algebra.

(** *** The witness loops *)

Lemma wloop_k_spec (T : Mat) (i : nat) :
  (1 <= i)%nat ->
  forall cnt k v, (i <= k)%nat ->
    wloop_k T i cnt k v (i - 1)%nat
    = v (i - 1)%nat - sum_cnt cnt k (fun t => T t (i - 1)%nat * v t)
    /\ forall a, a <> (i - 1)%nat -> wloop_k T i cnt k v a = v a.
Proof.
  intros Hi. induction cnt as [|c IH]; intros k v Hk; cbn [wloop_k sum_cnt].
  - split; [ring|trivial].
  - destruct (IH (S k) (vset v (i - 1) (v (i - 1)%nat - T k (i - 1)%nat * v k)))
      as [E F]; [lia|]. split.
    + rewrite E.
      rewrite (sum_cnt_ext _ (fun t => T t (i - 1)%nat * v t)).
      * unfold vset at 1. rewrite Nat.eqb_refl. ring.
      * intros t Ht. f_equal. upd.
    + intros a Ha. rewrite F by trivial. upd.
Qed.

Lemma wloop_i_spec (T : Mat) (n : nat) :
  forall cnt i v, (cnt <= i)%nat -> (i < n)%nat ->
    let v' := wloop_i T n cnt i v in
    (forall a, (i <= a)%nat -> v' a = v a)
    /\ (forall a, (a < i - cnt)%nat -> v' a = v a)
    /\ (forall c, (i - cnt <= c < i)%nat ->
          v' c = - sumr (S c) n (fun k => T k c * v' k)).
Proof.
  induction cnt as [|c IH]; intros i v Hc Hi; cbn [wloop_i].
  - repeat split; trivial. intros c Hc'. lia.
  - set (v1 := vset v (i - 1) 0).
    destruct (wloop_k_spec T i ltac:(lia) (n - i)%nat i v1 (le_n _)) as [E F].
    set (v2 := wloop_k T i (n - i) i v1) in *.
    destruct (IH (i - 1)%nat v2) as (A & B & C); try lia.
    cbv zeta. repeat split.
    + intros a Ha. rewrite A by lia. rewrite F by lia. subst v1. upd.
    + intros a Ha. rewrite B by lia. rewrite F by lia. subst v1. upd.
    + intros c0 Hc0.
      assert (c0 < i - 1 \/ c0 = i - 1)%nat as [Lt | ->] by lia.
      * apply C. lia.
      * rewrite A by lia. rewrite E.
        replace (S (i - 1)) with i by lia.
        unfold sumr. rewrite (sum_cnt_ext _ (fun k =>
          T k (i - 1)%nat * wloop_i T n c (i - 1) v2 k)).
        -- subst v1. unfold vset at 1. rewrite Nat.eqb_refl. ring.
        -- intros k Hk. f_equal. rewrite A by lia. rewrite F by lia. trivial.
Qed.

(** [witness] on a manager whose factorisation failed. *)
Lemma witness_of_failed get m :
  failed get m ->
  exists m' ep,
    witness m = Some (m', ep)
    /\ n_ m' = n_ m /\ p m' = p m /\ T m' = T m
    /\ witness_vec m' (snd (p m) - 1)%nat = 1
    /\ (forall i, (fst (p m) <= i < snd (p m) - 1)%nat ->
          witness_vec m' i
          = - sumr (S i) (snd (p m)) (fun k => T m k i * witness_vec m' k))
    /\ (forall i, (i < fst (p m) \/ snd (p m) <= i)%nat ->
          witness_vec m' i = witness_vec m i)
    /\ ep = - T m (snd (p m) - 1)%nat (snd (p m) - 1)%nat
    /\ quad_form (sym get) (witness_vec m') (fst (p m)) (snd (p m)) = - ep.
Proof.
  intros (i & Hs & Hst & Hn & I & P & N).
  unfold witness, is_spd. rewrite Hs. cbn [Nat.eqb].
  replace (S i - 1)%nat with i by lia.
  set (v0 := vset (witness_vec m) i 1).
  destruct (wloop_i_spec (T m) (S i) (i - fst (p m))%nat i v0)
    as (A & B & C); try lia.
  set (v' := wloop_i (T m) (S i) (i - fst (p m)) i v0) in *.
  assert (v' i = 1) as V1.
  { rewrite A by lia. subst v0. unfold vset. now rewrite Nat.eqb_refl. }
  eexists _, _. split; [reflexivity|]. cbn [n_ p T witness_vec set_witness_vec].
  repeat split; trivial.
  - intros c Hc. apply C. lia.
  - intros a [Ha | Ha].
    + rewrite B by lia. subst v0. upd.
    + rewrite A by lia. subst v0. upd.
  - rewrite Qcopp_involutive.
    apply quad_form_witness; trivial.
    + intros c Hc. apply not_eq_sym, Qclt_not_eq, P. trivial.
    + intros c Hc. apply C. lia.
Qed.

(** *** The rows of [factor] *)

Section Rows.
Variable get : nat -> nat -> Qc.
Variable T0 : Mat.

Lemma rows_S k :
  factor_row get 0 k (rows get k T0) = (rows get (S k) T0, pivot get T0 k).
Proof. unfold pivot. cbn [rows]. now destruct (factor_row _ _ _ _). Qed.

Lemma rows_diag : forall k c, (c < k)%nat -> rows get k T0 c c = pivot get T0 c.
Proof.
  induction k as [|k IH]; intros c Hc; [lia|].
  destruct (factor_row_frame _ _ _ _ _ _ (rows_S k)) as [D F].
  assert (c < k \/ c = k)%nat as [Lt | ->] by lia.
  - rewrite F by lia. apply IH. lia.
  - exact D.
Qed.

Lemma rows_inv : forall k, ldl_inv get 0 k (rows get k T0).
Proof.
  induction k as [|k IH].
  - intros r c _ _ Hr. lia.
  - apply (factor_row_inv _ _ _ _ _ _ (rows_S k)); [lia|exact IH].
Qed.

Lemma factor_loop_spec :
  forall cnt i m,
    fst (p m) = O -> T m = rows get i T0 ->
    let m' := factor_loop get cnt i m in
    n_ m' = n_ m /\ witness_vec m' = witness_vec m
    /\ ((p m' = p m /\ T m' = rows get (i + cnt) T0
         /\ forall r, (i <= r < i + cnt)%nat -> 0 < pivot get T0 r)
        \/ exists r, (i <= r < i + cnt)%nat
             /\ p m' = (O, S r) /\ T m' = rows get (S r) T0
             /\ pivot get T0 r <= 0
             /\ forall r', (i <= r' < r)%nat -> 0 < pivot get T0 r').
Proof.
  induction cnt as [|c IH]; intros i m Hp HT; cbn [factor_loop].
  - repeat split; trivial. left. rewrite Nat.add_0_r.
    repeat split; trivial. intros r Hr. lia.
  - rewrite Hp, HT, rows_S.
    destruct (Qcleb (pivot get T0 i) 0) eqn:B.
    + apply Qcleb_true in B. cbv zeta. repeat split; trivial.
      right. exists i. repeat split; try lia; trivial.
      unfold set_stop, set_T, set_p. cbn [p fst]. rewrite Hp.
      f_equal. lia.
    + apply Qcleb_false in B.
      destruct (IH (S i) (set_T m (rows get (S i) T0)) Hp eq_refl)
        as (N & W & [(P1 & P2 & P3) | (r & Hr & P1 & P2 & P3 & P4)]);
        cbv zeta; repeat split; trivial.
      * left. replace (i + S c)%nat with (S i + c)%nat by lia.
        repeat split; trivial. intros r Hr.
        assert (r = i \/ S i <= r)%nat as [-> | L] by lia; trivial.
        apply P3. lia.
      * right. exists r. repeat split; try lia; trivial.
        intros r' Hr'.
        assert (r' = i \/ S i <= r')%nat as [-> | L] by lia; trivial.
        apply P4. lia.
Qed.

(** *** The rows of [factor_with_allow_semidefinte] *)

Lemma sd_rows_S k :
  factor_row get (fst (sd_rows get k T0)) k (snd (sd_rows get k T0))
  = (snd (sd_rows get (S k) T0), sd_pivot get T0 k)
  /\ fst (sd_rows get (S k) T0)
     = if Qceqb (sd_pivot get T0 k) 0 then (k + 1)%nat
       else fst (sd_rows get k T0).
Proof.
  unfold sd_pivot. cbn [sd_rows].
  destruct (sd_rows get k T0) as [s T1]. cbn [fst snd].
  now destruct (factor_row _ _ _ _).
Qed.

Lemma sd_rows_start : forall k, (fst (sd_rows get k T0) <= k)%nat.
Proof.
  induction k as [|k IH]; [trivial|].
  destruct (sd_rows_S k) as [_ ->].
  destruct (Qceqb _ _); lia.
Qed.

Lemma sd_rows_diag :
  forall k c, (c < k)%nat -> snd (sd_rows get k T0) c c = sd_pivot get T0 c.
Proof.
  induction k as [|k IH]; intros c Hc; [lia|].
  destruct (sd_rows_S k) as [R _].
  destruct (factor_row_frame _ _ _ _ _ _ R) as [D F].
  assert (c < k \/ c = k)%nat as [Lt | ->] by lia.
  - rewrite F by lia. apply IH. lia.
  - exact D.
Qed.

Lemma sd_rows_inv :
  forall k, ldl_inv get (fst (sd_rows get k T0)) k (snd (sd_rows get k T0)).
Proof.
  induction k as [|k IH].
  - intros r c _ _ Hr. lia.
  - destruct (sd_rows_S k) as [R ->].
    destruct (Qceqb _ _).
    + intros r c Hc Hcr Hr. lia.
    + apply (factor_row_inv _ _ _ _ _ _ R); [apply sd_rows_start|exact IH].
Qed.

Lemma sd_rows_nonzero :
  forall k c, (fst (sd_rows get k T0) <= c < k)%nat -> sd_pivot get T0 c <> 0.
Proof.
  induction k as [|k IH]; intros c Hc; [lia|].
  destruct (sd_rows_S k) as [_ E]. rewrite E in Hc.
  destruct (Qceqb (sd_pivot get T0 k) 0) eqn:B; [lia|].
  assert (c < k \/ c = k)%nat as [Lt | ->] by lia.
  - apply IH. lia.
  - now apply Qceqb_false.
Qed.

Lemma factor_sd_loop_spec :
  forall cnt i m,
    fst (p m) = fst (sd_rows get i T0) -> T m = snd (sd_rows get i T0) ->
    let m' := factor_sd_loop get cnt i m in
    n_ m' = n_ m /\ witness_vec m' = witness_vec m
    /\ ((p m' = (fst (sd_rows get (i + cnt) T0), snd (p m))
         /\ T m' = snd (sd_rows get (i + cnt) T0)
         /\ forall r, (i <= r < i + cnt)%nat -> 0 <= sd_pivot get T0 r)
        \/ exists r, (i <= r < i + cnt)%nat
             /\ p m' = (fst (sd_rows get r T0), S r)
             /\ T m' = snd (sd_rows get (S r) T0)
             /\ sd_pivot get T0 r < 0
             /\ forall r', (i <= r' < r)%nat -> 0 <= sd_pivot get T0 r').
Proof.
  induction cnt as [|c IH]; intros i m Hp HT; cbn [factor_sd_loop].
  - repeat split; trivial. left. rewrite Nat.add_0_r.
    repeat split; trivial.
    + rewrite <- Hp. now destruct (p m).
    + intros r Hr. lia.
  - destruct (sd_rows_S i) as [R E]. rewrite Hp, HT, R.
    destruct (Qcltb (sd_pivot get T0 i) 0) eqn:B.
    + apply Qcltb_true in B. cbv zeta. repeat split; trivial.
      right. exists i. repeat split; try lia; trivial.
      unfold set_stop, set_T, set_p. cbn [p fst]. rewrite Hp.
      f_equal. lia.
    + apply Qcltb_false in B.
      set (m2 := if Qceqb (sd_pivot get T0 i) 0
                 then set_start (set_T m (snd (sd_rows get (S i) T0))) (i + 1)
                 else set_T m (snd (sd_rows get (S i) T0))).
      assert (fst (p m2) = fst (sd_rows get (S i) T0)
              /\ T m2 = snd (sd_rows get (S i) T0)
              /\ n_ m2 = n_ m /\ witness_vec m2 = witness_vec m
              /\ snd (p m2) = snd (p m)) as (Q1 & Q2 & Q3 & Q4 & Q5).
      { subst m2. rewrite E. destruct (Qceqb _ _); repeat split; trivial. }
      destruct (IH (S i) m2 Q1 Q2)
        as (N & W & [(P1 & P2 & P3) | (r & Hr & P1 & P2 & P3 & P4)]);
        cbv zeta; repeat split; try congruence.
      * left. replace (i + S c)%nat with (S i + c)%nat by lia.
        repeat split; try congruence. intros r Hr.
        assert (r = i \/ S i <= r)%nat as [-> | L] by lia; trivial.
        apply P3. lia.
      * right. exists r. repeat split; try lia; trivial.
        intros r' Hr'.
        assert (r' = i \/ S i <= r')%nat as [-> | L] by lia; trivial.
        apply P4. lia.
Qed.

End Rows.

(** *** The two factorisations as a whole *)

Lemma quad_form_restrict (A : Mat) (v : Vec) (lo hi n : nat) :
  (lo <= hi)%nat -> (hi <= n)%nat ->
  (forall i, (i < lo \/ hi <= i)%nat -> v i = 0) ->
  quad_form A v 0 n = quad_form A v lo hi.
Proof.
  intros L1 L2 Z. unfold quad_form.
  rewrite (sumr_restrict _ 0 lo hi n); try lia.
  - apply sumr_ext. intros i Hi. apply (sumr_restrict _ 0 lo hi n); try lia.
    intros k Hk. rewrite (Z k) by lia. ring.
  - intros k Hk. apply sumr_zero. intros j _. rewrite (Z k) by lia. ring.
Qed.

Lemma factor_row_restart get i T :
  factor_row get i i T = (mset T i i (get i i), get i i).
Proof. unfold factor_row. now rewrite Nat.sub_diag. Qed.

Lemma factor_cases get m :
  let m' := fst (factor get m) in
  n_ m' = n_ m /\ witness_vec m' = witness_vec m
  /\ ((p m' = (O, O) /\ T m' = rows get (n_ m) (T m)
       /\ forall r, (r < n_ m)%nat -> 0 < pivot get (T m) r)
      \/ exists r, (r < n_ m)%nat
           /\ p m' = (O, S r) /\ T m' = rows get (S r) (T m)
           /\ pivot get (T m) r <= 0
           /\ forall r', (r' < r)%nat -> 0 < pivot get (T m) r').
Proof.
  destruct (factor_loop_spec get (T m) (n_ m) 0 (set_p m (0, 0)%nat)
              eq_refl eq_refl) as (N & W & C).
  cbn [factor fst]. cbn [n_ set_p] in *. repeat split; trivial.
  destruct C as [(P1 & P2 & P3) | (r & Hr & P1 & P2 & P3 & P4)].
  - left. repeat split; trivial. intros r Hr. apply P3. lia.
  - right. exists r. repeat split; trivial; try lia.
    intros r' Hr'. apply P4. lia.
Qed.

Lemma factor_sd_cases get m :
  let m' := fst (factor_with_allow_semidefinte get m) in
  n_ m' = n_ m /\ witness_vec m' = witness_vec m
  /\ ((p m' = (fst (sd_rows get (n_ m) (T m)), O)
       /\ T m' = snd (sd_rows get (n_ m) (T m))
       /\ forall r, (r < n_ m)%nat -> 0 <= sd_pivot get (T m) r)
      \/ exists r, (r < n_ m)%nat
           /\ p m' = (fst (sd_rows get r (T m)), S r)
           /\ T m' = snd (sd_rows get (S r) (T m))
           /\ sd_pivot get (T m) r < 0
           /\ forall r', (r' < r)%nat -> 0 <= sd_pivot get (T m) r').
Proof.
  destruct (factor_sd_loop_spec get (T m) (n_ m) 0 (set_p m (0, 0)%nat)
              eq_refl eq_refl) as (N & W & C).
  cbn [factor_with_allow_semidefinte fst]. cbn [n_ set_p] in *.
  repeat split; trivial.
  destruct C as [(P1 & P2 & P3) | (r & Hr & P1 & P2 & P3 & P4)].
  - left. repeat split; trivial. intros r Hr. apply P3. lia.
  - right. exists r. repeat split; trivial; try lia.
    intros r' Hr'. apply P4. lia.
Qed.

Lemma factor_failed get m :
  snd (factor get m) = false -> failed get (fst (factor get m)).
Proof.
  intros B. destruct (factor_cases get m) as (N & W & C).
  unfold factor in B. cbn [snd] in B. unfold is_spd in B.
  cbn [factor fst] in *.
  destruct C as [(P1 & _) | (r & Hr & P1 & P2 & P3 & P4)].
  - rewrite P1 in B. discriminate.
  - exists r. rewrite P1, P2, N. cbn [fst snd].
    split; [trivial|]. split; [lia|]. split; [lia|]. split; [|split].
    + apply rows_inv.
    + intros c Hc. rewrite rows_diag by lia. apply P4. lia.
    + rewrite rows_diag by lia. trivial.
Qed.

Lemma factor_sd_failed get m :
  snd (factor_with_allow_semidefinte get m) = false ->
  let m' := fst (factor_with_allow_semidefinte get m) in
  failed get m' /\ T m' (snd (p m') - 1)%nat (snd (p m') - 1)%nat < 0.
Proof.
  intros B. destruct (factor_sd_cases get m) as (N & W & C).
  unfold factor_with_allow_semidefinte in B. cbn [snd] in B.
  unfold is_spd in B. cbn [factor_with_allow_semidefinte fst] in *.
  destruct C as [(P1 & _) | (r & Hr & P1 & P2 & P3 & P4)].
  - rewrite P1 in B. discriminate.
  - cbv zeta. rewrite P1, P2. cbn [fst snd].
    replace (S r - 1)%nat with r by lia.
    assert (fst (sd_rows get (S r) (T m)) = fst (sd_rows get r (T m))) as E.
    { destruct (sd_rows_S get (T m) r) as [_ ->].
      destruct (Qceqb (sd_pivot get (T m) r) 0) eqn:Q; trivial.
      apply Qceqb_true in Q. rewrite Q in P3.
      exfalso. exact (Qclt_not_eq _ _ P3 eq_refl). }
    split.
    + exists r. rewrite P1, P2, N. cbn [fst snd].
      split; [trivial|]. split; [apply sd_rows_start|]. split; [lia|].
      split; [|split].
      * rewrite <- E. apply sd_rows_inv.
      * intros c Hc. rewrite sd_rows_diag by lia.
        destruct (Qcle_lt_or_eq _ _ (P4 c ltac:(lia))) as [L | Z]; trivial.
        exfalso. apply (sd_rows_nonzero get (T m) r c); [lia|]. now symmetry.
      * rewrite sd_rows_diag by lia. apply Qclt_le_weak. trivial.
    + rewrite sd_rows_diag by lia. trivial.
Qed.

End LDLTFacts.

Module LDLTProofs.
Import Scalar ScalarFacts LDLT LDLTFacts LDLTExamples.
Local Open Scope Qc_scope.

(** C4, as amended.  After a factorisation that returned false with the
    recorded range [(start, stop)], [witness()] succeeds, leaves [p] and [T]
    alone and builds [v] with [v[stop-1] = 1] and
    [v[i] = - sum_{i<k<stop} T(k,i) v[k]] for [start <= i < stop-1]; the
    entries outside [start, stop) keep what the vector held before.  It
    returns [ep = - T(stop-1, stop-1)], which is non-negative, and
    [v' A v = - ep <= 0] over the range [start, stop), hence over all of
    [0, n) when the vector was zero outside the range.  The two inequalities
    are strict when the last pivot is negative, which is always the case
    after [factor_with_allow_semidefinte]; after [factor] the pivot, [ep]
    and [v' A v] may all be zero. *)
Theorem witness_spec (get : nat -> nat -> Qc) (m0 m : LDLTMgr) :
  factor get m0 = (m, false)
  \/ factor_with_allow_semidefinte get m0 = (m, false) ->
  exists m' ep,
    witness m = Some (m', ep)
    /\ let start := fst (p m) in
       let stop := snd (p m) in
       let v := witness_vec m' in
       (start < stop <= n_ m)%nat
       /\ n_ m' = n_ m /\ p m' = p m /\ T m' = T m
       /\ v (stop - 1)%nat = 1
       /\ (exists i, (start <= i < stop)%nat /\ v i <> 0)
       /\ (forall i, (start <= i < stop - 1)%nat ->
             v i = - sumr (S i) stop (fun k => T m k i * v k))
       /\ (forall i, (i < start \/ stop <= i)%nat -> v i = witness_vec m i)
       /\ ep = - T m (stop - 1)%nat (stop - 1)%nat
       /\ 0 <= ep
       /\ quad_form (sym get) v start stop = - ep
       /\ quad_form (sym get) v start stop <= 0
       /\ ((forall i, (i < start \/ stop <= i)%nat -> witness_vec m i = 0) ->
           quad_form (sym get) v 0 (n_ m) = - ep)
       /\ (T m (stop - 1)%nat (stop - 1)%nat < 0 ->
           0 < ep /\ quad_form (sym get) v start stop < 0)
       /\ (factor_with_allow_semidefinte get m0 = (m, false) -> 0 < ep).
Proof.
  intros H.
  assert (failed get m
          /\ (factor_with_allow_semidefinte get m0 = (m, false) ->
              T m (snd (p m) - 1)%nat (snd (p m) - 1)%nat < 0)) as [Fl Sd].
  { destruct H as [H | H].
    - split.
      + replace m with (fst (factor get m0)) by now rewrite H.
        apply factor_failed. now rewrite H.
      + intros H'.
        assert (B := factor_sd_failed get m0). rewrite H' in B.
        apply B. trivial.
    - assert (B := factor_sd_failed get m0). rewrite H in B.
      destruct (B eq_refl) as [B1 B2]. split; trivial. }
  destruct (witness_of_failed get m Fl)
    as (m' & ep & W & N & P & TT & V1 & V2 & V3 & Ep & Q).
  destruct Fl as (i & Hs & Hst & Hn & I & Pos & Neg).
  exists m', ep. split; [exact W|]. cbv zeta.
  assert (T m (snd (p m) - 1)%nat (snd (p m) - 1)%nat <= 0) as Neg'.
  { rewrite Hs. replace (S i - 1)%nat with i by lia. exact Neg. }
  split; [lia|]. do 3 (split; [trivial|]).
  split; [exact V1|].
  split; [exists (snd (p m) - 1)%nat; split; [lia|rewrite V1; discriminate]|].
  split; [exact V2|]. split; [exact V3|].
  split; [exact Ep|].
  split; [rewrite Ep; now apply Qcopp_nonneg|].
  split; [exact Q|].
  split; [rewrite Q, Ep, Qcopp_involutive; exact Neg'|].
  split; [|split].
  - intros Z. rewrite <- Q. apply quad_form_restrict; try lia.
    intros k Hk. rewrite V3 by lia. apply Z. lia.
  - intros L. split.
    + rewrite Ep. now apply Qcopp_pos.
    + rewrite Q, Ep, Qcopp_involutive. exact L.
  - intros H'. rewrite Ep. apply Qcopp_pos. apply Sd. exact H'.
Qed.

(** The statement of C4 on the indefinite matrix [[1 2] [2 1]]. *)
Lemma witness_spec_witness :
  exists m' ep,
    witness (fst (factor getA (mgr0 2))) = Some (m', ep) /\ 0 <= ep.
Proof.
  destruct (witness_spec getA (mgr0 2) (fst (factor getA (mgr0 2))))
    as (m' & ep & W & _ & _ & _ & _ & _ & _ & _ & _ & _ & E & _).
  - left. vm_compute. reflexivity.
  - exists m', ep. split; [exact W|exact E].
Defined.

(** C4, as stated, fails in two places.  On the 1 x 1 zero matrix [factor]
    returns false with [p = (0, 1)], and [witness()] returns [0], which is
    not strictly positive, with [v' A v = 0], which is not strictly
    negative.  And on a manager used before, [witness()] after
    [factor_with_allow_semidefinte] on [diag(0, -1)], where [p = (1, 2)],
    leaves [v[0] = -2] below [start]. *)
Lemma witness_not_as_stated :
  (exists m m' ep,
      factor get0 (mgr0 1) = (m, false)
      /\ p m = (0, 1)%nat
      /\ witness m = Some (m', ep)
      /\ ep = 0 /\ ~ 0 < ep
      /\ quad_form (sym get0) (witness_vec m') 0 1 = 0
      /\ ~ quad_form (sym get0) (witness_vec m') 0 1 < 0)
  /\ (exists m m' ep,
        factor_with_allow_semidefinte getD used_mgr = (m, false)
        /\ p m = (1, 2)%nat
        /\ witness m = Some (m', ep)
        /\ witness_vec m' 0%nat = - qc 2 1
        /\ witness_vec m' 0%nat <> 0).
Proof.
  split.
  - assert (forall x : Qc, x = 0 -> ~ 0 < x) as NZ.
    { intros x -> L. exact (Qclt_not_eq _ _ L eq_refl). }
    exists (fst (factor get0 (mgr0 1))).
    exists (set_witness_vec (fst (factor get0 (mgr0 1))) (vset zerov 0 1)).
    exists (- T (fst (factor get0 (mgr0 1))) 0%nat 0%nat).
    assert (- T (fst (factor get0 (mgr0 1))) 0%nat 0%nat = 0) as E1.
    { apply Qc_is_canon. vm_compute. reflexivity. }
    assert (quad_form (sym get0) (vset zerov 0 1) 0 1 = 0) as E2.
    { apply Qc_is_canon. vm_compute. reflexivity. }
    split; [vm_compute; reflexivity|]. split; [reflexivity|].
    split; [reflexivity|]. cbn [witness_vec set_witness_vec].
    split; [exact E1|]. split; [exact (NZ _ E1)|].
    split; [exact E2|exact (NZ _ E2)].
  - destruct (witness (fst (factor_with_allow_semidefinte getD used_mgr)))
      as [[m' ep]|] eqn:W; [|vm_compute in W; discriminate W].
    exists (fst (factor_with_allow_semidefinte getD used_mgr)), m', ep.
    assert (witness_vec m' 0%nat = - qc 2 1) as V.
    { replace m' with
        (fst (match witness (fst (factor_with_allow_semidefinte getD
                                    used_mgr)) with
              | Some r => r
              | None => (used_mgr, 0)
              end)) by now rewrite W.
      apply Qc_is_canon. vm_compute. reflexivity. }
    split; [vm_compute; reflexivity|]. split; [vm_compute; reflexivity|].
    split; [exact W|]. split; [exact V|].
    rewrite V. intros Z. apply (f_equal this) in Z. vm_compute in Z.
    discriminate Z.
Qed.

(** C5.  [factor(get)] returns false exactly when some row's pivot [d] is
    [<= 0].  At the first such row [i] it records [p = (0, i+1)] and stops:
    the workspace is the one after rows [0 .. i], the pivots before [i] are
    positive and [T(i,i) <= 0].  When it returns true, [p = (0, 0)], all [n]
    rows were processed, every pivot is positive and the accessor's
    symmetric matrix is [L D L'] with the factors stored in [T]. *)
Theorem factor_spec (get : nat -> nat -> Qc) (m : LDLTMgr) :
  let m' := fst (factor get m) in
  let n := n_ m in
  (snd (factor get m) = false <->
   exists i, (i < n)%nat /\ pivot get (T m) i <= 0)
  /\ (snd (factor get m) = false ->
      exists i, (i < n)%nat
        /\ p m' = (0, i + 1)%nat
        /\ T m' = rows get (i + 1) (T m)
        /\ T m' i i = pivot get (T m) i
        /\ T m' i i <= 0
        /\ forall j, (j < i)%nat ->
             T m' j j = pivot get (T m) j /\ 0 < T m' j j)
  /\ (snd (factor get m) = true ->
      p m' = (0, 0)%nat
      /\ T m' = rows get n (T m)
      /\ (forall i, (i < n)%nat -> T m' i i = pivot get (T m) i /\ 0 < T m' i i)
      /\ forall r c, (r < n)%nat -> (c < n)%nat ->
           sym get r c = LDLt (T m') 0 n r c).
Proof.
  cbv zeta. destruct (factor_cases get m) as (N & W & C).
  assert (snd (factor get m) = is_spd (fst (factor get m))) as R by reflexivity.
  unfold is_spd in R.
  destruct C as [(P1 & P2 & P3) | (r & Hr & P1 & P2 & P3 & P4)].
  - rewrite P1 in R. cbn [snd Nat.eqb] in R. rewrite R.
    split; [|split]; try discriminate.
    + split; [discriminate|]. intros (i & Hi & L).
      exfalso. exact (Qclt_not_le _ _ (P3 i Hi) L).
    + intros _. split; [exact P1|]. split; [exact P2|]. split.
      * intros i Hi. rewrite P2, rows_diag by lia. split; [trivial|].
        apply P3. lia.
      * intros r c Hr Hc. rewrite P2.
        replace (n_ m) with (S (n_ m - 1)) by lia.
        apply sym_LDLt; try lia.
        -- replace (S (n_ m - 1)) with (n_ m) by lia. apply rows_inv.
        -- intros k Hk. rewrite rows_diag by lia.
           apply not_eq_sym, Qclt_not_eq, P3. lia.
  - rewrite P1 in R. cbn [snd Nat.eqb] in R. rewrite R.
    split; [|split]; try discriminate.
    + split; [|trivial]. intros _. exists r. split; trivial.
    + intros _. exists r. replace (r + 1)%nat with (S r) by lia.
      split; [exact Hr|]. split; [exact P1|]. split; [exact P2|].
      rewrite P2. split; [apply rows_diag; lia|].
      split; [rewrite rows_diag by lia; exact P3|].
      intros j Hj. rewrite rows_diag by lia. split; [trivial|].
      apply P4. lia.
Qed.

(** C6.  [factor_with_allow_semidefinte(get)] returns false exactly when
    some row's pivot is strictly negative; at the first such row [i] it
    records [stop = i+1] and stops, all earlier pivots being [>= 0].  When it
    returns true every pivot is [>= 0].  A zero pivot in row [i] moves
    [start] to [i+1] and the loop continues with row [i+1], which then reads
    nothing but its own diagonal entry; a positive pivot leaves [start]
    alone. *)
Theorem factor_with_allow_semidefinte_spec (get : nat -> nat -> Qc)
        (m : LDLTMgr) :
  let m' := fst (factor_with_allow_semidefinte get m) in
  let b := snd (factor_with_allow_semidefinte get m) in
  let n := n_ m in
  let T0 := T m in
  (b = false <-> exists i, (i < n)%nat /\ sd_pivot get T0 i < 0)
  /\ (b = false ->
      exists i, (i < n)%nat
        /\ p m' = (fst (sd_rows get i T0), i + 1)%nat
        /\ T m' = snd (sd_rows get (i + 1) T0)
        /\ T m' i i = sd_pivot get T0 i
        /\ T m' i i < 0
        /\ forall j, (j < i)%nat -> 0 <= sd_pivot get T0 j)
  /\ (b = true ->
      p m' = (fst (sd_rows get n T0), 0)%nat
      /\ T m' = snd (sd_rows get n T0)
      /\ forall i, (i < n)%nat -> T m' i i = sd_pivot get T0 i /\ 0 <= T m' i i)
  /\ (forall i,
        fst (sd_rows get (S i) T0)
        = if Qceqb (sd_pivot get T0 i) 0 then (i + 1)%nat
          else fst (sd_rows get i T0))
  /\ (forall cnt i mgr T' d,
        factor_row get (fst (p mgr)) i (T mgr) = (T', d) ->
        (d < 0 ->
         factor_sd_loop get (S cnt) i mgr = set_stop (set_T mgr T') (i + 1))
        /\ (d = 0 ->
            factor_sd_loop get (S cnt) i mgr
            = factor_sd_loop get cnt (S i)
                (set_start (set_T mgr T') (i + 1)))
        /\ (0 < d ->
            factor_sd_loop get (S cnt) i mgr
            = factor_sd_loop get cnt (S i) (set_T mgr T')))
  /\ (forall i T1,
        factor_row get (S i) (S i) T1
        = (mset T1 (S i) (S i) (get (S i) (S i)), get (S i) (S i))).
Proof.
  cbv zeta. destruct (factor_sd_cases get m) as (N & W & C).
  assert (snd (factor_with_allow_semidefinte get m)
          = is_spd (fst (factor_with_allow_semidefinte get m))) as R
      by reflexivity.
  unfold is_spd in R.
  split; [|split; [|split; [|split; [|split]]]].
  - destruct C as [(P1 & P2 & P3) | (r & Hr & P1 & P2 & P3 & P4)];
      rewrite P1 in R; cbn [snd Nat.eqb] in R; rewrite R.
    + split; [discriminate|]. intros (i & Hi & L).
      exfalso. exact (Qclt_not_le _ _ L (P3 i Hi)).
    + split; [|trivial]. intros _. exists r. split; trivial.
  - destruct C as [(P1 & P2 & P3) | (r & Hr & P1 & P2 & P3 & P4)];
      rewrite P1 in R; cbn [snd Nat.eqb] in R; rewrite R; [discriminate|].
    intros _. exists r. replace (r + 1)%nat with (S r) by lia.
    split; [exact Hr|]. split; [exact P1|]. split; [exact P2|].
    rewrite P2. split; [apply sd_rows_diag; lia|].
    split; [rewrite sd_rows_diag by lia; exact P3|exact P4].
  - destruct C as [(P1 & P2 & P3) | (r & Hr & P1 & P2 & P3 & P4)];
      rewrite P1 in R; cbn [snd Nat.eqb] in R; rewrite R; [|discriminate].
    intros _. split; [exact P1|]. split; [exact P2|].
    intros i Hi. rewrite P2, sd_rows_diag by lia. split; [trivial|].
    apply P3. lia.
  - intros i. apply sd_rows_S.
  - intros cnt i mgr T' d Rw. cbn [factor_sd_loop]. rewrite Rw.
    split; [|split]; intros L.
    + apply Qcltb_true in L. now rewrite L.
    + subst d. replace (Qcltb 0 0) with false by reflexivity.
      replace (Qceqb 0 0) with true by reflexivity. reflexivity.
    + assert (Qcltb d 0 = false) as ->.
      { apply Qcltb_false. now apply Qclt_le_weak. }
      assert (Qceqb d 0 = false) as ->.
      { apply Qceqb_false. apply not_eq_sym, Qclt_not_eq. exact L. }
      reflexivity.
  - intros i T1. apply factor_row_restart.
Qed.

(** The statement of C5 on [[1 2] [2 1]]: the second pivot is [-3]. *)
Lemma factor_spec_witness :
  exists i, (i < 2)%nat /\ p (fst (factor getA (mgr0 2))) = (0, i + 1)%nat.
Proof.
  destruct (proj1 (proj2 (factor_spec getA (mgr0 2)))
              ltac:(vm_compute; reflexivity)) as (i & Hi & P & _).
  exists i. split; [exact Hi|exact P].
Defined.

(** The statement of C6 on [diag(0, -1)]: the zero pivot moves [start] to
    [1], the negative one stops the loop with [stop = 2]. *)
Lemma factor_with_allow_semidefinte_spec_witness :
  p (fst (factor_with_allow_semidefinte getD (mgr0 2))) = (1, 2)%nat.
Proof.
  destruct (proj1 (proj2 (factor_with_allow_semidefinte_spec getD (mgr0 2)))
              ltac:(vm_compute; reflexivity)) as (i & Hi & P & _).
  rewrite P. destruct i as [|[|i]]; [discriminate P|reflexivity|].
  cbn in Hi. lia.
Defined.

End LDLTProofs.

(** ** The drivers *)

Module CuttingPlaneFacts.
Import Config CuttingPlane CuttingPlaneSpec.

Section Facts.
Context {Oracle Space Arr Cut Num Tea : Type}.
Context {NL : NumLt Num} {DA : DefaultArr Arr}
        {SS : SearchSpace Space Arr Cut Num}.

Section Feas.
Context {OF : OracleFeas Oracle Arr Cut}.
Variable options : Options Num.

Lemma feas_loop_unfold (fuel niter : nat) (st : Oracle * Space) :
  feas_loop options (S fuel) niter (fst st) (snd st)
  = if feas_found st then (feas_next st, cinfo true niter)
    else if feas_gives_up options st then (feas_next st, cinfo false niter)
    else feas_loop options fuel (S niter)
           (fst (feas_next st)) (snd (feas_next st)).
Proof.
  unfold feas_found, feas_gives_up, feas_next, feas_iter. cbn [feas_loop].
  destruct (assess_feas (fst st) (xc (snd st))) as [omega1 [c|]]; trivial.
  destruct (update (snd st) c) as [space1 cutstatus]. cbn [fst snd].
  destruct (no_more options cutstatus space1); trivial.
Qed.

Lemma feas_loop_skip (st : Oracle * Space) :
  forall k fuel niter,
    (k <= fuel)%nat ->
    (forall j, (j < k)%nat ->
       feas_found (feas_run j st) = false
       /\ feas_gives_up options (feas_run j st) = false) ->
    feas_loop options fuel niter (fst st) (snd st)
    = feas_loop options (fuel - k) (niter + k)
        (fst (feas_run k st)) (snd (feas_run k st)).
Proof.
  induction k as [|k IH]; intros fuel niter L Q.
  - now rewrite Nat.sub_0_r, Nat.add_0_r.
  - rewrite IH by (try lia; intros j Hj; apply Q; lia).
    replace (fuel - k)%nat with (S (fuel - S k)) by lia.
    rewrite feas_loop_unfold. destruct (Q k) as [-> ->]; [lia|].
    cbn [feas_run]. f_equal. lia.
Qed.

End Feas.

Section Optim.
Context {OO : OracleOptim Oracle Arr Cut Tea}.
Variable options : Options Num.

Lemma optim_loop_unfold (fuel niter : nat)
      (st : LoopState Oracle Space Arr Tea) :
  optim_loop options (S fuel) niter
    (ls_omega st) (ls_space st) (ls_tea st) (ls_x_best st)
  = if optim_stops options st then finish (optim_next st) niter
    else optim_loop options fuel (S niter)
           (ls_omega (optim_next st)) (ls_space (optim_next st))
           (ls_tea (optim_next st)) (ls_x_best (optim_next st)).
Proof.
  unfold optim_stops, optim_next, optim_iter. cbn [optim_loop].
  destruct (assess_optim _ _ _) as [[omega1 tea1] [cut shrunk]].
  destruct shrunk; destruct (update (ls_space st) cut) as [space1 cutstatus];
    cbn [fst snd ls_space]; destruct (no_more options cutstatus space1);
    trivial.
Qed.

Lemma optim_loop_skip (st : LoopState Oracle Space Arr Tea) :
  forall k fuel niter,
    (k <= fuel)%nat ->
    (forall j, (j < k)%nat -> optim_stops options (optim_run j st) = false) ->
    optim_loop options fuel niter
      (ls_omega st) (ls_space st) (ls_tea st) (ls_x_best st)
    = let st' := optim_run k st in
      optim_loop options (fuel - k) (niter + k)
        (ls_omega st') (ls_space st') (ls_tea st') (ls_x_best st').
Proof.
  induction k as [|k IH]; intros fuel niter L Q; cbv zeta.
  - now rewrite Nat.sub_0_r, Nat.add_0_r.
  - rewrite IH by (try lia; intros j Hj; apply Q; lia). cbv zeta.
    replace (fuel - k)%nat with (S (fuel - S k)) by lia.
    rewrite optim_loop_unfold, Q by lia.
    cbn [optim_run]. f_equal. lia.
Qed.

End Optim.

Section Q.
Context {OQ : OracleQ Oracle Arr Cut Tea}.
Variable options : Options Num.

Lemma q_loop_unfold (fuel niter : nat) (st : QState Oracle Space Arr Tea)
      (status : CutStatus) :
  let ls := qs_loop st in
  let ls' := qs_loop (q_next st) in
  q_loop options (S fuel) niter
    (ls_omega ls) (ls_space ls) (ls_tea ls) (ls_x_best ls)
    status (qs_retry st)
  = match q_exit options st with
    | GoOn =>
        q_loop options fuel (S niter)
          (ls_omega ls') (ls_space ls') (ls_tea ls') (ls_x_best ls')
          (if CutStatus_eqb (seen_status (q_seen st)) NoEffect
           then seen_status (q_seen st) else status)
          (qs_retry (q_next st))
    | e => finish ls' (q_count options e niter)
    end.
Proof.
  unfold q_exit, q_seen, q_next, q_iter. cbn [q_loop].
  destruct (assess_q _ _ _ _) as [[omega1 tea1] [[[cut shrunk] x0] more_alt]].
  destruct (update (ls_space (qs_loop st)) cut) as [space1 cutstatus].
  cbn [fst snd qs_loop ls_space seen_status seen_more_alt qs_retry].
  destruct cutstatus; cbn [CutStatus_eqb andb negb];
    try destruct more_alt; cbn [negb];
    try destruct (num_ltb (tsq space1) (tol options)); trivial.
Qed.

Lemma q_loop_skip (st : QState Oracle Space Arr Tea) :
  forall k fuel niter status,
    (k <= fuel)%nat ->
    (forall j, (j < k)%nat -> q_exit options (q_run j st) = GoOn) ->
    exists status',
      let ls := qs_loop st in
      let st' := q_run k st in
      let ls' := qs_loop st' in
      q_loop options fuel niter
        (ls_omega ls) (ls_space ls) (ls_tea ls) (ls_x_best ls)
        status (qs_retry st)
      = q_loop options (fuel - k) (niter + k)
          (ls_omega ls') (ls_space ls') (ls_tea ls') (ls_x_best ls')
          status' (qs_retry st').
Proof.
  induction k as [|k IH]; intros fuel niter status L Q; cbv zeta.
  - exists status. now rewrite Nat.sub_0_r, Nat.add_0_r.
  - destruct (IH fuel niter status) as [s1 E];
      [lia | intros j Hj; apply Q; lia |]. cbv zeta in E. rewrite E.
    replace (fuel - k)%nat with (S (fuel - S k)) by lia.
    assert (U := q_loop_unfold (fuel - S k) (niter + k) (q_run k st) s1).
    cbv zeta in U. rewrite U, Q by lia.
    eexists. cbn [q_run]. f_equal. lia.
Qed.

End Q.

End Facts.

Section QRun.
Context {Oracle Space Arr Cut Num Tea : Type}.
Context {NL : NumLt Num} {DA : DefaultArr Arr}
        {SS : SearchSpace Space Arr Cut Num}.
Context {OQ : OracleQ Oracle Arr Cut Tea}.
Variables (omega : Oracle) (space : Space) (tea : Tea).
Variable options : Options Num.

Lemma q_result (k : nat) :
  (k < max_iter options)%nat ->
  (forall j, (j < k)%nat ->
     q_exit options (q_run j (q_start omega space tea)) = GoOn) ->
  q_exit options (q_run k (q_start omega space tea)) <> GoOn ->
  cutting_plane_q omega space tea options
  = finish (qs_loop (q_run (S k) (q_start omega space tea)))
      (q_count options (q_exit options (q_run k (q_start omega space tea)))
         k).
Proof.
  intros Hk Q E. unfold cutting_plane_q. cbn [CutStatus_eqb]. cbv zeta.
  destruct (q_loop_skip options (q_start omega space tea)
              k (max_iter options) 0 NoSoln ltac:(lia) Q) as [s1 Sk].
  cbn [q_start qs_loop qs_retry ls_omega ls_space ls_tea ls_x_best] in Sk.
  cbv zeta in Sk. rewrite Sk.
  replace (max_iter options - k)%nat with (S (max_iter options - S k)) by lia.
  assert (U := q_loop_unfold options (max_iter options - S k) (0 + k)
                 (q_run k (q_start omega space tea)) s1).
  cbv zeta in U. rewrite U. cbn [Nat.add].
  destruct (q_exit options (q_run k (q_start omega space tea))); trivial.
  contradiction.
Qed.

Lemma q_cap :
  (forall j, (j < max_iter options)%nat ->
     q_exit options (q_run j (q_start omega space tea)) = GoOn) ->
  cutting_plane_q omega space tea options
  = finish (qs_loop (q_run (max_iter options) (q_start omega space tea)))
      (max_iter options).
Proof.
  intros Q. unfold cutting_plane_q. cbn [CutStatus_eqb]. cbv zeta.
  destruct (q_loop_skip options (q_start omega space tea)
              (max_iter options) (max_iter options) 0 NoSoln (le_n _) Q)
    as [s1 Sk].
  cbn [q_start qs_loop qs_retry ls_omega ls_space ls_tea ls_x_best] in Sk.
  cbv zeta in Sk. rewrite Sk. rewrite Nat.sub_diag. reflexivity.
Qed.

End QRun.

End CuttingPlaneFacts.

Module CuttingPlaneProofs.
Import Config CuttingPlane CuttingPlaneSpec CuttingPlaneFacts Toy.

Section Theorems.
Context {Oracle Space Arr Cut Num Tea : Type}.
Context {NL : NumLt Num} {DA : DefaultArr Arr}
        {SS : SearchSpace Space Arr Cut Num}.

(** C2.  Every iteration of [cutting_plane_feas] asks [assess_feas] at the
    current centre; a null answer leaves the space alone, a cut is passed to
    [update].  The driver returns [(true, k)] at the first iteration [k]
    that gets the null answer, [(false, k)] at the first iteration whose
    update status is not [Success] or whose [tsq()] is below the tolerance,
    and [(false, max_iter)] when neither happens within [max_iter]
    iterations. *)
Theorem cutting_plane_feas_spec {OF : OracleFeas Oracle Arr Cut}
        (omega : Oracle) (space : Space) (options : Options Num) :
  let run k := feas_run k (omega, space) in
  let quiet j :=
    feas_found (run j) = false /\ feas_gives_up options (run j) = false in
  (forall st omega1,
      (assess_feas (fst st) (xc (snd st)) = (omega1, None) ->
       feas_found st = true /\ feas_next st = (omega1, snd st))
      /\ (forall c space1 cutstatus,
            assess_feas (fst st) (xc (snd st)) = (omega1, Some c) ->
            update (snd st) c = (space1, cutstatus) ->
            feas_found st = false
            /\ feas_next st = (omega1, space1)
            /\ feas_gives_up options st
               = negb (CutStatus_eqb cutstatus Success)
                 || num_ltb (tsq space1) (tol options)))
  /\ (forall k, (k < max_iter options)%nat ->
        (forall j, (j < k)%nat -> quiet j) ->
        (feas_found (run k) = true ->
         cutting_plane_feas omega space options
         = (feas_next (run k), cinfo true k))
        /\ (feas_gives_up options (run k) = true ->
            cutting_plane_feas omega space options
            = (feas_next (run k), cinfo false k)))
  /\ ((forall j, (j < max_iter options)%nat -> quiet j) ->
      cutting_plane_feas omega space options
      = (run (max_iter options), cinfo false (max_iter options))).
Proof.
  cbv zeta. split; [|split].
  - intros st omega1. unfold feas_found, feas_gives_up, feas_next, feas_iter.
    split.
    + intros ->. split; reflexivity.
    + intros c space1 cutstatus -> ->. repeat split.
  - intros k Hk Q. unfold cutting_plane_feas.
    assert (Sk := feas_loop_skip options (omega, space) k (max_iter options)
                   0 ltac:(lia) Q).
    cbn [fst snd] in Sk. rewrite Sk.
    replace (max_iter options - k)%nat with (S (max_iter options - S k))
      by lia.
    rewrite feas_loop_unfold. cbn [Nat.add].
    split; intros E.
    + now rewrite E.
    + rewrite E. unfold feas_found, feas_gives_up in *.
      destruct (snd (feas_iter _)); [reflexivity|discriminate].
  - intros Q. unfold cutting_plane_feas.
    assert (Sk := feas_loop_skip options (omega, space) (max_iter options)
                   (max_iter options) 0 (le_n _) Q).
    cbn [fst snd] in Sk. rewrite Sk.
    rewrite Nat.sub_diag. cbn [feas_loop].
    now destruct (feas_run _ _).
Qed.

(** C1.  Every iteration of [cutting_plane_optim] asks [assess_optim] at
    the current centre, records that centre as [x_best] exactly when
    [shrunk], and passes the returned cut to [update] in both cases.  The
    driver returns [(x_best, k)] at the first iteration [k] whose update
    status is not [Success] or whose [tsq()] is below the tolerance, and
    [(x_best, max_iter)] when no iteration below [max_iter] is such. *)
Theorem cutting_plane_optim_spec {OO : OracleOptim Oracle Arr Cut Tea}
        (omega : Oracle) (space : Space) (tea : Tea) (options : Options Num) :
  let run k := optim_run k (mkLoopState omega space tea arr_default) in
  (forall st omega1 tea1 cut shrunk space1 cutstatus,
      assess_optim (ls_omega st) (xc (ls_space st)) (ls_tea st)
      = (omega1, tea1, (cut, shrunk)) ->
      update (ls_space st) cut = (space1, cutstatus) ->
      optim_next st
      = mkLoopState omega1 space1 tea1
          (if shrunk then xc (ls_space st) else ls_x_best st)
      /\ optim_stops options st
         = negb (CutStatus_eqb cutstatus Success)
           || num_ltb (tsq space1) (tol options))
  /\ (forall k, (k < max_iter options)%nat ->
        (forall j, (j < k)%nat -> optim_stops options (run j) = false) ->
        optim_stops options (run k) = true ->
        cutting_plane_optim omega space tea options = finish (run (S k)) k)
  /\ ((forall j, (j < max_iter options)%nat ->
         optim_stops options (run j) = false) ->
      cutting_plane_optim omega space tea options
      = finish (run (max_iter options)) (max_iter options)).
Proof.
  cbv zeta. split; [|split].
  - intros st omega1 tea1 cut shrunk space1 cutstatus A U.
    unfold optim_stops, optim_next, optim_iter. rewrite A, U.
    split; reflexivity.
  - intros k Hk Q E. unfold cutting_plane_optim.
    assert (Sk := optim_loop_skip options
                   (mkLoopState omega space tea arr_default) k
                   (max_iter options) 0 ltac:(lia) Q).
    cbn [ls_omega ls_space ls_tea ls_x_best] in Sk. rewrite Sk. cbv zeta.
    replace (max_iter options - k)%nat with (S (max_iter options - S k))
      by lia.
    rewrite optim_loop_unfold, E. reflexivity.
  - intros Q. unfold cutting_plane_optim.
    assert (Sk := optim_loop_skip options
                   (mkLoopState omega space tea arr_default)
                   (max_iter options) (max_iter options) 0 (le_n _) Q).
    cbn [ls_omega ls_space ls_tea ls_x_best] in Sk. rewrite Sk. cbv zeta.
    rewrite Nat.sub_diag. reflexivity.
Qed.


(** C3.  [cutting_plane_q] starts its loop with [retry = false].  An
    iteration records the oracle's [x0] as [x_best] exactly when [shrunk],
    and leaves [retry] true exactly when it was true already or the update
    returned [NoEffect] with [more_alt] true.  At the first iteration that
    ends the loop, [NoEffect] with [more_alt] false stops the iterations (the
    driver returns [x_best] with the count [max_iter]), and [NoSoln] returns
    [(x_best, k)]. *)
Theorem cutting_plane_q_retry {OQ : OracleQ Oracle Arr Cut Tea}
        (omega : Oracle) (space : Space) (tea : Tea) (options : Options Num) :
  let run k := q_run k (q_start omega space tea) in
  cutting_plane_q omega space tea options
  = q_loop options (max_iter options) 0 omega space tea arr_default
      NoSoln false
  /\ qs_retry (run 0%nat) = false
  /\ (forall st omega1 tea1 cut shrunk x0 more_alt space1 cutstatus,
        assess_q (ls_omega (qs_loop st)) (xc (ls_space (qs_loop st)))
          (ls_tea (qs_loop st)) (qs_retry st)
        = (omega1, tea1, (cut, shrunk, x0, more_alt)) ->
        update (ls_space (qs_loop st)) cut = (space1, cutstatus) ->
        q_seen st = mkQSeen shrunk x0 more_alt cutstatus
        /\ qs_loop (q_next st)
           = mkLoopState omega1 space1 tea1
               (if shrunk then x0 else ls_x_best (qs_loop st))
        /\ (qs_retry (q_next st) = true <->
            qs_retry st = true \/ (cutstatus = NoEffect /\ more_alt = true)))
  /\ (forall k, (k < max_iter options)%nat ->
        (forall j, (j < k)%nat -> q_exit options (run j) = GoOn) ->
        (seen_status (q_seen (run k)) = NoEffect ->
         seen_more_alt (q_seen (run k)) = false ->
         cutting_plane_q omega space tea options
         = finish (qs_loop (run (S k))) (max_iter options))
        /\ (seen_status (q_seen (run k)) = NoSoln ->
            cutting_plane_q omega space tea options
            = finish (qs_loop (run (S k))) k)).
Proof.
  cbv zeta. split; [reflexivity|]. split; [reflexivity|]. split.
  - intros st omega1 tea1 cut shrunk x0 more_alt space1 cutstatus A U.
    unfold q_seen, q_next, q_iter. cbv zeta. rewrite A, U.
    cbn [fst snd qs_loop qs_retry]. split; [reflexivity|].
    split; [reflexivity|].
    destruct cutstatus, more_alt, (qs_retry st); cbn [CutStatus_eqb andb];
      split; intros E; try discriminate; auto;
      destruct E as [E | [E1 E2]]; discriminate.
  - intros k Hk Q. split.
    + intros E1 E2.
      assert (q_exit options (q_run k (q_start omega space tea)) = Break)
        as E.
      { unfold q_exit. now rewrite E1, E2. }
      rewrite (q_result omega space tea options k Hk Q); rewrite E;
        [reflexivity|discriminate].
    + intros E1.
      assert (q_exit options (q_run k (q_start omega space tea))
              = ReturnNoSoln) as E.
      { unfold q_exit. now rewrite E1. }
      rewrite (q_result omega space tea options k Hk Q); rewrite E;
        [reflexivity|discriminate].
Qed.

(** C10.  In [cutting_plane_q] an update status [SmallEnough] with [tsq()]
    not below the tolerance does not end the loop: the next iteration runs.
    An iteration ends the loop only on [NoSoln], on [NoEffect] with
    [more_alt] false or on [tsq()] below the tolerance, and the driver
    returns at the first such iteration or else at the cap.  In
    [cutting_plane_feas] and [cutting_plane_optim] every update status other
    than [Success], [SmallEnough] included, ends the loop. *)
Theorem cutting_plane_q_small_enough_goes_on
        {OQ : OracleQ Oracle Arr Cut Tea}
        {OF : OracleFeas Oracle Arr Cut}
        {OO : OracleOptim Oracle Arr Cut Tea}
        (omega : Oracle) (space : Space) (tea : Tea) (options : Options Num) :
  let run k := q_run k (q_start omega space tea) in
  let small st :=
    num_ltb (tsq (ls_space (qs_loop (q_next st)))) (tol options) in
  (forall st,
      seen_status (q_seen st) = SmallEnough -> small st = false ->
      q_exit options st = GoOn)
  /\ (forall st,
        q_exit options st <> GoOn ->
        seen_status (q_seen st) = NoSoln
        \/ (seen_status (q_seen st) = NoEffect
            /\ seen_more_alt (q_seen st) = false)
        \/ small st = true)
  /\ (forall fuel niter st status,
        q_exit options st = GoOn ->
        exists status',
          q_loop options (S fuel) niter
            (ls_omega (qs_loop st)) (ls_space (qs_loop st))
            (ls_tea (qs_loop st)) (ls_x_best (qs_loop st))
            status (qs_retry st)
          = q_loop options fuel (S niter)
              (ls_omega (qs_loop (q_next st))) (ls_space (qs_loop (q_next st)))
              (ls_tea (qs_loop (q_next st))) (ls_x_best (qs_loop (q_next st)))
              status' (qs_retry (q_next st)))
  /\ (forall k, (k < max_iter options)%nat ->
        (forall j, (j < k)%nat -> q_exit options (run j) = GoOn) ->
        q_exit options (run k) <> GoOn ->
        cutting_plane_q omega space tea options
        = finish (qs_loop (run (S k)))
            (q_count options (q_exit options (run k)) k))
  /\ ((forall j, (j < max_iter options)%nat ->
         q_exit options (run j) = GoOn) ->
      cutting_plane_q omega space tea options
      = finish (qs_loop (run (max_iter options))) (max_iter options))
  /\ (forall fuel niter (st : Oracle * Space) cutstatus,
        snd (feas_iter st) = Some cutstatus -> cutstatus <> Success ->
        feas_gives_up options st = true
        /\ feas_loop options (S fuel) niter (fst st) (snd st)
           = (feas_next st, cinfo false niter))
  /\ (forall fuel niter (st : LoopState Oracle Space Arr Tea),
        snd (optim_iter st) <> Success ->
        optim_stops options st = true
        /\ optim_loop options (S fuel) niter
             (ls_omega st) (ls_space st) (ls_tea st) (ls_x_best st)
           = finish (optim_next st) niter).
Proof.
  cbv zeta. split; [|split; [|split; [|split; [|split; [|split]]]]].
  - intros st E1 E2. unfold q_exit. now rewrite E1, E2.
  - intros st N. unfold q_exit in N.
    destruct (seen_status (q_seen st)); auto;
      destruct (seen_more_alt (q_seen st)); cbn [negb] in N; auto;
      destruct (num_ltb _ _); auto; contradiction.
  - intros fuel niter st status E.
    assert (U := q_loop_unfold options fuel niter st status).
    cbv zeta in U. rewrite U, E. eexists. reflexivity.
  - intros k Hk Q E. now apply q_result.
  - intros Q. now apply q_cap.
  - intros fuel niter st cutstatus E N.
    assert (feas_gives_up options st = true) as G.
    { unfold feas_gives_up. rewrite E.
      unfold no_more. destruct cutstatus; trivial. contradiction. }
    split; [exact G|]. rewrite feas_loop_unfold, G.
    unfold feas_found. now rewrite E.
  - intros fuel niter st N.
    assert (optim_stops options st = true) as G.
    { unfold optim_stops, no_more.
      destruct (snd (optim_iter st)); trivial. contradiction. }
    split; [exact G|]. now rewrite optim_loop_unfold, G.
Qed.

(** C9.  [bsearch_adaptor::assess_bs] runs [cutting_plane_feas] on a copy
    of the wrapped space (after [omega.update(tea)]) and returns its
    [feasible] flag.  When that is true the outer space becomes
    [set_xc] of itself with the copy's centre; when it is false the outer
    space is what it was.  Either way every part of the outer space that
    [set_xc] leaves alone is unchanged, and so are the options. *)
Theorem adaptor_assess_bs_frame {OF : OracleFeas Oracle Arr Cut}
        {OU : OracleUpdate Oracle Tea}
        (a : bsearch_adaptor Oracle Space Num) (tea : Tea) :
  let inner :=
    cutting_plane_feas (oracle_update (_omega a) tea) (copy (_space a))
      (_options a) in
  let a' := fst (adaptor_assess_bs a tea) in
  let ok := snd (adaptor_assess_bs a tea) in
  ok = feasible (snd inner)
  /\ _omega a' = fst (fst inner)
  /\ _options a' = _options a
  /\ (ok = true -> _space a' = set_xc (_space a) (xc (snd (fst inner))))
  /\ (ok = false -> _space a' = _space a)
  /\ (forall (X : Type) (part : Space -> X),
        (forall s v, part (set_xc s v) = part s) ->
        part (_space a') = part (_space a))
  /\ ((forall s v, xc (set_xc s v) = v) -> ok = true ->
      xc (_space a') = xc (snd (fst inner))).
Proof.
  cbv zeta. unfold adaptor_assess_bs.
  destruct (cutting_plane_feas _ _ _) as [[omega2 space'] info].
  cbn [fst snd]. destruct (feasible info); cbn [fst snd _omega _space _options].
  - repeat split; trivial; discriminate.
  - repeat split; trivial; discriminate.
Qed.

End Theorems.

(** *** The statements on the small instance *)

Local Open Scope Z_scope.

(** The statement of C1 on the small instance. *)
Lemma cutting_plane_optim_spec_witness :
  cutting_plane_optim (3 : Target) start 100 opts
  = mkOutcome (3 : Target) (mkInterval 3 1) 0 3 3%nat.
Proof.
  rewrite (proj1 (proj2 (cutting_plane_optim_spec (3 : Target) start 100 opts))
             3%nat).
  - reflexivity.
  - cbn. lia.
  - intros j Hj. destruct j as [|[|[|j]]]; [reflexivity..|lia].
  - reflexivity.
Defined.

(** The statement of C2 on the small instance. *)
Lemma cutting_plane_feas_spec_witness :
  cutting_plane_feas (3 : Target) start opts
  = ((3 : Target), mkInterval 3 1, cinfo true 3).
Proof.
  rewrite (proj1 (proj1 (proj2 (cutting_plane_feas_spec (3 : Target) start
                                  opts)) 3%nat ltac:(cbn; lia)
                    ltac:(intros j Hj; destruct j as [|[|[|j]]];
                          [split; reflexivity..|lia]))).
  - reflexivity.
  - reflexivity.
Defined.

(** The statement of C3 on the small instance. *)
Lemma cutting_plane_q_retry_witness :
  cutting_plane_q script_retry start 100 opts
  = mkOutcome (nil : Script) start 99 5 10%nat.
Proof.
  rewrite (proj1 (proj2 (proj2 (proj2 (cutting_plane_q_retry script_retry
                                         start 100 opts))) 1%nat
                    ltac:(cbn; lia)
                    ltac:(intros j Hj; destruct j as [|j];
                          [reflexivity|lia]))).
  - reflexivity.
  - reflexivity.
  - reflexivity.
Defined.

(** The statement of C10 on the small instance. *)
Lemma cutting_plane_q_small_enough_witness :
  seen_status (q_seen (q_start script_small start 100)) = SmallEnough
  /\ cutting_plane_q script_small start 100 opts
     = mkOutcome (nil : Script) start 100 0 1%nat.
Proof.
  split; [reflexivity|].
  destruct (cutting_plane_q_small_enough_goes_on
              (Oracle := Script) (Cut := Cut1)
              (OF := fun _ _ => (nil, None))
              (OO := fun _ _ t => (nil, t, ((0, 0), false)))
              script_small start 100 opts)
    as (_ & _ & _ & R & _).
  rewrite (R 1%nat).
  - reflexivity.
  - cbn. lia.
  - intros j Hj. destruct j as [|j]; [reflexivity|lia].
  - discriminate.
Defined.

(** The statement of C9 on the small instance. *)
Lemma adaptor_assess_bs_frame_witness :
  adaptor_assess_bs adaptor0 3
  = (mkAdaptor (3 : Target) (mkInterval 3 8) opts, true).
Proof.
  destruct (adaptor_assess_bs_frame adaptor0 3)
    as (Ok & Om & Op & Sp & _).
  rewrite (surjective_pairing (adaptor_assess_bs adaptor0 3)).
  rewrite Ok.
  destruct (fst (adaptor_assess_bs adaptor0 3)) as [o s op].
  cbn [_omega _space _options] in *.
  rewrite Om, Op, (Sp Ok). reflexivity.
Defined.

End CuttingPlaneProofs.

(** ** Bisection *)

Module BsearchFacts.
Import Config Scalar ScalarFacts CuttingPlane Bsearch.
Local Open Scope Qc_scope.

Lemma mid_ge (l u : Qc) : l <= u -> l <= l + (u - l) / qc 2 1.
Proof. intros L. qc_order. Qed.

Lemma mid_le (l u : Qc) : l <= u -> l + (u - l) / qc 2 1 <= u.
Proof. intros L. qc_order. Qed.

Lemma half_lt (x t : Qc) : x / qc 2 1 < t -> x < qc 2 1 * t.
Proof. intros L. qc_order. Qed.

Section Facts.
Context {Oracle : Type} {OB : OracleBS Oracle Qc}.
Variable options : Options Qc.

Lemma bisect_run_shift (st : Oracle * (Qc * Qc)) :
  forall k, bisect_run (S k) st = bisect_run k (bisect st).
Proof.
  induction k as [|k IH]; [reflexivity|].
  change (bisect_run (S (S k)) st) with (bisect (bisect_run (S k) st)).
  now rewrite IH.
Qed.

Lemma bisect_bounds (omega : Oracle) (l u : Qc) :
  l <= u ->
  let st := bisect (omega, (l, u)) in
  l <= fst (snd st) /\ fst (snd st) <= snd (snd st) /\ snd (snd st) <= u.
Proof.
  intros L. unfold bisect.
  destruct (assess_bs omega _) as [omega1 [|]]; cbn [fst snd].
  - split; [apply Qcle_refl|]. split; [now apply mid_ge|now apply mid_le].
  - split; [now apply mid_ge|]. split; [now apply mid_le|apply Qcle_refl].
Qed.

Lemma bsearch_loop_unfold (fuel niter : nat) (omega : Oracle)
      (lower upper u_orig : Qc) :
  bsearch_loop options (S fuel) niter omega lower upper u_orig
  = if narrow options (omega, (lower, upper))
    then (omega, (lower, upper), cinfo (negb (Qceqb upper u_orig)) niter)
    else
      let st := bisect (omega, (lower, upper)) in
      bsearch_loop options fuel (S niter)
        (fst st) (fst (snd st)) (snd (snd st)) u_orig.
Proof.
  unfold narrow, bisect. cbn [bsearch_loop]. unfold half_nonnegative.
  destruct (Qcltb _ _); trivial.
  destruct (assess_bs omega _) as [omega1 [|]]; trivial.
Qed.

Lemma bsearch_loop_spec :
  forall fuel niter omega lower upper u_orig,
    (niter + fuel = max_iter options)%nat ->
    lower <= upper ->
    exists k,
      (k <= fuel)%nat
      /\ let st0 := (omega, (lower, upper)) in
         let st := bisect_run k st0 in
         bsearch_loop options fuel niter omega lower upper u_orig
         = (fst st, snd st,
            cinfo (negb (Qceqb (snd (snd st)) u_orig)) (niter + k))
         /\ (forall j, (j < k)%nat -> narrow options (bisect_run j st0) = false)
         /\ ((k < fuel)%nat -> narrow options st = true)
         /\ lower <= fst (snd st)
         /\ fst (snd st) <= snd (snd st)
         /\ snd (snd st) <= upper.
Proof.
  induction fuel as [|fuel IH]; intros niter omega lower upper u_orig N L.
  - exists O. split; [lia|]. cbn [bisect_run bsearch_loop fst snd].
    rewrite Nat.add_0_r in *. rewrite N.
    split; [reflexivity|]. split; [intros j Hj; lia|]. split; [lia|].
    split; [apply Qcle_refl|]. split; [exact L|apply Qcle_refl].
  - rewrite bsearch_loop_unfold.
    destruct (narrow options (omega, (lower, upper))) eqn:Nw.
    + exists O. split; [lia|]. cbn [bisect_run fst snd].
      rewrite Nat.add_0_r.
      split; [reflexivity|]. split; [intros j Hj; lia|]. split; [trivial|].
      split; [apply Qcle_refl|]. split; [exact L|apply Qcle_refl].
    + destruct (bisect_bounds omega lower upper L) as (B1 & B2 & B3).
      cbv zeta in *.
      destruct (bisect (omega, (lower, upper))) as [omega1 [l1 u1]] eqn:Bi.
      cbn [fst snd] in *.
      destruct (IH (S niter) omega1 l1 u1 u_orig ltac:(lia) B2)
        as (k & Hk & E & Q1 & Q2 & Q3 & Q4 & Q5).
      exists (S k). split; [lia|].
      rewrite bisect_run_shift, Bi. cbv zeta in *.
      rewrite E. replace (S niter + k)%nat with (niter + S k)%nat by lia.
      split; [reflexivity|]. split; [|split; [|split; [|split]]].
      * intros [|j] Hj; [exact Nw|].
        rewrite bisect_run_shift, Bi. apply Q1. lia.
      * intros Hlt. apply Q2. lia.
      * exact (Qcle_trans _ _ _ B1 Q3).
      * exact Q4.
      * exact (Qcle_trans _ _ _ Q5 B3).
Qed.

End Facts.


End BsearchFacts.

Module BsearchProofs.
Import Config Scalar ScalarFacts CuttingPlane Bsearch BsearchFacts.
Import BsearchExample.
Local Open Scope Qc_scope.

(** C8.  For [lower <= upper], [bsearch] performs some number [k <=
    max_iter] of bisection steps, each asking [assess_bs] at the midpoint
    [lower + (upper - lower)/2] and moving [upper] there when feasible and
    [lower] otherwise, and reports [k].  No state before the [k]-th has
    [(upper - lower)/2 < tol]; the final one has it unless [k = max_iter].
    Hence at return [upper - lower < 2 tol] or [k = max_iter]; the interval
    stays ordered and inside the initial one. *)
Theorem bsearch_spec {Oracle : Type} {OB : OracleBS Oracle Qc}
        (omega : Oracle) (lower upper : Qc) (options : Options Qc) :
  lower <= upper ->
  exists k,
    (k <= max_iter options)%nat
    /\ let st0 := (omega, (lower, upper)) in
       let st := bisect_run k st0 in
       let lower' := fst (snd st) in
       let upper' := snd (snd st) in
       bsearch omega (lower, upper) options
       = Some (fst st, (lower', upper'),
               cinfo (negb (Qceqb upper' upper)) k)
       /\ (forall j, (j < k)%nat -> narrow options (bisect_run j st0) = false)
       /\ ((k < max_iter options)%nat ->
           (upper' - lower') / qc 2 1 < tol options)
       /\ (upper' - lower' < qc 2 1 * tol options
           \/ k = max_iter options)
       /\ lower <= lower' /\ lower' <= upper' /\ upper' <= upper.
Proof.
  intros L.
  destruct (bsearch_loop_spec options (max_iter options) 0 omega lower upper
              upper eq_refl L) as (k & Hk & E & Q1 & Q2 & Q3 & Q4 & Q5).
  exists k. split; [exact Hk|]. cbv zeta in *.
  assert ((k < max_iter options)%nat ->
          (snd (snd (bisect_run k (omega, (lower, upper))))
           - fst (snd (bisect_run k (omega, (lower, upper))))) / qc 2 1
          < tol options) as Nw.
  { intros Hlt. specialize (Q2 Hlt). unfold narrow in Q2.
    destruct (bisect_run k (omega, (lower, upper))) as [o [l u]].
    cbn [fst snd]. now apply Qcltb_true. }
  split.
  { unfold bsearch. cbn [fst snd].
    apply Qcleb_true in L. rewrite L, E.
    destruct (bisect_run k (omega, (lower, upper))) as [o [l u]].
    reflexivity. }
  split; [exact Q1|]. split; [exact Nw|]. split.
  { destruct (Nat.eq_dec k (max_iter options)) as [-> | Ne]; [now right|].
    left. apply half_lt, Nw. lia. }
  split; [exact Q3|]. split; [exact Q4|exact Q5].
Qed.

(** The statement of C8 on the unit interval. *)
Lemma bsearch_spec_witness :
  exists k res,
    (k <= 10)%nat
    /\ bsearch third unit_interval opts = Some res
    /\ num_iters (snd res) = k.
Proof.
  destruct (bsearch_spec third (qc 0 1) (qc 1 1) opts) as (k & Hk & E & _).
  - unfold Qcle, Qle. cbn. lia.
  - exists k. eexists. split; [exact Hk|]. split; [exact E|reflexivity].
Defined.

End BsearchProofs.

(** ** The profit oracle *)

Module ProfitProofs.
Import Profit.
Local Open Scope R_scope.

Lemma assess_optim_cases (o : ProfitOracle) (y : Vec) (target : R) :
  let f1 := at_ y 0 - _log_k o in
  let te := target + vx o y in
  let fj := xsub (xlog te) (log_Cobb o y) in
  (0 < f1
   /\ assess_optim o y target = (((1 :: 0 :: nil, Finite f1), false), target))
  \/ (~ 0 < f1 /\ xneg fj
      /\ assess_optim o y target
         = (((vsub (vdiv (vmul (_price_out o) (vexp y)) (exp (log_Cobb o y)))
                (_elasticities o), Finite 0), true),
            exp (log_Cobb o y) - vx o y))
  \/ (~ 0 < f1 /\ ~ xneg fj
      /\ assess_optim o y target
         = (((vsub (vdiv (vmul (_price_out o) (vexp y)) te) (_elasticities o),
              fj), false), target)).
Proof.
  cbv zeta. unfold assess_optim, vx, log_Cobb.
  destruct (Rlt_dec 0 (at_ y 0 - _log_k o)) as [P | N]; [left; now split|].
  right. destruct (xneg_dec _) as [P | N']; [left | right]; now repeat split.
Qed.

(** What the test [fj < 0.0] says about [te = target + vx]. *)
Lemma xneg_fj (te lc : R) :
  xneg (xsub (xlog te) lc) <-> (0 < te /\ ln te - lc < 0) \/ te = 0.
Proof.
  unfold xlog.
  destruct (Rlt_dec 0 te) as [P | N]; cbn [xsub xneg].
  - split; [intros H; left; now split|].
    intros [[_ H] | E]; [exact H | Lra.lra].
  - destruct (Req_dec_T te 0) as [E | Ne]; cbn [xsub xneg].
    + split; [intros _; now right | trivial].
    + split; [contradiction|]. intros [[P _] | E]; contradiction.
Qed.

Lemma not_xneg_fj (te lc : R) :
  ~ xneg (xsub (xlog te) lc) ->
  (0 < te /\ xsub (xlog te) lc = Finite (ln te - lc) /\ 0 <= ln te - lc)
  \/ (te < 0 /\ xsub (xlog te) lc = NaN).
Proof.
  unfold xlog.
  destruct (Rlt_dec 0 te) as [P | N]; cbn [xsub xneg].
  - intros H. left. split; [exact P|]. split; [reflexivity | Lra.lra].
  - destruct (Req_dec_T te 0) as [E | Ne]; cbn [xsub xneg].
    + intros H. exfalso. apply H. exact I.
    + intros _. right. split; [Lra.lra | reflexivity].
Qed.

(** C7, as amended.  [assess_optim] returns [shrunk = true] exactly when
    the first constraint is not violated (the test [y[0] - log_k > 0]
    fails) and [fj = log(target + vx) - log_Cobb] tests below zero, which
    is the case when [target + vx > 0] with [log(target + vx) < log_Cobb],
    and when [target + vx = 0], where the logarithm is minus infinity.  It
    then returns a central cut ([beta = 0]) and overwrites the target with
    [exp(log_Cobb) - vx].  When [shrunk] is false the target is unchanged
    and [beta] does not test below zero, but it need not be positive:
    [beta = y[0] - log_k > 0] when the first constraint is violated, and
    [beta = fj] otherwise, which is a number [>= 0] (zero when
    [log(target + vx) = log_Cobb]) for [target + vx > 0] and not a number
    for [target + vx < 0]. *)
Theorem assess_optim_spec (o : ProfitOracle) (y : Vec) (target : R) :
  let r := assess_optim o y target in
  let f1 := at_ y 0 - _log_k o in
  let te := target + vx o y in
  let fj := xsub (xlog te) (log_Cobb o y) in
  (shrunk_of r = true <-> ~ 0 < f1 /\ xneg fj)
  /\ (xneg fj <-> (0 < te /\ ln te - log_Cobb o y < 0) \/ te = 0)
  /\ (shrunk_of r = true ->
      beta_of r = Finite 0 /\ target_of r = exp (log_Cobb o y) - vx o y)
  /\ (shrunk_of r = false ->
      target_of r = target
      /\ ~ xneg (beta_of r)
      /\ (0 < f1 -> beta_of r = Finite f1)
      /\ (~ 0 < f1 ->
          beta_of r = fj
          /\ ((0 < te /\ fj = Finite (ln te - log_Cobb o y)
               /\ 0 <= ln te - log_Cobb o y)
              \/ (te < 0 /\ fj = NaN)))).
Proof.
  cbv zeta.
  split; [|split; [apply xneg_fj|]].
  - destruct (assess_optim_cases o y target)
      as [(P & ->) | [(N & L & ->) | (N & L & ->)]];
      unfold shrunk_of; cbn [fst snd].
    + split; [discriminate|]. intros [N _]. contradiction.
    + split; [now split|trivial].
    + split; [discriminate|]. intros [_ L']. contradiction.
  - destruct (assess_optim_cases o y target)
      as [(P & ->) | [(N & L & ->) | (N & L & ->)]];
      unfold shrunk_of, beta_of, target_of; cbn [fst snd].
    + split; [discriminate|]. intros _. split; [trivial|].
      split; [cbn [xneg]; Lra.lra|]. split; [trivial|].
      intros N. contradiction.
    + split; [|discriminate]. intros _. split; trivial.
    + split; [discriminate|]. intros _. split; [trivial|].
      split; [exact L|]. split; [intros P; contradiction|].
      intros _. split; [trivial|]. apply not_xneg_fj. exact L.
Qed.

(** The statement of C7 at a point where the target is overwritten. *)
Lemma assess_optim_spec_witness :
  shrunk_of (assess_optim unit_oracle (0 :: 1 :: nil) (-9 - 35 * exp 1))
  = true.
Proof.
  apply (proj1 (assess_optim_spec unit_oracle (0 :: 1 :: nil)
                  (-9 - 35 * exp 1))).
  unfold vx, log_Cobb, unit_oracle, vexp, at_.
  cbn [nth map _log_k _log_pA _price_out _elasticities].
  rewrite exp_0. split; [Lra.lra|].
  replace (-9 - 35 * exp 1 + (10 * 1 + 35 * exp 1)) with 1 by Lra.lra.
  apply xneg_fj. left. rewrite ln_1. split; Lra.lra.
Defined.

(** C7, as stated, fails for the oracle with prices [(10, 35)] at
    [y = (0, 0)].  With [target = -44], [target + vx = 1] and [fj = 0]:
    [shrunk] is false, the target is unchanged and the returned cut is
    central ([beta = 0]), not deep.  With [target = -46],
    [target + vx = -1]: [shrunk] is false and [beta] is not a number, which
    is not above zero either. *)
Lemma assess_optim_central_not_shrunk :
  shrunk_of (assess_optim unit_oracle (0 :: 0 :: nil) (-44)) = false
  /\ target_of (assess_optim unit_oracle (0 :: 0 :: nil) (-44)) = -44
  /\ beta_of (assess_optim unit_oracle (0 :: 0 :: nil) (-44)) = Finite 0
  /\ ~ xpos (beta_of (assess_optim unit_oracle (0 :: 0 :: nil) (-44)))
  /\ shrunk_of (assess_optim unit_oracle (0 :: 0 :: nil) (-46)) = false
  /\ beta_of (assess_optim unit_oracle (0 :: 0 :: nil) (-46)) = NaN
  /\ ~ xpos (beta_of (assess_optim unit_oracle (0 :: 0 :: nil) (-46))).
Proof.
  assert (vx unit_oracle (0 :: 0 :: nil) = 45) as Vx.
  { unfold vx, unit_oracle, vexp, at_. cbn [nth map _price_out].
    rewrite exp_0. Lra.lra. }
  assert (log_Cobb unit_oracle (0 :: 0 :: nil) = 0) as Lc.
  { unfold log_Cobb, unit_oracle, at_.
    cbn [nth _log_pA _elasticities]. Lra.lra. }
  assert (xsub (xlog (-44 + vx unit_oracle (0 :: 0 :: nil)))
            (log_Cobb unit_oracle (0 :: 0 :: nil)) = Finite 0) as Fj.
  { rewrite Vx, Lc. replace (-44 + 45) with 1 by Lra.lra.
    unfold xlog. destruct (Rlt_dec 0 1) as [_ | N]; [|exfalso; Lra.lra].
    cbn [xsub]. rewrite ln_1. f_equal. Lra.lra. }
  assert (xsub (xlog (-46 + vx unit_oracle (0 :: 0 :: nil)))
            (log_Cobb unit_oracle (0 :: 0 :: nil)) = NaN) as Fn.
  { rewrite Vx. unfold xlog.
    destruct (Rlt_dec 0 (-46 + 45)) as [P | _]; [exfalso; Lra.lra|].
    destruct (Req_dec_T (-46 + 45) 0) as [E | _]; [exfalso; Lra.lra|].
    reflexivity. }
  assert (A : shrunk_of (assess_optim unit_oracle (0 :: 0 :: nil) (-44))
              = false
              /\ target_of (assess_optim unit_oracle (0 :: 0 :: nil) (-44))
                 = -44
              /\ beta_of (assess_optim unit_oracle (0 :: 0 :: nil) (-44))
                 = Finite 0).
  { destruct (assess_optim_cases unit_oracle (0 :: 0 :: nil) (-44))
      as [(P & _) | [(_ & L & _) | (_ & _ & ->)]].
    - exfalso. unfold unit_oracle, at_ in P. cbn [nth _log_k] in P. Lra.lra.
    - exfalso. rewrite Fj in L. cbn [xneg] in L. Lra.lra.
    - unfold shrunk_of, beta_of, target_of. cbn [fst snd]. rewrite Fj.
      repeat split. }
  assert (B : shrunk_of (assess_optim unit_oracle (0 :: 0 :: nil) (-46))
              = false
              /\ beta_of (assess_optim unit_oracle (0 :: 0 :: nil) (-46))
                 = NaN).
  { destruct (assess_optim_cases unit_oracle (0 :: 0 :: nil) (-46))
      as [(P & _) | [(_ & L & _) | (_ & _ & ->)]].
    - exfalso. unfold unit_oracle, at_ in P. cbn [nth _log_k] in P. Lra.lra.
    - exfalso. rewrite Fn in L. exact L.
    - unfold shrunk_of, beta_of. cbn [fst snd]. rewrite Fn.
      split; reflexivity. }
  destruct A as [A1 [A2 A3]]. destruct B as [B1 B2].
  split; [exact A1|]. split; [exact A2|]. split; [exact A3|].
  split; [rewrite A3; cbn [xpos]; Lra.lra|].
  split; [exact B1|]. split; [exact B2|].
  rewrite B2. cbn [xpos]. tauto.
Qed.

End ProfitProofs.

(** ** More on the LDLT manager *)

Module LDLTMore.
Import Scalar ScalarFacts LDLT LDLTFacts LDLTExamples Definite.
Import LDLTMoreExamples.
Local Open Scope Qc_scope.

Lemma Qc_sq_nonneg (a : Qc) : 0 <= a * a.
Proof. to_Q. Lqa.nra. Qed.

Lemma Qc_sq_pos (a : Qc) : a <> 0 -> 0 < a * a.
Proof.
  intros Ha.
  assert (Hq : ~ (this a == 0)%Q).
  { intros E. apply Ha. apply Qc_is_canon. exact E. }
  to_Q.
  destruct (Qlt_le_dec 0 (this a)) as [P|P].
  - Lqa.nra.
  - assert (this a < 0)%Q.
    { apply Qle_lteq in P. destruct P as [P|P]; [exact P | contradiction]. }
    Lqa.nra.
Qed.

Lemma Qc_add_nonneg (a b : Qc) : 0 <= a -> 0 <= b -> 0 <= a + b.
Proof. intros. to_Q. Lqa.lra. Qed.

Lemma Qc_add_pos (a b : Qc) : 0 <= a -> 0 < b -> 0 < a + b.
Proof. intros. to_Q. Lqa.lra. Qed.

Lemma Qc_mul_nonneg (a b : Qc) : 0 <= a -> 0 <= b -> 0 <= a * b.
Proof. intros. to_Q. Lqa.nra. Qed.

Lemma Qc_mul_pos (a b : Qc) : 0 < a -> 0 < b -> 0 < a * b.
Proof. intros. to_Q. Lqa.nra. Qed.

Lemma sum_cnt_nonneg (f : nat -> Qc) :
  forall cnt lo,
    (forall k, (lo <= k < lo + cnt)%nat -> 0 <= f k) -> 0 <= sum_cnt cnt lo f.
Proof.
  induction cnt as [|c IH]; intros lo Hf; cbn [sum_cnt].
  - apply Qcle_refl.
  - apply Qc_add_nonneg; [apply Hf; lia | apply IH; intros; apply Hf; lia].
Qed.

Lemma sumr_nonneg (f : nat -> Qc) (lo hi : nat) :
  (forall k, (lo <= k < hi)%nat -> 0 <= f k) -> 0 <= sumr lo hi f.
Proof. intros Hf. apply sum_cnt_nonneg. intros; apply Hf; lia. Qed.

Lemma sumr_pos (f : nat -> Qc) (lo hi i : nat) :
  (lo <= i < hi)%nat ->
  (forall k, (lo <= k < hi)%nat -> 0 <= f k) -> 0 < f i ->
  0 < sumr lo hi f.
Proof.
  intros Hi Hf Hpos.
  rewrite (sumr_split f lo i hi) by lia.
  rewrite (sumr_first f i hi) by lia.
  rewrite Qcplus_assoc.
  rewrite (Qcplus_comm (sumr lo i f + f i)).
  apply Qc_add_pos.
  - apply sumr_nonneg. intros; apply Hf; lia.
  - apply Qc_add_pos; [|exact Hpos].
    apply sumr_nonneg. intros; apply Hf; lia.
Qed.

(** The last index below [n] at which [v] is not zero. *)
Lemma last_nonzero (v : Vec) :
  forall n, (exists i, (i < n)%nat /\ v i <> 0) ->
    exists i, (i < n)%nat /\ v i <> 0
      /\ forall r, (i < r < n)%nat -> v r = 0.
Proof.
  induction n as [|n IH]; intros [i [Hi Hv]]; [lia|].
  destruct (Qc_eq_dec (v n) 0) as [E|E].
  - destruct IH as [j [Hj [Hvj Hz]]].
    { exists i. split; [|exact Hv].
      destruct (Nat.eq_dec i n) as [->|]; [contradiction | lia]. }
    exists j. split; [lia|]. split; [exact Hvj|].
    intros r Hr.
    destruct (Nat.eq_dec r n) as [->|]; [exact E | apply Hz; lia].
  - exists n. split; [lia|]. split; [exact E|]. intros; lia.
Qed.

Lemma quad_form_ext (A : Mat) (v w : Vec) (lo hi : nat) :
  (forall i, (lo <= i < hi)%nat -> v i = w i) ->
  quad_form A v lo hi = quad_form A w lo hi.
Proof.
  intros E. unfold quad_form.
  apply sumr_ext. intros i Hi. apply sumr_ext. intros j Hj.
  rewrite (E i Hi), (E j Hj). reflexivity.
Qed.

(** With positive pivots the quadratic form is positive off zero: it is
    the sum of the pivots times the squares of the components of [L' v],
    and the last non-zero component of [v] is a component of [L' v]. *)
Lemma LDLt_positive get (T : Mat) (n : nat) (v : Vec) :
  ldl_inv get 0 n T ->
  (forall c, (c < n)%nat -> 0 < T c c) ->
  (exists i, (i < n)%nat /\ v i <> 0) ->
  0 < quad_form (sym get) v 0 n.
Proof.
  intros inv piv Hv.
  destruct n as [|m]; [destruct Hv as [i [Hi _]]; lia|].
  rewrite (quad_form_LDLt get T 0 m); [| lia | exact inv |].
  2:{ intros c Hc E. specialize (piv c ltac:(lia)).
      apply Qclt_not_eq in piv. congruence. }
  destruct (last_nonzero v (S m) Hv) as [i [Hi [Hvi Hz]]].
  apply (sumr_pos _ 0 (S m) i); [lia | |].
  - intros k Hk. apply Qc_mul_nonneg; [apply Qclt_le_weak, piv; lia|].
    apply Qc_sq_nonneg.
  - assert (E : Ltv T v 0 m i = v i).
    { unfold Ltv. rewrite (sumr_pick _ 0 (S m) i); [| lia |].
      - rewrite Lfac_diag. ring.
      - intros k Hk Hne.
        destruct (Nat.lt_ge_cases k i) as [L|L].
        + rewrite Lfac_above by lia. ring.
        + rewrite Hz by lia. ring. }
    rewrite E. apply Qc_mul_pos; [apply piv; lia | apply Qc_sq_pos, Hvi].
Qed.

Lemma factor_true_pos_def get (m : LDLTMgr) :
  snd (factor get m) = true -> pos_def (sym get) (n_ m).
Proof.
  intros Ok v Hv.
  pose proof (factor_cases get m) as C. cbv zeta in C.
  destruct C as [_ [_ [[Hp [HT Hpiv]] | [r [Hr [Hp _]]]]]].
  - apply (LDLt_positive get (rows get (n_ m) (T m)));
      [apply rows_inv | | exact Hv].
    intros c Hc. rewrite rows_diag by lia. apply Hpiv; lia.
  - exfalso. unfold factor in Ok, Hp. cbn [fst snd] in Ok, Hp.
    unfold is_spd in Ok. rewrite Hp in Ok. cbn in Ok. discriminate.
Qed.

(** After a failure the witness vector, cut off at [stop], is a direction
    in which the quadratic form is not positive. *)
Lemma factor_false_not_pos_def get (m : LDLTMgr) :
  snd (factor get m) = false -> ~ pos_def (sym get) (n_ m).
Proof.
  intros Ok PD.
  pose proof (factor_failed get m Ok) as Fl.
  pose proof (factor_cases get m) as C. cbv zeta in C.
  destruct C as [Hn [_ C]].
  destruct (witness_of_failed get _ Fl)
    as [m' [ep [_ [_ [_ [_ [V1 [_ [_ [Hep HQ]]]]]]]]]].
  destruct Fl as [i [Hstop [_ [Hi [_ [_ Hle]]]]]].
  assert (Hstart : fst (p (fst (factor get m))) = O).
  { destruct C as [[Hp _] | [r [_ [Hp _]]]]; rewrite Hp; reflexivity. }
  rewrite Hstart, Hstop in HQ. rewrite Hstop in V1, Hep.
  replace (S i - 1)%nat with i in V1, Hep by lia.
  rewrite Hn in Hi.
  set (w := fun a : nat => if (a <? S i)%nat then witness_vec m' a else 0).
  assert (Hw : 0 < quad_form (sym get) w 0 (n_ m)).
  { apply PD. exists i. split; [exact Hi|].
    unfold w. destruct (Nat.ltb_spec i (S i)); [|lia].
    rewrite V1. discriminate. }
  rewrite (quad_form_restrict _ w 0 (S i) (n_ m)) in Hw; [| lia | lia |].
  2:{ intros a [Ha|Ha]; [lia|]. unfold w.
      destruct (Nat.ltb_spec a (S i)); [lia|reflexivity]. }
  rewrite (quad_form_ext _ w (witness_vec m') 0 (S i)) in Hw.
  2:{ intros a Ha. unfold w.
      destruct (Nat.ltb_spec a (S i)); [reflexivity|lia]. }
  rewrite HQ, Hep in Hw.
  rewrite Qcopp_involutive in Hw.
  apply (Qclt_not_le _ _ Hw Hle).
Qed.

(** X1.  [LDLTMgr::factor] returns true exactly when the symmetric matrix
    that the accessor defines (read from its lower triangle) is positive
    definite on the [_n] indices of the manager: [v' A v > 0] for every
    [v] that is not zero there. *)
Theorem factor_iff_positive_definite get (m : LDLTMgr) :
  snd (factor get m) = true <-> pos_def (sym get) (n_ m).
Proof.
  split.
  - apply factor_true_pos_def.
  - intros PD. destruct (snd (factor get m)) eqn:Ok; [reflexivity|].
    exfalso. exact (factor_false_not_pos_def get m Ok PD).
Qed.

(** The equations of [ldl_inv] have one solution. *)
Lemma ldl_inv_unique get (start k : nat) (T1 T2 : Mat) :
  ldl_inv get start k T1 -> ldl_inv get start k T2 ->
  forall r, (r < k)%nat -> forall c, (start <= c)%nat -> (c <= r)%nat ->
    T1 c r = T2 c r /\ T1 r c = T2 r c.
Proof.
  intros I1 I2.
  induction r as [r IHr] using lt_wf_ind. intros Hr.
  induction c as [c IHc] using lt_wf_ind. intros Hs Hc.
  destruct (I1 r c Hs Hc Hr) as [U1 L1].
  destruct (I2 r c Hs Hc Hr) as [U2 L2].
  assert (U : T1 c r = T2 c r).
  { rewrite U1, U2. f_equal. apply sumr_ext. intros t Ht.
    destruct (IHc t ltac:(lia) ltac:(lia) ltac:(lia)) as [Ut Lt].
    rewrite Lt. f_equal.
    destruct (Nat.eq_dec c r) as [->|Hne]; [exact Ut|].
    apply (IHr c ltac:(lia) ltac:(lia) t); lia. }
  split; [exact U|].
  destruct (Nat.eq_dec c r) as [->|Hne]; [exact U|].
  rewrite L1, L2 by lia. rewrite U.
  destruct (IHr c ltac:(lia) ltac:(lia) c Hs (Nat.le_refl c)) as [Ec _].
  rewrite Ec. reflexivity.
Qed.

Lemma rows_agree get (T1 T2 : Mat) (k a b : nat) :
  (a < k)%nat -> (b < k)%nat -> rows get k T1 a b = rows get k T2 a b.
Proof.
  intros Ha Hb.
  pose proof (ldl_inv_unique get 0 k _ _
                (rows_inv get T1 k) (rows_inv get T2 k)) as U.
  destruct (Nat.le_gt_cases a b) as [L|L].
  - apply (U b Hb a); lia.
  - apply (U a Ha b); lia.
Qed.

Lemma pivot_agree get (T1 T2 : Mat) (k : nat) :
  pivot get T1 k = pivot get T2 k.
Proof.
  rewrite <- (rows_diag get T1 (S k) k) by lia.
  rewrite <- (rows_diag get T2 (S k) k) by lia.
  apply rows_agree; lia.
Qed.

Lemma factor_old_state get (m : LDLTMgr)
      (p' : nat * nat) (v' : Vec) (T' : Mat) :
  let r1 := factor get m in
  let r2 := factor get (mkLDLTMgr (n_ m) p' v' T') in
  let k := if snd r1 then n_ m else snd (p (fst r1)) in
  snd r1 = snd r2
  /\ p (fst r1) = p (fst r2)
  /\ forall a b, (a < k)%nat -> (b < k)%nat ->
       T (fst r1) a b = T (fst r2) a b.
Proof.
  cbv zeta.
  pose proof (factor_cases get m) as C1.
  pose proof (factor_cases get (mkLDLTMgr (n_ m) p' v' T')) as C2.
  cbv zeta in C1, C2. cbn [n_ T] in C2.
  destruct C1 as [_ [_ C1]], C2 as [_ [_ C2]].
  assert (F1 : snd (factor get m) = is_spd (fst (factor get m)))
    by reflexivity.
  assert (F2 : snd (factor get (mkLDLTMgr (n_ m) p' v' T'))
               = is_spd (fst (factor get (mkLDLTMgr (n_ m) p' v' T'))))
    by reflexivity.
  rewrite F1, F2. unfold is_spd.
  destruct C1 as [[P1 [E1 Pos1]] | [r1 [R1 [P1 [E1 [Neg1 Pos1]]]]]];
  destruct C2 as [[P2 [E2 Pos2]] | [r2 [R2 [P2 [E2 [Neg2 Pos2]]]]]];
  rewrite P1, P2; cbn [fst snd Nat.eqb].
  - split; [reflexivity|]. split; [reflexivity|].
    intros a b Ha Hb. rewrite E1, E2. apply rows_agree; assumption.
  - exfalso. specialize (Pos1 r2 R2).
    rewrite (pivot_agree get (T m) T') in Pos1.
    exact (Qclt_not_le _ _ Pos1 Neg2).
  - exfalso. specialize (Pos2 r1 R1).
    rewrite <- (pivot_agree get (T m) T') in Pos2.
    exact (Qclt_not_le _ _ Pos2 Neg1).
  - assert (r1 = r2) as ->.
    { destruct (Nat.lt_trichotomy r1 r2) as [L|[L|L]];
        [exfalso | exact L | exfalso].
      - specialize (Pos2 r1 L).
        rewrite <- (pivot_agree get (T m) T') in Pos2.
        exact (Qclt_not_le _ _ Pos2 Neg1).
      - specialize (Pos1 r2 L).
        rewrite (pivot_agree get (T m) T') in Pos1.
        exact (Qclt_not_le _ _ Pos1 Neg2). }
    split; [reflexivity|]. split; [reflexivity|].
    intros a b Ha Hb. rewrite E1, E2. apply rows_agree; assumption.
Qed.

(** The recurrence of the witness vector has one solution. *)
Lemma wvec_agree (T1 T2 : Mat) (v1 v2 : Vec) (start i0 : nat) :
  (forall a b, (a <= i0)%nat -> (b <= i0)%nat -> T1 a b = T2 a b) ->
  v1 i0 = 1 -> v2 i0 = 1 ->
  (forall i, (start <= i < i0)%nat ->
     v1 i = - sumr (S i) (S i0) (fun k => T1 k i * v1 k)) ->
  (forall i, (start <= i < i0)%nat ->
     v2 i = - sumr (S i) (S i0) (fun k => T2 k i * v2 k)) ->
  forall i, (start <= i <= i0)%nat -> v1 i = v2 i.
Proof.
  intros HT E1 E2 R1 R2.
  assert (H : forall d i, (i0 - i = d)%nat -> (start <= i <= i0)%nat ->
                          v1 i = v2 i).
  { induction d as [d IH] using lt_wf_ind. intros i Hd Hi.
    destruct (Nat.eq_dec i i0) as [->|Hne]; [congruence|].
    rewrite R1, R2 by lia. f_equal. apply sumr_ext. intros k Hk.
    rewrite HT by lia. f_equal.
    apply (IH (i0 - k)%nat); lia. }
  intros i Hi. apply (H (i0 - i)%nat); [reflexivity | exact Hi].
Qed.

(** After a failure, [witness()] gives the same value and, on the recorded
    range, the same vector, whatever the manager held before the
    factorisation. *)
Lemma witness_old_state get (m : LDLTMgr)
      (p' : nat * nat) (v' : Vec) (T' : Mat) :
  snd (factor get m) = false ->
  exists i m1 m2 ep,
    witness (fst (factor get m)) = Some (m1, ep)
    /\ witness (fst (factor get (mkLDLTMgr (n_ m) p' v' T'))) = Some (m2, ep)
    /\ p m1 = (O, S i) /\ p m2 = (O, S i)
    /\ forall a, (a <= i)%nat -> witness_vec m1 a = witness_vec m2 a.
Proof.
  intros Ok.
  pose proof (factor_old_state get m p' v' T') as A. cbv zeta in A.
  rewrite Ok in A. destruct A as [Aok [Ap AT]].
  symmetry in Aok.
  pose proof (factor_failed _ _ Ok) as Fl.
  pose proof (factor_failed _ _ Aok) as Fl2.
  pose proof (factor_cases get m) as C. cbv zeta in C.
  destruct C as [_ [_ C]].
  assert (Hstart : fst (p (fst (factor get m))) = O).
  { destruct C as [[Hp _] | [r [_ [Hp _]]]]; rewrite Hp; reflexivity. }
  destruct (witness_of_failed _ _ Fl)
    as [m1 [e1 [W1 [_ [Hp1 [_ [V1 [R1 [_ [He1 _]]]]]]]]]].
  destruct (witness_of_failed _ _ Fl2)
    as [m2 [e2 [W2 [_ [Hp2 [_ [V2 [R2 [_ [He2 _]]]]]]]]]].
  destruct Fl as [i [Hstop _]]. clear Fl2.
  rewrite <- Ap in *. rewrite Hstart, Hstop in *.
  replace (S i - 1)%nat with i in * by lia.
  assert (He : e2 = e1).
  { rewrite He1, He2. f_equal. symmetry. apply AT; lia. }
  rewrite He in W2.
  exists i, m1, m2, e1.
  split; [exact W1|]. split; [exact W2|].
  split; [rewrite Hp1; apply injective_projections; assumption|].
  split; [rewrite Hp2; apply injective_projections; assumption|].
  intros a Ha.
  apply (wvec_agree (T (fst (factor get m)))
           (T (fst (factor get (mkLDLTMgr (n_ m) p' v' T'))))
           (witness_vec m1) (witness_vec m2) 0 i); try assumption.
  - intros x y Hx Hy. apply AT; lia.
  - lia.
Qed.

(** X2.  What [LDLTMgr::factor] returns and records, and what
    [witness()] computes after it, do not depend on what the manager held
    before the call.  For the same accessor and the same [_n], any
    previous range [p], vector [witness_vec] and workspace [T] give the
    same flag, the same range and the same workspace on the block of the
    rows that were processed (all [_n] rows on success, the rows below
    [stop] on failure); after a failure [witness()] returns the same value
    and leaves the same vector on the range [[start, stop)]. *)
Theorem factor_ignores_old_state get (m : LDLTMgr)
        (p' : nat * nat) (v' : Vec) (T' : Mat) :
  let r1 := factor get m in
  let r2 := factor get (mkLDLTMgr (n_ m) p' v' T') in
  let k := if snd r1 then n_ m else snd (p (fst r1)) in
  snd r1 = snd r2
  /\ p (fst r1) = p (fst r2)
  /\ (forall a b, (a < k)%nat -> (b < k)%nat ->
        T (fst r1) a b = T (fst r2) a b)
  /\ (snd r1 = false ->
      exists m1 m2 ep,
        witness (fst r1) = Some (m1, ep)
        /\ witness (fst r2) = Some (m2, ep)
        /\ p m1 = p (fst r1) /\ p m2 = p (fst r1)
        /\ forall a, (fst (p m1) <= a < snd (p m1))%nat ->
             witness_vec m1 a = witness_vec m2 a).
Proof.
  cbv zeta.
  destruct (factor_old_state get m p' v' T') as [A1 [A2 A3]].
  split; [exact A1|]. split; [exact A2|]. split; [exact A3|].
  intros Ok.
  destruct (witness_old_state get m p' v' T' Ok)
    as [i [m1 [m2 [ep [W1 [W2 [P1 [P2 Hv]]]]]]]].
  exists m1, m2, ep.
  assert (Hp : p (fst (factor get m)) = (O, S i)).
  { pose proof (factor_failed _ _ Ok) as Fl.
    destruct (witness_of_failed _ _ Fl) as [m1' [e1 [W1' [_ [Hp1 _]]]]].
    rewrite W1 in W1'. injection W1' as <- <-. congruence. }
  split; [exact W1|]. split; [exact W2|].
  split; [congruence|]. split; [congruence|].
  intros a Ha. rewrite P1 in Ha. cbn [fst snd] in Ha. apply Hv. lia.
Qed.

(** While no pivot is zero the semidefinite rows are the rows of
    [factor]. *)
Lemma sd_rows_rows get (T0 : Mat) :
  forall k, (forall r, (r < k)%nat -> pivot get T0 r <> 0) ->
    sd_rows get k T0 = (O, rows get k T0).
Proof.
  induction k as [|k IH]; intros Hnz; [reflexivity|].
  cbn [sd_rows]. rewrite IH by (intros; apply Hnz; lia).
  rewrite rows_S.
  cbn [rows]. rewrite rows_S. cbn [fst].
  destruct (Qceqb (pivot get T0 k) 0) eqn:E; [|reflexivity].
  apply Qceqb_true in E. exfalso. exact (Hnz k ltac:(lia) E).
Qed.

Lemma sd_pivot_pivot get (T0 : Mat) (k : nat) :
  (forall r, (r < k)%nat -> pivot get T0 r <> 0) ->
  sd_pivot get T0 k = pivot get T0 k.
Proof.
  intros Hnz. unfold sd_pivot, pivot. rewrite sd_rows_rows by exact Hnz.
  reflexivity.
Qed.

Lemma mgr_eq (m1 m2 : LDLTMgr) :
  n_ m1 = n_ m2 -> p m1 = p m2 -> witness_vec m1 = witness_vec m2 ->
  T m1 = T m2 -> m1 = m2.
Proof. destruct m1, m2; cbn; intros; subst; reflexivity. Qed.

(** X3.  On a matrix that [LDLTMgr::factor] accepts,
    [factor_with_allow_semidefinte] does the same: it returns true and
    leaves the manager in the same state (range, workspace and vector). *)
Theorem factor_with_allow_semidefinte_agrees get (m : LDLTMgr) :
  snd (factor get m) = true ->
  factor_with_allow_semidefinte get m = factor get m.
Proof.
  intros Ok.
  pose proof (factor_cases get m) as C1.
  pose proof (factor_sd_cases get m) as C2.
  cbv zeta in C1, C2.
  destruct C1 as [N1 [V1 C1]], C2 as [N2 [V2 C2]].
  assert (F1 : snd (factor get m) = is_spd (fst (factor get m)))
    by reflexivity.
  destruct C1 as [[P1 [E1 Pos1]] | [r1 [R1 [P1 _]]]].
  2:{ rewrite F1 in Ok. unfold is_spd in Ok. rewrite P1 in Ok.
      discriminate. }
  assert (Hnz : forall r, (r < n_ m)%nat -> pivot get (T m) r <> 0).
  { intros r Hr E. specialize (Pos1 r Hr). rewrite E in Pos1.
    apply Qclt_not_eq in Pos1. congruence. }
  assert (E : fst (factor_with_allow_semidefinte get m)
              = fst (factor get m)).
  { destruct C2 as [[P2 [E2 _]] | [r2 [R2 [_ [_ [Neg2 _]]]]]].
    - apply mgr_eq; [congruence | | congruence |].
      + rewrite P1, P2. rewrite sd_rows_rows by exact Hnz. reflexivity.
      + rewrite E1, E2. rewrite sd_rows_rows by exact Hnz. reflexivity.
    - exfalso. rewrite sd_pivot_pivot in Neg2 by (intros; apply Hnz; lia).
      specialize (Pos1 r2 R2).
      exact (Qclt_not_le _ _ Pos1 (Qclt_le_weak _ _ Neg2)). }
  assert (F2 : snd (factor_with_allow_semidefinte get m)
               = is_spd (fst (factor_with_allow_semidefinte get m)))
    by reflexivity.
  rewrite (surjective_pairing (factor_with_allow_semidefinte get m)).
  rewrite (surjective_pairing (factor get m)).
  rewrite F2, F1, E. reflexivity.
Qed.

(** The statement of X3 on [[2 1] [1 2]]. *)
Lemma factor_with_allow_semidefinte_agrees_witness :
  factor_with_allow_semidefinte getP (mgr0 2) = factor getP (mgr0 2).
Proof.
  apply (factor_with_allow_semidefinte_agrees getP (mgr0 2)).
  vm_compute. reflexivity.
Defined.

(** A zero diagonal restarts at every row. *)
Lemma sd_rows_zero_diag get (T0 : Mat) :
  forall k, (forall i, (i < k)%nat -> get i i = 0) ->
    fst (sd_rows get k T0) = k
    /\ forall i, (i < k)%nat -> sd_pivot get T0 i = 0.
Proof.
  induction k as [|k IH]; intros Hz.
  - split; [reflexivity | intros; lia].
  - destruct IH as [Hs Hp]; [intros; apply Hz; lia|].
    assert (Hk : sd_pivot get T0 k = 0).
    { unfold sd_pivot. rewrite Hs. rewrite factor_row_restart. cbn [snd].
      apply Hz; lia. }
    split.
    + destruct (sd_rows_S get T0 k) as [_ E]. rewrite E, Hk.
      replace (Qceqb 0 0) with true; [lia|].
      symmetry. apply Qceqb_true. reflexivity.
    + intros i Hi.
      destruct (Nat.eq_dec i k) as [->|]; [exact Hk | apply Hp; lia].
Qed.

(** X4.  [factor_with_allow_semidefinte] accepts every matrix whose
    diagonal is zero, whatever stands off the diagonal: each row finds the
    pivot [0] and restarts the factorisation at the next row, so that the
    call returns true with [start = _n] and no stop recorded.  A true
    answer therefore does not say that the matrix is positive
    semidefinite. *)
Theorem factor_with_allow_semidefinte_zero_diagonal get (m : LDLTMgr) :
  (forall i, (i < n_ m)%nat -> get i i = 0) ->
  snd (factor_with_allow_semidefinte get m) = true
  /\ p (fst (factor_with_allow_semidefinte get m)) = (n_ m, O).
Proof.
  intros Hz.
  pose proof (factor_sd_cases get m) as C. cbv zeta in C.
  destruct (sd_rows_zero_diag get (T m) (n_ m) Hz) as [Hs Hp].
  assert (F : snd (factor_with_allow_semidefinte get m)
               = is_spd (fst (factor_with_allow_semidefinte get m)))
    by reflexivity.
  rewrite F. unfold is_spd.
  destruct C as [_ [_ [[P [_ _]] | [r [R [_ [_ [Neg _]]]]]]]].
  - rewrite P, Hs. split; reflexivity.
  - exfalso. rewrite (Hp r R) in Neg.
    revert Neg. apply Qcle_not_lt, Qcle_refl.
Qed.

(** The statement of X4 on the indefinite [[0 1] [1 0]]. *)
Lemma factor_with_allow_semidefinte_zero_diagonal_witness :
  snd (factor_with_allow_semidefinte getZ (mgr0 2)) = true
  /\ p (fst (factor_with_allow_semidefinte getZ (mgr0 2))) = (2%nat, O).
Proof.
  apply (factor_with_allow_semidefinte_zero_diagonal getZ (mgr0 2)).
  intros i _. unfold getZ. rewrite Nat.eqb_refl. reflexivity.
Defined.

End LDLTMore.

(** ** The LMI oracle *)

Module LmiFacts.
Import Scalar ScalarFacts LDLT LDLTFacts LDLTMore Definite Lmi.
Local Open Scope Qc_scope.

Lemma sumr_lin (c : Qc) (f g : nat -> Qc) (lo hi : nat) :
  sumr lo hi (fun k => f k + c * g k) = sumr lo hi f + c * sumr lo hi g.
Proof.
  unfold sumr. rewrite <- sum_cnt_scale.
  rewrite <- sum_cnt_plus. reflexivity.
Qed.

Lemma quad_form_mat_ext (A B : Mat) (v : Vec) (lo hi : nat) :
  (forall i j, (lo <= i < hi)%nat -> (lo <= j < hi)%nat -> A i j = B i j) ->
  quad_form A v lo hi = quad_form B v lo hi.
Proof.
  intros E. unfold quad_form.
  apply sumr_ext. intros i Hi. apply sumr_ext. intros j Hj.
  rewrite (E i j Hi Hj). reflexivity.
Qed.

Lemma quad_form_sub_scaled (A B : Mat) (c : Qc) (v : Vec) (lo hi : nat) :
  quad_form (fun i j => A i j - B i j * c) v lo hi
  = quad_form A v lo hi - c * quad_form B v lo hi.
Proof.
  unfold quad_form.
  rewrite (sumr_ext _
    (fun i => sumr lo hi (fun j => v i * A i j * v j)
              + (- c) * sumr lo hi (fun j => v i * B i j * v j))).
  - rewrite sumr_lin. ring.
  - intros i _. rewrite <- sumr_lin. apply sumr_ext. intros j _. ring.
Qed.

Lemma sym_symmetric (M : Mat) :
  symmetric M -> forall i j, sym M i j = M i j.
Proof.
  intros Sy i j. unfold sym.
  destruct (j <=? i)%nat; [reflexivity | apply Sy].
Qed.

(** The quadratic form of the matrix that [getA] reads is affine in
    [x]. *)
Lemma quad_form_getA_loop (F : list Mat) (x : Arr) (v : Vec) (lo hi : nat) :
  forall cnt k (A : Mat),
    quad_form (sym (fun i j => getA_loop F x i j cnt k (A i j))) v lo hi
    = quad_form (sym A) v lo hi
      - sum_cnt cnt k
          (fun t => nth t x 0 * quad_form (sym (nth t F zeroM)) v lo hi).
Proof.
  induction cnt as [|c IH]; intros k A; cbn [getA_loop sum_cnt].
  - assert (E : forall q : Qc, q = q - 0) by (intros; ring). apply E.
  - rewrite (IH (S k) (fun i j => A i j - nth k F zeroM i j * nth k x 0)).
    rewrite (quad_form_mat_ext
               (sym (fun i j => A i j - nth k F zeroM i j * nth k x 0))
               (fun i j => sym A i j - sym (nth k F zeroM) i j * nth k x 0)).
    + rewrite quad_form_sub_scaled. ring.
    + intros i j _ _. unfold sym. destruct (j <=? i)%nat; reflexivity.
Qed.

Lemma quad_form_getA (o : LmiOracle) (x : Arr) (v : Vec) (lo hi : nat) :
  quad_form (sym (getA o x)) v lo hi
  = quad_form (sym (_F0 o)) v lo hi
    - sumr 0 (length x)
        (fun t => nth t x 0
                  * quad_form (sym (nth t (_F o) zeroM)) v lo hi).
Proof.
  unfold getA, sumr. rewrite Nat.sub_0_r.
  apply (quad_form_getA_loop (_F o) x v lo hi (length x) 0 (_F0 o)).
Qed.

Lemma length_arr_set (g : Arr) :
  forall i x, length (arr_set g i x) = length g.
Proof.
  induction g as [|y g IH]; intros [|i] x; cbn; try reflexivity.
  rewrite IH. reflexivity.
Qed.

Lemma nth_arr_set (g : Arr) :
  forall i x k, (i < length g)%nat ->
    nth k (arr_set g i x) 0 = if (k =? i)%nat then x else nth k g 0.
Proof.
  induction g as [|y g IH]; intros [|i] x [|k] Hi; cbn in *; try lia;
    try reflexivity.
  apply IH. lia.
Qed.

Lemma g_loop_spec (mq : LDLTMgr) (F : list Mat) :
  forall cnt i g, (i + cnt <= length g)%nat ->
    length (g_loop mq F cnt i g) = length g
    /\ forall k,
         nth k (g_loop mq F cnt i g) 0
         = if ((i <=? k) && (k <? i + cnt))%nat
           then sym_quad mq (nth k F zeroM) else nth k g 0.
Proof.
  induction cnt as [|c IH]; intros i g Hlen; cbn [g_loop].
  - split; [reflexivity|]. intros k.
    destruct (Nat.leb_spec i k), (Nat.ltb_spec k (i + 0)); cbn; try lia;
      reflexivity.
  - destruct (IH (S i) (arr_set g i (sym_quad mq (nth i F zeroM))))
      as [L N].
    { rewrite length_arr_set. lia. }
    rewrite length_arr_set in L. split; [exact L|].
    intros k. rewrite N. rewrite nth_arr_set by lia.
    destruct (Nat.leb_spec (S i) k), (Nat.ltb_spec k (S i + c)),
      (Nat.leb_spec i k), (Nat.ltb_spec k (i + S c)), (Nat.eqb_spec k i);
      cbn; try lia; try reflexivity.
    subst k. reflexivity.
Qed.

(** What [assess_feas] does, by the outcome of the factorisation. *)
Lemma assess_feas_cases (o : LmiOracle) (x : Arr) :
  let r := factor (getA o x) (_mq o) in
  (snd r = true
   /\ assess_feas o x
      = Some (mkLmiOracle (fst r) (_F o) (_F0 o) (cut o), None))
  \/ (snd r = false
      /\ exists mq2 ep,
           witness (fst r) = Some (mq2, ep)
           /\ assess_feas o x
              = Some (mkLmiOracle mq2 (_F o) (_F0 o)
                        (g_loop mq2 (_F o) (length x) 0 x, ep),
                      Some (g_loop mq2 (_F o) (length x) 0 x, ep))).
Proof.
  cbv zeta. unfold assess_feas.
  destruct (factor (getA o x) (_mq o)) as [mq1 ok] eqn:E.
  cbn [fst snd]. destruct ok; [left; split; reflexivity|right].
  split; [reflexivity|].
  assert (Fl : failed (getA o x) mq1).
  { replace mq1 with (fst (factor (getA o x) (_mq o)))
      by (rewrite E; reflexivity).
    apply factor_failed. rewrite E. reflexivity. }
  destruct (witness_of_failed _ _ Fl) as [m' [ep [W _]]].
  exists m', ep. rewrite W. split; reflexivity.
Qed.

Lemma assess_feas_outcome (o : LmiOracle) (x : Arr) :
  exists o' r,
    assess_feas o x = Some (o', r)
    /\ (r = None <-> snd (factor (getA o x) (_mq o)) = true)
    /\ _F o' = _F o /\ _F0 o' = _F0 o /\ n_ (_mq o') = n_ (_mq o).
Proof.
  pose proof (factor_cases (getA o x) (_mq o)) as C. cbv zeta in C.
  destruct C as [Hn _].
  destruct (assess_feas_cases o x) as [[Ok E] | [Ok [mq2 [ep [W E]]]]].
  - eexists. exists None. split; [exact E|].
    split; [|cbn; auto].
    split; [intros _; exact Ok | reflexivity].
  - eexists. eexists. split; [exact E|].
    split.
    + split; [discriminate | congruence].
    + cbn [_F _F0 _mq].
      pose proof (factor_failed _ _ Ok) as Fl.
      destruct (witness_of_failed _ _ Fl) as [m' [ep' [W' [Hn' _]]]].
      rewrite W in W'. injection W' as -> ->.
      split; [reflexivity|]. split; [reflexivity|]. congruence.
Qed.

(** What a returned cut is made of. *)
Lemma cut_facts (o o' : LmiOracle) (x g : Arr) (beta : Qc) :
  assess_feas o x = Some (o', Some (g, beta)) ->
  let v := witness_vec (_mq o') in
  let stop := snd (p (_mq o')) in
  cut o' = (g, beta)
  /\ length g = length x
  /\ (forall k, (k < length x)%nat ->
        nth k g 0 = quad_form (nth k (_F o) zeroM) v 0 stop)
  /\ fst (p (_mq o')) = O
  /\ (0 < stop <= n_ (_mq o))%nat
  /\ v (stop - 1)%nat = 1
  /\ beta = - quad_form (sym (getA o x)) v 0 stop
  /\ 0 <= beta.
Proof.
  intros E. cbv zeta.
  destruct (assess_feas_cases o x) as [[Ok E'] | [Ok [mq2 [ep [W E']]]]];
    rewrite E in E'; [discriminate|].
  injection E' as -> -> ->. cbn [cut _mq].
  pose proof (factor_failed _ _ Ok) as Fl.
  pose proof (factor_cases (getA o x) (_mq o)) as C. cbv zeta in C.
  destruct C as [Hn [_ C]].
  assert (Hstart : fst (p (fst (factor (getA o x) (_mq o)))) = O).
  { destruct C as [[Hp _] | [r [_ [Hp _]]]]; rewrite Hp; reflexivity. }
  destruct (witness_of_failed _ _ Fl)
    as [m' [ep' [W' [_ [Hp [_ [V1 [_ [_ [Hep HQ]]]]]]]]]].
  rewrite W in W'. injection W' as <- <-.
  destruct Fl as [i [Hstop [_ [Hi [_ [_ Hle]]]]]].
  rewrite Hp, Hstart, Hstop. cbn [snd].
  rewrite Hstart, Hstop in HQ. rewrite Hstop in V1, Hep.
  replace (S i - 1)%nat with i in * by lia.
  destruct (g_loop_spec mq2 (_F o) (length x) 0 x ltac:(lia)) as [L N].
  split; [reflexivity|]. split; [exact L|].
  split.
  { intros k Hk. rewrite N.
    destruct (Nat.leb_spec 0 k), (Nat.ltb_spec k (0 + length x)); cbn;
      try lia.
    unfold sym_quad. rewrite Hp, Hstart, Hstop. reflexivity. }
  split; [reflexivity|]. split; [lia|]. split; [exact V1|].
  split; [rewrite HQ; ring|].
  rewrite Hep. apply Qcopp_nonneg. exact Hle.
Qed.

Lemma Forall_symmetric_nth (F : list Mat) :
  Forall symmetric F -> forall k, symmetric (nth k F zeroM).
Proof.
  intros HF k. destruct (Nat.lt_ge_cases k (length F)) as [L|L].
  - rewrite Forall_forall in HF. apply HF. apply nth_In. exact L.
  - rewrite nth_overflow by exact L. intros i j. reflexivity.
Qed.

End LmiFacts.

(** ** More on the drivers *)

Module DriverFacts.
Import Config CuttingPlane CuttingPlaneSpec CuttingPlaneFacts.

Section More.
Context {Oracle Space Arr Cut Num Tea : Type}.
Context {NL : NumLt Num} {DA : DefaultArr Arr}
        {SS : SearchSpace Space Arr Cut Num}.

(** A property of the oracle that every call keeps holds of the oracle
    [cutting_plane_feas] hands back; a feasible report comes from a null
    answer at the centre of the space handed back. *)
Lemma feas_loop_accepts {OF : OracleFeas Oracle Arr Cut}
      (options : Options Num) (I : Oracle -> Prop) :
  (forall o x, I o -> I (fst (assess_feas o x))) ->
  forall fuel niter omega space,
    I omega ->
    let r := feas_loop options fuel niter omega space in
    I (fst (fst r))
    /\ (feasible (snd r) = true ->
        exists omega0,
          I omega0
          /\ assess_feas omega0 (xc (snd (fst r))) = (fst (fst r), None)).
Proof.
  intros HI.
  induction fuel as [|fuel IH]; intros niter omega space Io; cbv zeta.
  - cbn. split; [exact Io | discriminate].
  - cbn [feas_loop].
    pose proof (HI omega (xc space) Io) as I1.
    destruct (assess_feas omega (xc space)) as [omega1 [c|]] eqn:E.
    + destruct (update space c) as [space1 cutstatus].
      destruct (no_more options cutstatus space1).
      * cbn. split; [exact I1 | discriminate].
      * apply IH. exact I1.
    + cbn. split; [exact I1|]. intros _.
      exists omega. split; [exact Io|exact E].
Qed.

(** What [cutting_plane_optim] hands back is what the oracle said last:
    [I] and [J] are properties of the oracle and of [tea] that every call
    keeps, [Good x t] is what a call that reports [shrunk] at [x] says
    about the [tea] it leaves. *)
Lemma optim_loop_best {OO : OracleOptim Oracle Arr Cut Tea}
      (options : Options Num) (I : Oracle -> Prop) (J : Tea -> Prop)
      (Good : Arr -> Tea -> Prop) (tea0 : Tea) :
  (forall o x t o' t' c s,
      I o -> J t -> assess_optim o x t = (o', t', (c, s)) ->
      I o' /\ J t' /\ (s = true -> Good x t') /\ (s = false -> t' = t)) ->
  forall fuel niter omega space tea xb,
    I omega -> J tea ->
    (xb = arr_default /\ tea = tea0) \/ Good xb tea ->
    let r := optim_loop options fuel niter omega space tea xb in
    I (out_omega r) /\ J (out_tea r)
    /\ ((out_x_best r = arr_default /\ out_tea r = tea0)
        \/ Good (out_x_best r) (out_tea r)).
Proof.
  intros HO.
  induction fuel as [|fuel IH]; intros niter omega space tea xb Io Jt G;
    cbv zeta.
  - cbn. split; [|split]; assumption.
  - cbn [optim_loop].
    destruct (assess_optim omega (xc space) tea)
      as [[omega1 tea1] [c s]] eqn:E.
    destruct (HO _ _ _ _ _ _ _ Io Jt E) as [I1 [J1 [G1 K1]]].
    assert (G' : ((if s then xc space else xb) = arr_default
                  /\ tea1 = tea0)
                 \/ Good (if s then xc space else xb) tea1).
    { destruct s.
      - right. apply G1. reflexivity.
      - rewrite (K1 eq_refl). exact G. }
    destruct s; destruct (update space c) as [space1 cutstatus];
      destruct (no_more options cutstatus space1);
      first [ apply IH; assumption | cbn; split; [|split]; assumption ].
Qed.

(** The same for [cutting_plane_q], where the point recorded is the [x0]
    of the oracle. *)
Lemma q_loop_best {OQ : OracleQ Oracle Arr Cut Tea}
      (options : Options Num) (Good : Arr -> Tea -> Prop) (tea0 : Tea) :
  (forall o x t retry o' t' c s x0 m,
      assess_q o x t retry = (o', t', (c, s, x0, m)) ->
      (s = true -> Good x0 t') /\ (s = false -> t' = t)) ->
  forall fuel niter omega space tea xb status retry,
    (xb = arr_default /\ tea = tea0) \/ Good xb tea ->
    let r := q_loop options fuel niter omega space tea xb status retry in
    (out_x_best r = arr_default /\ out_tea r = tea0)
    \/ Good (out_x_best r) (out_tea r).
Proof.
  intros HO.
  induction fuel as [|fuel IH];
    intros niter omega space tea xb status retry G; cbv zeta.
  - cbn. exact G.
  - cbn [q_loop].
    destruct (assess_q omega (xc space) tea retry)
      as [[omega1 tea1] [[[c s] x0] m]] eqn:E.
    destruct (HO _ _ _ _ _ _ _ _ _ _ E) as [G1 K1].
    assert (G' : ((if s then x0 else xb) = arr_default /\ tea1 = tea0)
                 \/ Good (if s then x0 else xb) tea1).
    { destruct s.
      - right. apply G1. reflexivity.
      - rewrite (K1 eq_refl). exact G. }
    destruct (update space c) as [space1 cutstatus].
    destruct (CutStatus_eqb cutstatus NoEffect).
    + destruct (negb m); [exact G'|].
      destruct (num_ltb (tsq space1) (tol options)); [exact G'|].
      apply IH. exact G'.
    + destruct (CutStatus_eqb cutstatus NoSoln); [exact G'|].
      destruct (num_ltb (tsq space1) (tol options)); [exact G'|].
      apply IH. exact G'.
Qed.

(** One call of [assess_bs] on the adaptor. *)
Lemma adaptor_call {OF : OracleFeas Oracle Arr Cut}
      {OU : OracleUpdate Oracle Tea}
      (a : bsearch_adaptor Oracle Space Num) (tea : Tea) :
  (forall (s : Space) (v : Arr), xc (set_xc s v) = v) ->
  let r := adaptor_assess_bs a tea in
  (snd r = true ->
   exists omega0,
     assess_feas omega0 (x_best (fst r)) = (_omega (fst r), None))
  /\ (snd r = false -> _space (fst r) = _space a).
Proof.
  intros Law. cbv zeta. unfold adaptor_assess_bs, cutting_plane_feas.
  pose proof (feas_loop_accepts (_options a) (fun _ => True)
                (fun _ _ _ => I) (max_iter (_options a)) 0
                (oracle_update (_omega a) tea) (copy (_space a)) I) as H.
  cbv zeta in H.
  destruct (feas_loop _ _ _ _ _) as [[omega2 space'] info].
  cbn [fst snd] in H. destruct H as [_ H].
  destruct (feasible info); cbn [fst snd]; (split; [|intros E]);
    try discriminate; try reflexivity.
  intros _. destruct (H eq_refl) as [omega0 [_ E0]].
  exists omega0. unfold x_best. cbn [_space _omega]. rewrite Law. exact E0.
Qed.

End More.

End DriverFacts.

Module LmiProofs.
Import Config Scalar ScalarFacts LDLT LDLTFacts LDLTMore Definite.
Import CuttingPlane Lmi LmiFacts DriverFacts LmiExample.
Local Open Scope Qc_scope.

(** X5.  [LmiOracle::assess_feas] never fails the assertion of
    [witness()], and it returns the null pointer exactly when the matrix
    [F0 - sum_k x[k] F[k]], as read from its lower triangle, is positive
    definite.  The call leaves [_F], [_F0] and the dimension of the manager
    as they were. *)
Theorem assess_feas_null_iff_pos_def (o : LmiOracle) (x : Arr) :
  exists o' r,
    assess_feas o x = Some (o', r)
    /\ (r = None <-> pos_def (sym (getA o x)) (n_ (_mq o)))
    /\ _F o' = _F o /\ _F0 o' = _F0 o /\ n_ (_mq o') = n_ (_mq o).
Proof.
  destruct (assess_feas_outcome o x) as [o' [r [E [Iff Fr]]]].
  exists o', r. split; [exact E|]. split; [|exact Fr].
  rewrite Iff. split.
  - apply factor_true_pos_def.
  - intros PD.
    destruct (snd (factor (getA o x) (_mq o))) eqn:Ok; [reflexivity|].
    exfalso. exact (factor_false_not_pos_def _ _ Ok PD).
Qed.

(** X6.  A cut [(g, beta)] that [assess_feas] returns is the oracle's own
    [cut] member, [g] has as many components as [x], and [beta] is the
    value of [witness()]: it is not negative and equals [- v' A v] for the
    matrix [A] of the call and the witness vector [v] left in the manager,
    taken over the recorded range, at whose last index [v] is [1]. *)
Theorem assess_feas_cut_shape (o o' : LmiOracle) (x g : Arr) (beta : Qc) :
  assess_feas o x = Some (o', Some (g, beta)) ->
  cut o' = (g, beta)
  /\ length g = length x
  /\ 0 <= beta
  /\ beta = - quad_form (sym (getA o x)) (witness_vec (_mq o'))
                (fst (p (_mq o'))) (snd (p (_mq o')))
  /\ witness_vec (_mq o') (snd (p (_mq o')) - 1)%nat = 1.
Proof.
  intros E. pose proof (cut_facts o o' x g beta E) as C. cbv zeta in C.
  destruct C as [C1 [C2 [_ [C4 [_ [C6 [C7 C8]]]]]]].
  rewrite C4. auto.
Qed.

(** The statement of X6 for [1 - x >= 0] at [x = 2]. *)
Lemma assess_feas_cut_shape_witness :
  cut lmi1_after = (qc 1 1 :: nil, qc 1 1)
  /\ 0 <= qc 1 1
  /\ witness_vec (_mq lmi1_after) (snd (p (_mq lmi1_after)) - 1)%nat = 1.
Proof.
  destruct (assess_feas_cut_shape lmi1 lmi1_after (qc 2 1 :: nil)
              (qc 1 1 :: nil) (qc 1 1)) as [H1 [_ [H2 [_ H3]]]].
  - vm_compute. reflexivity.
  - split; [exact H1|]. split; [exact H2 | exact H3].
Defined.

(** X7.  A cut [(g, beta)] that [assess_feas] returns at [x] keeps every
    solution: when the matrices [F[k]] are symmetric, every [z] of the
    size of [x] at which [F0 - sum_k z[k] F[k]] is positive semidefinite
    satisfies [g' (z - x) + beta <= 0].  ([sym_quad] is taken to compute
    [v' M v] over the recorded range.) *)
Theorem assess_feas_cut_valid (o o' : LmiOracle) (x g : Arr) (beta : Qc) :
  assess_feas o x = Some (o', Some (g, beta)) ->
  Forall symmetric (_F o) ->
  forall z : Arr, length z = length x ->
    pos_semidef (sym (getA o z)) (n_ (_mq o)) ->
    slope g z x + beta <= 0.
Proof.
  intros E HF z Hz PSD.
  pose proof (cut_facts o o' x g beta E) as C. cbv zeta in C.
  destruct C as [_ [_ [Hg [_ [Hstop [_ [Hb _]]]]]]].
  set (v := witness_vec (_mq o')) in *.
  set (stop := snd (p (_mq o'))) in *.
  set (w := fun a : nat => if (a <? stop)%nat then v a else 0).
  specialize (PSD w).
  rewrite (quad_form_restrict _ w 0 stop) in PSD; [| lia | lia |].
  2:{ intros a [Ha|Ha]; [lia|]. unfold w.
      destruct (Nat.ltb_spec a stop); [lia|reflexivity]. }
  rewrite (quad_form_ext _ w v 0 stop) in PSD.
  2:{ intros a Ha. unfold w.
      destruct (Nat.ltb_spec a stop); [reflexivity|lia]. }
  rewrite quad_form_getA in PSD. rewrite quad_form_getA in Hb.
  rewrite Hz in PSD.
  assert (Hs : slope g z x
               = sumr 0 (length x)
                   (fun t => nth t z 0
                             * quad_form (sym (nth t (_F o) zeroM)) v 0 stop)
                 - sumr 0 (length x)
                   (fun t => nth t x 0
                             * quad_form (sym (nth t (_F o) zeroM)) v 0 stop)).
  { unfold slope.
    rewrite (sumr_ext _
      (fun t => nth t z 0 * quad_form (sym (nth t (_F o) zeroM)) v 0 stop
                + (- (1))
                  * (nth t x 0
                     * quad_form (sym (nth t (_F o) zeroM)) v 0 stop))).
    - rewrite sumr_lin. ring.
    - intros k Hk. rewrite Hg by lia.
      rewrite (quad_form_mat_ext (sym (nth k (_F o) zeroM))
                 (nth k (_F o) zeroM)).
      + ring.
      + intros i j _ _. apply sym_symmetric, Forall_symmetric_nth, HF. }
  rewrite Hs, Hb.
  revert PSD.
  generalize (quad_form (sym (_F0 o)) v 0 stop).
  generalize (sumr 0 (length x)
    (fun t => nth t z 0 * quad_form (sym (nth t (_F o) zeroM)) v 0 stop)).
  generalize (sumr 0 (length x)
    (fun t => nth t x 0 * quad_form (sym (nth t (_F o) zeroM)) v 0 stop)).
  intros a b c H. to_Q. Lqa.lra.
Qed.

(** The statement of X7 for [1 - x >= 0]: the cut returned at [x = 2]
    keeps the solution [z = 0]. *)
Lemma assess_feas_cut_valid_witness :
  slope (qc 1 1 :: nil) (qc 0 1 :: nil) (qc 2 1 :: nil) + qc 1 1 <= 0.
Proof.
  apply (assess_feas_cut_valid lmi1 lmi1_after (qc 2 1 :: nil)
           (qc 1 1 :: nil) (qc 1 1)).
  - vm_compute. reflexivity.
  - constructor; [|constructor]. intros i j. reflexivity.
  - reflexivity.
  - intros v. unfold quad_form, sumr, sym, getA. cbn. unfold one.
    change (qc 0 1) with (Q2Qc 0).
    match goal with
    | |- 0 <= ?e => replace e with (v 0%nat * v 0%nat) by ring
    end.
    apply Qc_sq_nonneg.
Defined.

(** X8.  The answer of [assess_feas] (null, or the cut) depends on [x],
    [_F], [_F0] and the dimension only: whatever an earlier call has left
    in the manager's range, vector and workspace and in the [cut] member,
    the answer is the same. *)
Theorem assess_feas_ignores_old_state (o : LmiOracle) (x : Arr)
      (p' : nat * nat) (v' : Vec) (T' : Mat) (c' : Cut) :
  option_map snd (assess_feas o x)
  = option_map snd
      (assess_feas
         (mkLmiOracle (mkLDLTMgr (n_ (_mq o)) p' v' T') (_F o) (_F0 o) c')
         x).
Proof.
  set (o2 := mkLmiOracle (mkLDLTMgr (n_ (_mq o)) p' v' T')
               (_F o) (_F0 o) c').
  pose proof (factor_old_state (getA o x) (_mq o) p' v' T') as A.
  cbv zeta in A. destruct A as [Aok _].
  pose proof (witness_old_state (getA o x) (_mq o) p' v' T') as Wo.
  change (mkLDLTMgr (n_ (_mq o)) p' v' T') with (_mq o2) in Aok, Wo.
  pose proof (assess_feas_cases o2 x) as C2. cbv zeta in C2.
  change (getA o2 x) with (getA o x) in C2.
  destruct (assess_feas_cases o x) as [[Ok E] | [Ok [mq2 [ep [W E]]]]];
  destruct C2 as [[Ok2 E2] | [Ok2 [mq2' [ep2 [W2 E2]]]]];
    try congruence.
  - rewrite E, E2. reflexivity.
  - rewrite E, E2. cbn [option_map snd].
    destruct (Wo Ok) as [i [m1 [m2 [e [W1 [W1' [P1 [P2 Hv]]]]]]]].
    rewrite W in W1. injection W1 as <- <-.
    rewrite W2 in W1'. injection W1' as <- <-.
    assert (Hg : g_loop mq2 (_F o) (length x) 0 x
                 = g_loop mq2' (_F o2) (length x) 0 x).
    { destruct (g_loop_spec mq2 (_F o) (length x) 0 x ltac:(lia))
        as [L N].
      destruct (g_loop_spec mq2' (_F o2) (length x) 0 x ltac:(lia))
        as [L2 N2].
      apply (nth_ext _ _ 0 0); [congruence|].
      intros k Hk. rewrite N, N2.
      destruct ((0 <=? k)%nat && (k <? 0 + length x)%nat); [|reflexivity].
      unfold sym_quad. rewrite P1, P2. cbn [fst snd].
      apply quad_form_ext. intros a Ha. apply Hv. lia. }
    rewrite Hg. reflexivity.
Qed.

(** X9.  When [cutting_plane_feas] runs on an [LmiOracle] and reports
    [feasible], the centre of the space it hands back is a solution: the
    matrix [F0 - sum_k xc[k] F[k]] is positive definite. *)
Theorem cutting_plane_feas_lmi_sound {Space Num : Type}
        {NL : NumLt Num} {SS : SearchSpace Space Arr Cut Num}
        (o : LmiOracle) (space : Space) (options : Options Num) :
  let r := cutting_plane_feas o space options in
  feasible (snd r) = true ->
  pos_def (sym (getA o (xc (snd (fst r))))) (n_ (_mq o)).
Proof.
  cbv zeta. intros Fe. unfold cutting_plane_feas in *.
  pose proof (feas_loop_accepts options
    (fun o' => _F o' = _F o /\ _F0 o' = _F0 o /\ n_ (_mq o') = n_ (_mq o)))
    as H.
  specialize (H ltac:(
    intros o1 x [H1 [H2 H3]];
    unfold CuttingPlane.assess_feas, LmiOracle_feas;
    destruct (assess_feas_outcome o1 x) as [o2 [r [E [_ [K1 [K2 K3]]]]]];
    rewrite E; cbn [fst]; repeat split; congruence)).
  specialize (H (max_iter options) 0%nat o space
                (conj eq_refl (conj eq_refl eq_refl))).
  cbv zeta in H. destruct H as [_ H].
  set (res := feas_loop options (max_iter options) 0 o space) in *.
  clearbody res.
  destruct (H Fe) as [omega0 [[H1 [H2 H3]] E]].
  unfold CuttingPlane.assess_feas, LmiOracle_feas in E.
  destruct (assess_feas_outcome omega0 (xc (snd (fst res))))
    as [o2 [r [E' [Iff _]]]].
  rewrite E' in E. injection E as _ ->.
  assert (G : getA omega0 = getA o).
  { unfold getA. rewrite H1, H2. reflexivity. }
  rewrite <- G, <- H3.
  apply factor_true_pos_def. apply Iff. reflexivity.
Qed.

(** The statement of X9 for [1 - x >= 0] on the segment [[0, 4]]: two
    cuts lead from [x = 2] over [x = 1] to the solution [x = 1/2]. *)
Lemma cutting_plane_feas_lmi_sound_witness :
  num_iters (snd (cutting_plane_feas lmi1 seg seg_opts)) = 2%nat
  /\ pos_def
       (sym (getA lmi1
               (xc (snd (fst (cutting_plane_feas lmi1 seg seg_opts))))))
       1.
Proof.
  split; [vm_compute; reflexivity|].
  apply (cutting_plane_feas_lmi_sound lmi1 seg seg_opts).
  vm_compute. reflexivity.
Defined.

End LmiProofs.

(** ** More on the bisection *)

Module BsearchMore.
Import Config Scalar ScalarFacts CuttingPlane Bsearch BsearchFacts.
Import BsearchVocabulary BsearchExample.
Local Open Scope Qc_scope.

Lemma mid_lt (l u : Qc) : l < u -> l + (u - l) / qc 2 1 < u.
Proof. intros L. qc_order. Qed.

Lemma mid_gt (l u : Qc) : l < u -> l < l + (u - l) / qc 2 1.
Proof. intros L. qc_order. Qed.

Section Facts.
Context {Oracle : Type} {OB : OracleBS Oracle Qc}.

Lemma bisect_cases (st : Oracle * (Qc * Qc)) :
  let l := fst (snd st) in
  let u := snd (snd st) in
  let m := l + (u - l) / qc 2 1 in
  (bs_accepts st = true /\ snd (bisect st) = (l, m))
  \/ (bs_accepts st = false /\ snd (bisect st) = (m, u)).
Proof.
  destruct st as [omega [l u]]. cbv zeta. unfold bs_accepts, bisect.
  cbn [fst snd].
  destruct (assess_bs omega _) as [omega1 [|]]; cbn [snd]; [left|right];
    split; reflexivity.
Qed.

(** [upper] is only ever assigned an accepted midpoint: when it has
    moved, some earlier midpoint was accepted. *)
Lemma bisect_run_moved (st : Oracle * (Qc * Qc)) :
  forall k,
    snd (snd (bisect_run k st)) <> snd (snd st) ->
    exists j, (j < k)%nat /\ bs_accepts (bisect_run j st) = true.
Proof.
  induction k as [|k IH]; cbn [bisect_run].
  - intros H. now contradiction H.
  - destruct (bisect_cases (bisect_run k st)) as [[A E]|[A E]];
      cbv zeta in E; rewrite E; cbn [fst snd].
    + intros _. exists k. split; [lia | exact A].
    + intros H. destruct (IH H) as [j [Hj Hacc]].
      exists j. split; [lia | exact Hacc].
Qed.

(** On a proper interval every state is a proper interval, and [upper]
    has moved exactly when some earlier midpoint was accepted. *)
Lemma bisect_run_upper (st : Oracle * (Qc * Qc)) :
  fst (snd st) < snd (snd st) ->
  forall k,
    fst (snd (bisect_run k st)) < snd (snd (bisect_run k st))
    /\ snd (snd (bisect_run k st)) <= snd (snd st)
    /\ (snd (snd (bisect_run k st)) <> snd (snd st)
        <-> exists j, (j < k)%nat /\ bs_accepts (bisect_run j st) = true).
Proof.
  intros L. induction k as [|k [IH1 [IH2 IH3]]].
  - cbn [bisect_run]. split; [exact L|]. split; [apply Qcle_refl|].
    split; [intros H; now contradiction H | intros [j [Hj _]]; lia].
  - cbn [bisect_run].
    destruct (bisect_cases (bisect_run k st)) as [[A E]|[A E]];
      cbv zeta in E; rewrite E; cbn [fst snd].
    + pose proof (mid_lt _ _ IH1) as M. pose proof (mid_gt _ _ IH1) as M'.
      split; [exact M'|].
      split; [apply Qclt_le_weak; exact (Qclt_le_trans _ _ _ M IH2)|].
      split.
      * intros _. exists k. split; [lia | exact A].
      * intros _. apply Qclt_not_eq. exact (Qclt_le_trans _ _ _ M IH2).
    + split; [apply mid_lt; exact IH1|]. split; [exact IH2|].
      rewrite IH3. split.
      * intros [j [Hj Hacc]]. exists j. split; [lia | exact Hacc].
      * intros [j [Hj Hacc]]. exists j. split; [|exact Hacc].
        destruct (Nat.eq_dec j k) as [->|]; [congruence | lia].
Qed.

(** What [bsearch] returns, as a number of bisection steps. *)
Lemma bsearch_steps (omega : Oracle) (l u : Qc) (options : Options Qc)
      (res : Oracle * (Qc * Qc) * CInfo) :
  bsearch omega (l, u) options = Some res ->
  l <= u
  /\ fst res = bisect_run (num_iters (snd res)) (omega, (l, u))
  /\ feasible (snd res)
     = negb (Qceqb
               (snd (snd (bisect_run (num_iters (snd res)) (omega, (l, u)))))
               u)
  /\ (num_iters (snd res) <= max_iter options)%nat.
Proof.
  unfold bsearch. cbn [fst snd].
  destruct (Qcleb l u) eqn:L; [|discriminate].
  apply Qcleb_true in L. intros E. injection E as <-.
  destruct (bsearch_loop_spec options (max_iter options) 0 omega l u u
              eq_refl L) as (k & Hk & E & _).
  cbv zeta in E. rewrite E. cbn [fst snd num_iters feasible cinfo Nat.add].
  split; [exact L|]. split; [|split; [reflexivity | exact Hk]].
  destruct (bisect_run k (omega, (l, u))) as [o [l' u']]. reflexivity.
Qed.

(** X15.  When [bsearch] reports [feasible = true] ([upper != u_orig]),
    [assess_bs] accepted the midpoint in one of the iterations it ran:
    [upper] is assigned nowhere else.  Put the other way round, a search
    in which no midpoint is accepted reports [feasible = false]. *)
Theorem bsearch_feasible_accepted (omega : Oracle) (l u : Qc)
        (options : Options Qc) (res : Oracle * (Qc * Qc) * CInfo) :
  bsearch omega (l, u) options = Some res ->
  feasible (snd res) = true ->
  exists j, (j < num_iters (snd res))%nat
    /\ bs_accepts (bisect_run j (omega, (l, u))) = true.
Proof.
  intros E F. destruct (bsearch_steps _ _ _ _ _ E) as [_ [_ [Fe _]]].
  rewrite Fe in F.
  apply (bisect_run_moved (omega, (l, u)) (num_iters (snd res))).
  cbn [fst snd].
  destruct (Qceqb _ u) eqn:Q; cbn [negb] in F; [discriminate|].
  apply Qceqb_false in Q. exact Q.
Qed.

(** X16.  On an interval with [lower = upper], [bsearch] returns the
    interval as it is and reports [feasible = false], whatever the oracle
    answers and whatever the options are: the midpoint is [upper] itself,
    so that [upper] never differs from its original value. *)
Theorem bsearch_degenerate_interval (omega : Oracle) (l : Qc)
        (options : Options Qc) :
  exists res,
    bsearch omega (l, l) options = Some res
    /\ snd (fst res) = (l, l)
    /\ feasible (snd res) = false.
Proof.
  unfold bsearch. cbn [fst snd].
  assert (L : l <= l) by apply Qcle_refl.
  pose proof L as Lb. apply Qcleb_true in Lb. rewrite Lb.
  destruct (bsearch_loop_spec options (max_iter options) 0 omega l l l
              eq_refl L) as (k & _ & E & _ & _ & Q3 & Q4 & Q5).
  cbv zeta in *. eexists. split; [reflexivity|]. rewrite E.
  cbn [fst snd feasible cinfo].
  destruct (bisect_run k (omega, (l, l))) as [o [l' u']].
  cbn [fst snd] in *.
  assert (u' = l) as ->
    by (apply Qcle_antisym; [exact Q5 | exact (Qcle_trans _ _ _ Q3 Q4)]).
  assert (l' = l) as -> by (apply Qcle_antisym; assumption).
  split; [reflexivity|].
  replace (Qceqb l l) with true; [reflexivity|].
  symmetry. apply Qceqb_true. reflexivity.
Qed.

(** For an oracle that the calls do not change and that accepts exactly
    the values from [t] upwards, the interval keeps [t] at its upper
    side. *)
Lemma bisect_run_brackets (omega : Oracle) (t l u : Qc) :
  (forall tea, assess_bs omega tea = (omega, Qcleb t tea)) ->
  l < t -> t <= u ->
  forall k,
    fst (bisect_run k (omega, (l, u))) = omega
    /\ fst (snd (bisect_run k (omega, (l, u)))) < t
    /\ t <= snd (snd (bisect_run k (omega, (l, u)))).
Proof.
  intros HO L U. induction k as [|k [IH1 [IH2 IH3]]].
  - cbn [bisect_run fst snd]. split; [reflexivity|]. split; assumption.
  - cbn [bisect_run].
    destruct (bisect_run k (omega, (l, u))) as [o [lk uk]].
    cbn [fst snd] in *. subst o. unfold bisect. rewrite HO.
    destruct (Qcleb t (lk + (uk - lk) / qc 2 1)) eqn:Q; cbn [fst snd].
    + apply Qcleb_true in Q. split; [reflexivity|]. split; assumption.
    + apply Qcleb_false in Q. split; [reflexivity|]. split; assumption.
Qed.

(** X24.  [bsearch] finds a threshold: for an oracle that the calls do
    not change and whose [assess_bs] accepts exactly the values from [t]
    upwards, started on an interval with [lower < t <= upper], the
    interval returned still has [lower < t <= upper], and [upper] is
    within [2 tol] of [t] unless the iterations ran out
    ([num_iters = max_iter]). *)
Theorem bsearch_brackets_threshold (omega : Oracle) (t l u : Qc)
        (options : Options Qc) (res : Oracle * (Qc * Qc) * CInfo) :
  (forall tea, assess_bs omega tea = (omega, Qcleb t tea)) ->
  l < t -> t <= u ->
  bsearch omega (l, u) options = Some res ->
  fst (snd (fst res)) < t /\ t <= snd (snd (fst res))
  /\ (snd (snd (fst res)) - t < qc 2 1 * tol options
      \/ num_iters (snd res) = max_iter options).
Proof.
  intros HO L U E.
  destruct (bsearch_steps _ _ _ _ _ E) as [Lu [Er [_ Hk]]].
  destruct (bisect_run_brackets omega t l u HO L U (num_iters (snd res)))
    as [_ [B1 B2]].
  rewrite <- Er in B1, B2.
  split; [exact B1|]. split; [exact B2|].
  unfold bsearch in E. cbn [fst snd] in E.
  destruct (Qcleb l u); [|discriminate]. injection E as E.
  destruct (bsearch_loop_spec options (max_iter options) 0 omega l u u
              eq_refl Lu) as (k & Hk' & E' & _ & Q2 & _).
  cbv zeta in *. rewrite E' in E. subst res.
  cbn [fst snd num_iters cinfo] in *.
  destruct (Nat.eq_dec k (max_iter options)) as [->|Ne];
    [right; reflexivity|].
  left. specialize (Q2 ltac:(lia)). unfold narrow in Q2.
  destruct (bisect_run k (omega, (l, u))) as [o [l' u']].
  cbn [fst snd] in *. apply Qcltb_true in Q2.
  apply half_lt in Q2.
  revert Q2 B1. generalize (qc 2 1 * tol options).
  intros w Q2 B1. unfold Qcle, Qclt, Qcminus, Qcplus, Qcopp, Q2Qc in *.
  cbn [this] in *. repeat (rewrite ?Qred_correct in * ). Lqa.lra.
Qed.

End Facts.

(** The statement of X15 on the unit interval, for the threshold
    [1/3]. *)
Lemma bsearch_feasible_accepted_witness :
  exists res,
    bsearch third unit_interval opts = Some res
    /\ exists j, (j < num_iters (snd res))%nat
         /\ bs_accepts (bisect_run j (third, unit_interval)) = true.
Proof.
  destruct (bsearch third unit_interval opts) as [res|] eqn:E.
  - exists res. split; [reflexivity|].
    apply (bsearch_feasible_accepted third (qc 0 1) (qc 1 1) opts res E).
    vm_compute in E. injection E as <-. reflexivity.
  - vm_compute in E. discriminate.
Defined.

(** The statement of X24 for the threshold [1/3] on the unit interval. *)
Lemma bsearch_brackets_threshold_witness :
  exists res,
    bsearch third unit_interval opts = Some res
    /\ fst (snd (fst res)) < third /\ third <= snd (snd (fst res)).
Proof.
  destruct (bsearch third unit_interval opts) as [res|] eqn:E.
  - exists res. split; [reflexivity|].
    destruct (bsearch_brackets_threshold third third (qc 0 1) (qc 1 1)
                opts res) as [H1 [H2 _]].
    + intros tea. reflexivity.
    + unfold Qclt, Qlt. cbn. lia.
    + unfold Qcle, Qle. cbn. lia.
    + exact E.
    + split; assumption.
  - vm_compute in E. discriminate.
Defined.

End BsearchMore.

Module DriverProofs.
Import Config Scalar ScalarFacts CuttingPlane CuttingPlaneSpec.
Import CuttingPlaneFacts DriverFacts.
Import Bsearch BsearchFacts BsearchVocabulary BsearchMore Adaptor.
Import Toy AdaptorExample.

Section AdaptorRun.
Context {Oracle Space Arr Cut Num : Type}.
Context {NL : NumLt Num} {SS : SearchSpace Space Arr Cut Num}.
Context {OF : OracleFeas Oracle Arr Cut} {OU : OracleUpdate Oracle Qc}.

(** Once a midpoint has been accepted, the centre the adaptor reports is a
    point the feasibility oracle accepted. *)
Lemma bisect_run_adaptor (a : bsearch_adaptor Oracle Space Num)
      (l u : Qc) :
  (forall (s : Space) (v : Arr), xc (set_xc s v) = v) ->
  forall k,
    (exists j, (j < k)%nat /\ bs_accepts (bisect_run j (a, (l, u))) = true) ->
    exists omega0 omega1,
      assess_feas omega0 (x_best (fst (bisect_run k (a, (l, u)))))
      = (omega1, None).
Proof.
  intros Law. induction k as [|k IH]; intros [j [Hj Hacc]]; [lia|].
  cbn [bisect_run].
  destruct (bisect_run k (a, (l, u))) as [ak [lk uk]] eqn:Ek.
  pose proof (adaptor_call ak (lk + (uk - lk) / qc 2 1)%Qc Law) as C.
  cbv zeta in C. destruct C as [Cacc Crej].
  unfold bisect. unfold assess_bs, adaptor_bs.
  destruct (adaptor_assess_bs ak (lk + (uk - lk) / qc 2 1)%Qc)
    as [a1 ok] eqn:Ea.
  cbn [fst snd] in *.
  destruct ok; cbn [fst].
  - destruct (Cacc eq_refl) as [omega0 E0]. exists omega0. eexists. exact E0.
  - assert (Hj' : exists j, (j < k)%nat
                    /\ bs_accepts (bisect_run j (a, (l, u))) = true).
    { exists j. split; [|exact Hacc].
      destruct (Nat.eq_dec j k) as [->|]; [|lia].
      exfalso. rewrite Ek in Hacc. unfold bs_accepts in Hacc.
      unfold assess_bs, adaptor_bs in Hacc. rewrite Ea in Hacc.
      discriminate. }
    destruct (IH Hj') as [omega0 [omega1 E0]].
    exists omega0, omega1. unfold x_best in *. cbn [fst] in E0.
    rewrite (Crej eq_refl). exact E0.
Qed.

End AdaptorRun.

Section Theorems.
Context {Oracle Space Arr Cut Num Tea : Type}.
Context {NL : NumLt Num} {DA : DefaultArr Arr}
        {SS : SearchSpace Space Arr Cut Num}.

(** X10.  For an oracle that leaves [tea] alone whenever it does not
    report [shrunk], the pair that [cutting_plane_optim] hands back is
    consistent: either no call reported [shrunk], and then [x_best] is the
    default array and [tea] is the initial one, or [x_best] is a point at
    which [assess_optim] reported [shrunk] and the final [tea] is the
    value that very call left. *)
Theorem cutting_plane_optim_best_consistent
        {OO : OracleOptim Oracle Arr Cut Tea}
        (omega : Oracle) (space : Space) (tea : Tea) (options : Options Num) :
  (forall o x t, snd (snd (assess_optim o x t)) = false ->
                 snd (fst (assess_optim o x t)) = t) ->
  let r := cutting_plane_optim omega space tea options in
  (out_x_best r = arr_default /\ out_tea r = tea)
  \/ exists o0 t0 o1 c,
       assess_optim o0 (out_x_best r) t0 = (o1, out_tea r, (c, true)).
Proof.
  intros HO. cbv zeta. unfold cutting_plane_optim.
  apply (optim_loop_best options (fun _ => True) (fun _ => True)
           (fun x t => exists o0 t0 o1 c,
                         assess_optim o0 x t0 = (o1, t, (c, true))) tea).
  - intros o x t o' t' c s _ _ E.
    split; [exact I|]. split; [exact I|]. split.
    + intros ->. exists o, t, o', c. exact E.
    + intros ->. specialize (HO o x t). rewrite E in HO.
      apply HO. reflexivity.
  - exact I.
  - exact I.
  - left. split; reflexivity.
Qed.

(** X11.  The same for [cutting_plane_q]: for an oracle that leaves [tea]
    alone whenever it does not report [shrunk], either [x_best] is the
    default array and [tea] the initial one, or [x_best] is the point [x0]
    of a call of [assess_q] that reported [shrunk], and the final [tea] is
    the value that call left. *)
Theorem cutting_plane_q_best_consistent
        {OQ : OracleQ Oracle Arr Cut Tea}
        (omega : Oracle) (space : Space) (tea : Tea) (options : Options Num) :
  (forall o x t retry,
      snd (fst (fst (snd (assess_q o x t retry)))) = false ->
      snd (fst (assess_q o x t retry)) = t) ->
  let r := cutting_plane_q omega space tea options in
  (out_x_best r = arr_default /\ out_tea r = tea)
  \/ exists o0 x t0 retry o1 c m,
       assess_q o0 x t0 retry = (o1, out_tea r, (c, true, out_x_best r, m)).
Proof.
  intros HO. cbv zeta. unfold cutting_plane_q. cbv zeta.
  apply (q_loop_best options
           (fun x0 t => exists o0 x t0 retry o1 c m,
                          assess_q o0 x t0 retry = (o1, t, (c, true, x0, m)))
           tea).
  - intros o x t retry o' t' c s x0 m E. split.
    + intros ->. exists o, x, t, retry, o', c, m. exact E.
    + intros ->. specialize (HO o x t retry). rewrite E in HO.
      apply HO. reflexivity.
  - left. split; reflexivity.
Qed.

(** X12.  When [bsearch_adaptor::assess_bs] returns true and the space
    gives back the centre it is set to ([xc] after [set_xc(v)] is [v]),
    the point that [x_best()] reports afterwards is one at which
    [assess_feas] gave the null answer, the oracle being left as that call
    left it. *)
Theorem adaptor_x_best_accepted
        {OF : OracleFeas Oracle Arr Cut} {OU : OracleUpdate Oracle Tea}
        (a a' : bsearch_adaptor Oracle Space Num) (tea : Tea) :
  (forall (s : Space) (v : Arr), xc (set_xc s v) = v) ->
  adaptor_assess_bs a tea = (a', true) ->
  exists omega0, assess_feas omega0 (x_best a') = (_omega a', None).
Proof.
  intros Law E.
  pose proof (adaptor_call a tea Law) as C. cbv zeta in C.
  rewrite E in C. cbn [fst snd] in C. apply C. reflexivity.
Qed.

End Theorems.

(** X13.  When [bsearch] runs on a [bsearch_adaptor] over an interval with
    [lower < upper] and reports [feasible], the point that [x_best()]
    reports afterwards is one at which [assess_feas] gave the null answer
    (the space giving back the centre it is set to): a rejected midpoint
    leaves the adaptor's space as the last accepted one left it. *)
Theorem bsearch_adaptor_best_accepted
        {Oracle Space Arr Cut Num : Type}
        {NL : NumLt Num} {SS : SearchSpace Space Arr Cut Num}
        {OF : OracleFeas Oracle Arr Cut} {OU : OracleUpdate Oracle Qc}
        (a : bsearch_adaptor Oracle Space Num) (l u : Qc)
        (options : Options Qc)
        (res : bsearch_adaptor Oracle Space Num * (Qc * Qc) * CInfo) :
  (forall (s : Space) (v : Arr), xc (set_xc s v) = v) ->
  (l < u)%Qc ->
  bsearch a (l, u) options = Some res ->
  feasible (snd res) = true ->
  exists omega0 omega1,
    assess_feas omega0 (x_best (fst (fst res))) = (omega1, None).
Proof.
  intros Law L E Fe.
  destruct (bsearch_steps _ _ _ _ _ E) as [_ [Er [Ef _]]].
  destruct (bisect_run_upper (a, (l, u)) L (num_iters (snd res)))
    as [_ [_ Iff]].
  cbn [fst snd] in Iff.
  rewrite Ef in Fe.
  assert (Hne : snd (snd (bisect_run (num_iters (snd res)) (a, (l, u))))
                <> u).
  { destruct (Qceqb _ u) eqn:Q; [discriminate|].
    apply Qceqb_false. exact Q. }
  apply Iff in Hne. rewrite Er.
  apply (bisect_run_adaptor a l u Law). exact Hne.
Qed.

(** The statement of X10 for the target [3] on the interval [[-8, 8]]. *)
Lemma cutting_plane_optim_best_consistent_witness :
  let r := cutting_plane_optim (3%Z : Target) start 100%Z opts in
  (out_x_best r = arr_default /\ out_tea r = 100%Z)
  \/ exists (o0 : Target) t0 o1 c,
       assess_optim o0 (out_x_best r) t0 = (o1, out_tea r, (c, true)).
Proof.
  apply (cutting_plane_optim_best_consistent (3%Z : Target) start 100%Z opts).
  intros o x t. unfold assess_optim, Target_optim.
  destruct ((x - o) * (x - o) <? t)%Z; cbn; [discriminate | reflexivity].
Defined.

(** The statement of X11 on a script of two answers. *)
Lemma cutting_plane_q_best_consistent_witness :
  let r := cutting_plane_q script_retry start 0%Z opts in
  (out_x_best r = arr_default /\ out_tea r = 0%Z)
  \/ exists (o0 : Script) x t0 retry o1 c m,
       assess_q o0 x t0 retry = (o1, out_tea r, (c, true, out_x_best r, m)).
Proof.
  apply (cutting_plane_q_best_consistent script_retry start 0%Z opts).
  intros o x t retry. unfold assess_q, Script_q.
  destruct o as [|[[[c s] x0] m] o']; cbn; [reflexivity|].
  destruct s; [discriminate | reflexivity].
Defined.

(** The statement of X12 for the target moved to [3]. *)
Lemma adaptor_x_best_accepted_witness :
  exists omega0 : Target,
    assess_feas omega0 (x_best (fst (adaptor_assess_bs adaptor0 3%Z)))
    = (_omega (fst (adaptor_assess_bs adaptor0 3%Z)), None).
Proof.
  apply (adaptor_x_best_accepted adaptor0 _ 3%Z).
  - intros s v. reflexivity.
  - vm_compute. reflexivity.
Defined.

(** The statement of X13 for a bisection over [[0, 8]]. *)
Lemma bsearch_adaptor_best_accepted_witness :
  exists res omega0 omega1,
    bsearch adaptor0 intvl bs_opts = Some res
    /\ assess_feas omega0 (x_best (fst (fst res))) = (omega1, None).
Proof.
  destruct (bsearch adaptor0 intvl bs_opts) as [res|] eqn:E.
  - destruct (bsearch_adaptor_best_accepted adaptor0 (qc 0 1) (qc 8 1)
                bs_opts res) as [omega0 [omega1 H]].
    + intros s v. reflexivity.
    + unfold Qclt, Qlt. cbn. lia.
    + exact E.
    + vm_compute in E. injection E as <-. reflexivity.
    + exists res, omega0, omega1. split; [reflexivity | exact H].
  - vm_compute in E. discriminate.
Defined.

End DriverProofs.

(** ** More on the profit oracles *)

Module ProfitMore.
Import Config CuttingPlane CuttingPlaneSpec DriverFacts.
Import Profit ProfitProofs ProfitQ.
Local Open Scope R_scope.

(** X17.  Once [ProfitOracle::assess_optim] has reported [shrunk] at [y],
    asking again at the same [y] with the target it has left leaves the
    target where it is: the second call either keeps it, or writes
    [exp(log_Cobb) - vx] over it once more, which is the value it already
    has.  The second call returns a central cut ([beta = 0]) if it reports
    [shrunk] again, and the cut with offset
    [log(target + vx) - log_Cobb] otherwise. *)
Theorem assess_optim_settles (o : ProfitOracle) (y : Vec) (target : R) :
  shrunk_of (assess_optim o y target) = true ->
  let r1 := assess_optim o y target in
  let r2 := assess_optim o y (target_of r1) in
  target_of r2 = target_of r1
  /\ (shrunk_of r2 = true -> beta_of r2 = Finite 0)
  /\ (shrunk_of r2 = false ->
      beta_of r2 = xsub (xlog (target_of r1 + vx o y)) (log_Cobb o y)).
Proof.
  cbv zeta.
  destruct (assess_optim_cases o y target)
    as [(P & ->) | [(N & L & ->) | (N & L & ->)]];
    unfold shrunk_of, beta_of, target_of; cbn [fst snd]; try discriminate.
  intros _.
  destruct (assess_optim_cases o y (exp (log_Cobb o y) - vx o y))
    as [(P & _) | [(_ & _ & ->) | (_ & _ & ->)]]; cbn [fst snd].
  - contradiction.
  - split; [reflexivity|]. split; [reflexivity | discriminate].
  - split; [reflexivity|]. split; [discriminate | reflexivity].
Qed.

Lemma unit_oracle_shrinks :
  shrunk_of (assess_optim unit_oracle (0 :: 1 :: nil) (-9 - 35 * exp 1))
  = true.
Proof.
  destruct (assess_optim_cases unit_oracle (0 :: 1 :: nil)
              (-9 - 35 * exp 1))
    as [(P & _) | [(_ & _ & ->) | (_ & L & _)]].
  - exfalso. unfold unit_oracle, at_ in P. cbn [nth _log_k] in P. Lra.lra.
  - reflexivity.
  - exfalso. apply L. apply xneg_fj. left.
    unfold vx, log_Cobb, unit_oracle, vexp, at_.
    cbn [nth map _log_k _log_pA _price_out _elasticities].
    rewrite exp_0.
    replace (-9 - 35 * exp 1 + (10 * 1 + 35 * exp 1)) with 1 by Lra.lra.
    rewrite ln_1. split; Lra.lra.
Qed.

(** The statement of X17 at a point where the target is overwritten. *)
Lemma assess_optim_settles_witness :
  let r1 := assess_optim unit_oracle (0 :: 1 :: nil) (-9 - 35 * exp 1) in
  let r2 := assess_optim unit_oracle (0 :: 1 :: nil) (target_of r1) in
  target_of r2 = target_of r1.
Proof.
  apply (assess_optim_settles unit_oracle (0 :: 1 :: nil)
           (-9 - 35 * exp 1)).
  exact unit_oracle_shrinks.
Defined.

(** What one call of the oracle, as the driver sees it, says. *)
Lemma profit_call (o : ProfitOracle) (y : Vec) (t : R)
      (o' : ProfitOracle) (t' : R) (c : Cut) (s : bool) :
  CuttingPlane.assess_optim o y t = (o', t', (c, s)) ->
  o' = o
  /\ (s = true ->
      ~ 0 < at_ y 0 - _log_k o /\ t' = exp (log_Cobb o y) - vx o y)
  /\ (s = false -> t' = t).
Proof.
  unfold CuttingPlane.assess_optim, ProfitOracle_optim.
  destruct (assess_optim_cases o y t)
    as [(P & ->) | [(N & L & ->) | (N & L & ->)]];
    intros E; injection E as <- <- <- <-.
  - split; [reflexivity|]. split; [discriminate|reflexivity].
  - split; [reflexivity|]. split; [|discriminate].
    intros _. split; [exact N | reflexivity].
  - split; [reflexivity|]. split; [discriminate|reflexivity].
Qed.

(** X18.  [cutting_plane_optim] on a [ProfitOracle], over any search
    space: the oracle is unchanged, and either [x_best] is the empty
    array with the target unchanged, or [x_best] passed the test of the
    first constraint ([x_best[0] - log_k > 0] is false) and the target
    handed back is the value the oracle wrote there,
    [exp(log_Cobb(x_best)) - vx(x_best)]. *)
Theorem cutting_plane_optim_profit {Space Num : Type}
        {NL : NumLt Num} {SS : SearchSpace Space Vec Cut Num}
        (o : ProfitOracle) (space : Space) (target : R)
        (options : Options Num) :
  let r := cutting_plane_optim o space target options in
  let xb := out_x_best r in
  out_omega r = o
  /\ ((xb = nil /\ out_tea r = target)
      \/ (~ 0 < at_ xb 0 - _log_k o
          /\ out_tea r = exp (log_Cobb o xb) - vx o xb)).
Proof.
  cbv zeta. unfold cutting_plane_optim.
  match goal with
  | |- ?A /\ ?B =>
      enough (H : A /\ True /\ B)
        by (destruct H as [Ho [_ G]]; split; assumption)
  end.
  apply (optim_loop_best options (fun o' => o' = o) (fun _ => True)
           (fun x t => ~ 0 < at_ x 0 - _log_k o
                       /\ t = exp (log_Cobb o x) - vx o x)
           target).
  - intros o1 x t o' t' c s -> _ E.
    destruct (profit_call _ _ _ _ _ _ _ E) as [-> [Sh Ns]].
    split; [reflexivity|]. split; [exact I|]. split; [exact Sh | exact Ns].
  - reflexivity.
  - exact I.
  - left. split; reflexivity.
Qed.

(** *** The discrete oracle *)

Lemma round_pos (e : R) :
  0 < e ->
  exists k : Z, round e = IZR k /\ (0 <= k)%Z /\ Rabs (IZR k - e) <= / 2.
Proof.
  intros He. unfold round.
  destruct (Rle_dec 0 e) as [_|N]; [|exfalso; Lra.lra].
  exists (Int_part (e + / 2)). split; [reflexivity|].
  destruct (base_Int_part (e + / 2)) as [B1 B2].
  split.
  - assert (-1 < IZR (Int_part (e + / 2))) as H by Lra.lra.
    apply lt_IZR in H. lia.
  - apply Rabs_le. Lra.lra.
Qed.

(** A rounded coordinate after the replacement of [0] by [1]. *)
Lemma lattice_coord (e : R) :
  0 < e ->
  exists n : Z,
    (if Req_dec_T (round e) 0 then 1 else round e) = IZR n
    /\ (1 <= n)%Z
    /\ (Rabs (IZR n - e) <= / 2 \/ (n = 1%Z /\ e < / 2)).
Proof.
  intros He. destruct (round_pos e He) as [k [E [Hk Hr]]].
  rewrite E. destruct (Req_dec_T (IZR k) 0) as [Z0|NZ].
  - exists 1%Z. split; [reflexivity|]. split; [lia|].
    right. split; [reflexivity|].
    rewrite Z0 in Hr. rewrite Rminus_0_l, Rabs_Ropp in Hr.
    rewrite Rabs_pos_eq in Hr by Lra.lra.
    destruct Hr as [Hr|Hr]; [exact Hr|].
    exfalso. unfold round in E.
    destruct (Rle_dec 0 e) as [_|N]; [|Lra.lra].
    rewrite Hr in E.
    replace (/ 2 + / 2) with 1 in E by Lra.lra.
    assert (Int_part 1 = 1%Z) as I1.
    { symmetry. apply Int_part_spec. Lra.lra. }
    rewrite I1 in E. rewrite <- E in Z0. Lra.lra.
  - exists k. split; [reflexivity|]. split; [|left; exact Hr].
    assert (k <> 0%Z) by (intros ->; apply NZ; reflexivity). lia.
Qed.

Lemma rounded_two (y0 y1 : R) :
  rounded (y0 :: y1 :: nil)
  = ln (if Req_dec_T (round (exp y0)) 0 then 1 else round (exp y0))
    :: ln (if Req_dec_T (round (exp y1)) 0 then 1 else round (exp y1))
    :: nil.
Proof.
  unfold rounded, vexp, vlog, at_. cbn [map nth].
  destruct (Req_dec_T (round (exp y0)) 0); cbn [vupd nth];
    destruct (Req_dec_T (round (exp y1)) 0); reflexivity.
Qed.

Lemma ln_IZR_nonneg (n : Z) : (1 <= n)%Z -> 0 <= ln (IZR n).
Proof.
  intros H. apply IZR_le in H.
  destruct H as [H|H].
  - left. rewrite <- ln_1. apply ln_increasing; Lra.lra.
  - right. rewrite <- H. symmetry. apply ln_1.
Qed.

(** X19.  On a first try ([retry = false]) at a [y] of size two,
    [ProfitOracleQ::assess_optim_q] evaluates at, stores in [_yd] and
    returns as [x0] the point [(log n0, log n1)] for integers [n0, n1 >= 1]:
    [n_i] is [exp(y[i])] rounded to the nearest integer (within [1/2] of
    it), or [1] when that would round to [0].  Both components of [x0]
    are therefore [>= 0], and the returned [more_alt] is false. *)
Theorem assess_optim_q_lattice (o : ProfitOracleQ) (y : Vec) (target : R) :
  length y = 2%nat ->
  let r := assess_optim_q o y target false in
  let x0 := snd (fst (snd r)) in
  _yd (fst (fst r)) = x0
  /\ snd (snd r) = false
  /\ exists n0 n1 : Z,
       (1 <= n0)%Z /\ (1 <= n1)%Z
       /\ x0 = ln (IZR n0) :: ln (IZR n1) :: nil
       /\ (Rabs (IZR n0 - exp (at_ y 0)) <= / 2
           \/ (n0 = 1%Z /\ exp (at_ y 0) < / 2))
       /\ (Rabs (IZR n1 - exp (at_ y 1)) <= / 2
           \/ (n1 = 1%Z /\ exp (at_ y 1) < / 2))
       /\ 0 <= at_ x0 0 /\ 0 <= at_ x0 1.
Proof.
  intros Hy. destruct y as [|y0 [|y1 [|? ?]]]; try discriminate. clear Hy.
  cbv zeta. unfold assess_optim_q. cbn [negb].
  destruct (assess_optim (_P o) (rounded (y0 :: y1 :: nil)) target)
    as [[[g h] shrunk] target'].
  cbn [fst snd _yd].
  split; [reflexivity|]. split; [reflexivity|].
  rewrite rounded_two.
  destruct (lattice_coord (exp y0) (exp_pos y0)) as [n0 [E0 [H0 P0]]].
  destruct (lattice_coord (exp y1) (exp_pos y1)) as [n1 [E1 [H1 P1]]].
  rewrite E0, E1. exists n0, n1. unfold at_. cbn [nth].
  split; [exact H0|]. split; [exact H1|]. split; [reflexivity|].
  split; [exact P0|]. split; [exact P1|].
  split; apply ln_IZR_nonneg; assumption.
Qed.

(** The statement of X19 at [y = (0, 0)]. *)
Lemma assess_optim_q_lattice_witness :
  _yd (fst (fst (assess_optim_q (mkProfitOracleQ unit_oracle nil)
                   (0 :: 0 :: nil) 0 false)))
  = snd (fst (snd (assess_optim_q (mkProfitOracleQ unit_oracle nil)
                     (0 :: 0 :: nil) 0 false))).
Proof.
  apply (assess_optim_q_lattice (mkProfitOracleQ unit_oracle nil)
           (0 :: 0 :: nil) 0 eq_refl).
Defined.

(** X20.  [ProfitOracleQ::assess_optim_q] answers for the stored point
    [x0 = _yd] (the one of the previous call when [retry] is true): the
    gradient [g], the flag [shrunk] and the new target are those of
    [ProfitOracle::assess_optim] at [x0], and [_P] is unchanged.  The
    offset it returns is the inner offset plus [g' (x0 - y)] (minus
    infinity and not a number stay what they are); read at the query
    point [y], the returned cut is [g' (z - x0) + beta_inner
    + 2 g' (x0 - y) <= 0], which is the inner cut taken at [x0] only when
    [g' (x0 - y) = 0]. *)
Theorem assess_optim_q_recentred (o : ProfitOracleQ) (y : Vec) (target : R)
        (retry : bool) :
  length y = 2%nat ->
  (retry = true -> length (_yd o) = 2%nat) ->
  let r := assess_optim_q o y target retry in
  let x0 := snd (fst (snd r)) in
  let g := fst (fst (fst (fst (snd r)))) in
  let h := snd (fst (fst (fst (snd r)))) in
  let inner := assess_optim (_P o) x0 target in
  _P (fst (fst r)) = _P o
  /\ _yd (fst (fst r)) = x0
  /\ (retry = true -> x0 = _yd o)
  /\ snd (fst (fst (snd r))) = shrunk_of inner
  /\ snd (fst r) = target_of inner
  /\ g = fst (fst (fst inner))
  /\ h = xadd (beta_of inner)
           (at_ g 0 * (at_ x0 0 - at_ y 0) + at_ g 1 * (at_ x0 1 - at_ y 1))
  /\ forall z0 z1 : R,
       xadd h (at_ g 0 * (z0 - at_ y 0) + at_ g 1 * (z1 - at_ y 1))
       = xadd (beta_of inner)
           (at_ g 0 * (z0 - at_ x0 0) + at_ g 1 * (z1 - at_ x0 1)
            + 2 * (at_ g 0 * (at_ x0 0 - at_ y 0)
                   + at_ g 1 * (at_ x0 1 - at_ y 1))).
Proof.
  intros Hy Hr. destruct y as [|y0 [|y1 [|? ?]]]; try discriminate. clear Hy.
  cbv zeta. unfold assess_optim_q.
  assert (L : exists a b, (if negb retry then rounded (y0 :: y1 :: nil)
                           else _yd o) = a :: b :: nil).
  { destruct retry; cbn [negb].
    - specialize (Hr eq_refl). destruct (_yd o) as [|a [|b [|? ?]]];
        try discriminate. exists a, b. reflexivity.
    - rewrite rounded_two. eexists. eexists. reflexivity. }
  destruct L as [a [b L]].
  assert (R' : retry = true -> a :: b :: nil = _yd o).
  { intros ->. cbn [negb] in L. symmetry. exact L. }
  rewrite L.
  destruct (assess_optim (_P o) (a :: b :: nil) target)
    as [[[g h] shrunk] target'] eqn:E.
  cbn [fst snd _yd _P]. rewrite E.
  unfold shrunk_of, target_of, beta_of. cbn [fst snd].
  split; [reflexivity|]. split; [reflexivity|]. split; [exact R'|].
  split; [reflexivity|]. split; [reflexivity|]. split; [reflexivity|].
  unfold vsub, at_. cbn [zip_with nth].
  split; [reflexivity|]. intros z0 z1.
  destruct h as [hv| |]; cbn [xadd]; [f_equal; ring | reflexivity ..].
Qed.

(** The statement of X20 at [y = (0, 0)]. *)
Lemma assess_optim_q_recentred_witness :
  _P (fst (fst (assess_optim_q (mkProfitOracleQ unit_oracle nil)
                  (0 :: 0 :: nil) 0 false)))
  = unit_oracle.
Proof.
  apply (assess_optim_q_recentred (mkProfitOracleQ unit_oracle nil)
           (0 :: 0 :: nil) 0 false eq_refl).
  discriminate.
Defined.

End ProfitMore.

(** ** The oracle of the quasiconvex example *)

Module QuasicvxProofs.
Import Config CuttingPlane CuttingPlaneSpec DriverFacts.
Import Profit ProfitQ Quasicvx RealExample.
Local Open Scope R_scope.

(** What a call does, by the value of [idx] it starts with. *)
Lemma assess_optim_from_0 (t2 t3 : R) (z : Vec) (gamma : R) :
  let sqrtx := at_ z 0 in
  let ly := at_ z 1 in
  let f1 := sqrtx * sqrtx - ly in
  let f2 := - sqrtx + gamma * exp ly in
  let o1 := mkMyQuasicCvxOracle 1 (exp ly) (gamma * exp ly) in
  let o0 := mkMyQuasicCvxOracle 0 (exp ly) (gamma * exp ly) in
  assess_optim (mkMyQuasicCvxOracle 0 t2 t3) z gamma
  = if Rlt_dec 0 f2
    then Some (o1, gamma, ((-1 :: gamma * exp ly :: nil, f2), false))
    else if Rlt_dec 0 f1
         then Some (o0, gamma, ((2 * sqrtx :: -1 :: nil, f1), false))
         else Some (o0, sqrtx / exp ly, ((-1 :: sqrtx :: nil, 0), true)).
Proof.
  cbv zeta. unfold assess_optim. qstep.
  destruct (Rlt_dec 0 (- at_ z 0 + gamma * exp (at_ z 1))) as [P|N]; qstep.
  - reflexivity.
  - destruct (Rlt_dec 0 (at_ z 0 * at_ z 0 - at_ z 1)); qstep; reflexivity.
Qed.

Lemma assess_optim_from_1 (t2 t3 : R) (z : Vec) (gamma : R) :
  let sqrtx := at_ z 0 in
  let ly := at_ z 1 in
  let f1 := sqrtx * sqrtx - ly in
  let f2 := - sqrtx + gamma * exp ly in
  let o1 := mkMyQuasicCvxOracle 1 (exp ly) (gamma * exp ly) in
  assess_optim (mkMyQuasicCvxOracle 1 t2 t3) z gamma
  = if Rlt_dec 0 f1
    then Some (mkMyQuasicCvxOracle 0 t2 t3, gamma,
               ((2 * sqrtx :: -1 :: nil, f1), false))
    else if Rlt_dec 0 f2
         then Some (o1, gamma, ((-1 :: gamma * exp ly :: nil, f2), false))
         else Some (o1, sqrtx / exp ly, ((-1 :: sqrtx :: nil, 0), true)).
Proof.
  cbv zeta. unfold assess_optim. qstep.
  destruct (Rlt_dec 0 (at_ z 0 * at_ z 0 - at_ z 1)) as [P|N]; qstep.
  - reflexivity.
  - destruct (Rlt_dec 0 (- at_ z 0 + gamma * exp (at_ z 1))); qstep;
      reflexivity.
Qed.

(** One call, for an oracle whose counter is [0] or [1]: what the
    driver relies on. *)
Lemma quasicvx_call (o : MyQuasicCvxOracle) (z : Vec) (gamma : R) :
  idx o = 0%Z \/ idx o = 1%Z ->
  exists o' gamma' c shrunk,
    assess_optim o z gamma = Some (o', gamma', (c, shrunk))
    /\ (idx o' = 0%Z \/ idx o' = 1%Z)
    /\ (shrunk = true ->
        at_ z 0 * at_ z 0 <= at_ z 1 /\ gamma' = at_ z 0 / exp (at_ z 1))
    /\ (shrunk = false -> gamma' = gamma).
Proof.
  intros Hidx. destruct o as [i t2 t3]. cbn [idx] in Hidx.
  destruct Hidx as [-> | ->].
  - rewrite assess_optim_from_0. cbv zeta.
    destruct (Rlt_dec 0 (- at_ z 0 + gamma * exp (at_ z 1))) as [P2|N2];
      [|destruct (Rlt_dec 0 (at_ z 0 * at_ z 0 - at_ z 1)) as [P1|N1]];
      do 4 eexists; (split; [reflexivity|]); cbn [idx].
    + split; [right; reflexivity|]. split; [discriminate | reflexivity].
    + split; [left; reflexivity|]. split; [discriminate | reflexivity].
    + split; [left; reflexivity|].
      split; [|discriminate]. intros _. split; [Lra.lra | reflexivity].
  - rewrite assess_optim_from_1. cbv zeta.
    destruct (Rlt_dec 0 (at_ z 0 * at_ z 0 - at_ z 1)) as [P1|N1];
      [|destruct (Rlt_dec 0 (- at_ z 0 + gamma * exp (at_ z 1)))
          as [P2|N2]];
      do 4 eexists; (split; [reflexivity|]); cbn [idx].
    + split; [left; reflexivity|]. split; [discriminate | reflexivity].
    + split; [right; reflexivity|]. split; [discriminate | reflexivity].
    + split; [right; reflexivity|].
      split; [|discriminate]. intros _. split; [Lra.lra | reflexivity].
Qed.

(** X21.  For an oracle whose counter [idx] is [0] or [1] (it starts at
    [0]), [MyQuasicCvxOracle::assess_optim] never reaches [exit(0)] and
    leaves [idx] at [0] or [1].  It reports [shrunk] exactly when neither
    constraint is violated at [z] ([z[0]^2 - z[1] <= 0] and
    [-z[0] + gamma exp(z[1]) <= 0]); then [idx] is back where it was,
    [tmp2] holds [exp(z[1])], [gamma] becomes [z[0] / exp(z[1])] and the
    cut is the central cut [((-1, z[0]), 0)].  Otherwise [gamma] is
    unchanged and the cut is that of a violated constraint, with
    [beta > 0] its value. *)
Theorem assess_optim_quasicvx_spec (o : MyQuasicCvxOracle) (z : Vec)
        (gamma : R) :
  idx o = 0%Z \/ idx o = 1%Z ->
  let sqrtx := at_ z 0 in
  let ly := at_ z 1 in
  let f1 := sqrtx * sqrtx - ly in
  let f2 := - sqrtx + gamma * exp ly in
  exists o' gamma' g beta shrunk,
    assess_optim o z gamma = Some (o', gamma', ((g, beta), shrunk))
    /\ (idx o' = 0%Z \/ idx o' = 1%Z)
    /\ (shrunk = true <-> f1 <= 0 /\ f2 <= 0)
    /\ (shrunk = true ->
        idx o' = idx o /\ tmp2 o' = exp ly
        /\ gamma' = sqrtx / exp ly
        /\ beta = 0 /\ g = -1 :: sqrtx :: nil)
    /\ (shrunk = false ->
        gamma' = gamma /\ 0 < beta
        /\ ((beta = f1 /\ g = 2 * sqrtx :: -1 :: nil)
            \/ (beta = f2 /\ g = -1 :: gamma * exp ly :: nil))).
Proof.
  intros Hidx. cbv zeta. destruct o as [i t2 t3]. cbn [idx] in Hidx.
  destruct Hidx as [-> | ->].
  - rewrite assess_optim_from_0. cbv zeta.
    destruct (Rlt_dec 0 (- at_ z 0 + gamma * exp (at_ z 1))) as [P2|N2];
      [|destruct (Rlt_dec 0 (at_ z 0 * at_ z 0 - at_ z 1)) as [P1|N1]];
      do 5 eexists; (split; [reflexivity|]); cbn [idx tmp2].
    + split; [right; reflexivity|]. split; [|split; [discriminate|]].
      * split; [discriminate | intros [_ H]; Lra.lra].
      * intros _. split; [reflexivity|]. split; [exact P2|]. right.
        split; reflexivity.
    + split; [left; reflexivity|]. split; [|split; [discriminate|]].
      * split; [discriminate | intros [H _]; Lra.lra].
      * intros _. split; [reflexivity|]. split; [exact P1|]. left.
        split; reflexivity.
    + split; [left; reflexivity|]. split; [|split; [|discriminate]].
      * split; [intros _; split; Lra.lra | reflexivity].
      * intros _. split; [reflexivity|]. split; [reflexivity|].
        split; [reflexivity|]. split; reflexivity.
  - rewrite assess_optim_from_1. cbv zeta.
    destruct (Rlt_dec 0 (at_ z 0 * at_ z 0 - at_ z 1)) as [P1|N1];
      [|destruct (Rlt_dec 0 (- at_ z 0 + gamma * exp (at_ z 1)))
          as [P2|N2]];
      do 5 eexists; (split; [reflexivity|]); cbn [idx tmp2].
    + split; [left; reflexivity|]. split; [|split; [discriminate|]].
      * split; [discriminate | intros [H _]; Lra.lra].
      * intros _. split; [reflexivity|]. split; [exact P1|]. left.
        split; reflexivity.
    + split; [right; reflexivity|]. split; [|split; [discriminate|]].
      * split; [discriminate | intros [_ H]; Lra.lra].
      * intros _. split; [reflexivity|]. split; [exact P2|]. right.
        split; reflexivity.
    + split; [right; reflexivity|]. split; [|split; [|discriminate]].
      * split; [intros _; split; Lra.lra | reflexivity].
      * intros _. split; [reflexivity|]. split; [reflexivity|].
        split; [reflexivity|]. split; reflexivity.
Qed.

(** The statement of X21 for the fresh oracle at the origin. *)
Lemma assess_optim_quasicvx_spec_witness :
  exists o' gamma' g beta shrunk,
    assess_optim fresh origin 0 = Some (o', gamma', ((g, beta), shrunk))
    /\ (idx o' = 0%Z \/ idx o' = 1%Z).
Proof.
  destruct (assess_optim_quasicvx_spec fresh origin 0)
    as [o' [gamma' [g [beta [shrunk [E [H _]]]]]]].
  - left. reflexivity.
  - exists o', gamma', g, beta, shrunk. split; [exact E | exact H].
Defined.

(** X22.  The answer of [MyQuasicCvxOracle::assess_optim] (the cut, the
    flag and the new [gamma]) depends on [idx], [z] and [gamma] only, not
    on the values [tmp2] and [tmp3] cached by earlier calls: whenever
    [gamma = sqrtx / tmp2] is reached, [tmp2] has been recomputed in the
    same call. *)
Theorem assess_optim_quasicvx_cache (o : MyQuasicCvxOracle) (t2 t3 : R)
        (z : Vec) (gamma : R) :
  idx o = 0%Z \/ idx o = 1%Z ->
  option_map snd (assess_optim o z gamma)
  = option_map snd
      (assess_optim (mkMyQuasicCvxOracle (idx o) t2 t3) z gamma)
  /\ option_map (fun r => snd (fst r)) (assess_optim o z gamma)
     = option_map (fun r => snd (fst r))
         (assess_optim (mkMyQuasicCvxOracle (idx o) t2 t3) z gamma).
Proof.
  intros Hidx. destruct o as [i s2 s3]. cbn [idx] in *.
  destruct Hidx as [-> | ->].
  - rewrite !assess_optim_from_0. cbv zeta.
    destruct (Rlt_dec _ _); [|destruct (Rlt_dec _ _)]; split; reflexivity.
  - rewrite !assess_optim_from_1. cbv zeta.
    destruct (Rlt_dec _ _); [|destruct (Rlt_dec _ _)]; split; reflexivity.
Qed.

(** The statement of X22 for the fresh oracle at the origin. *)
Lemma assess_optim_quasicvx_cache_witness :
  option_map snd (assess_optim fresh origin 0)
  = option_map snd (assess_optim (mkMyQuasicCvxOracle 0 1 1) origin 0).
Proof.
  apply (assess_optim_quasicvx_cache fresh 1 1 origin 0).
  left. reflexivity.
Defined.

(** X23.  [cutting_plane_optim] on a [MyQuasicCvxOracle] whose counter is
    [0] or [1], over any search space: the counter stays [0] or [1] (the
    program never exits), and either [x_best] is the empty array with
    [gamma] unchanged, or [x_best] satisfies the first constraint
    ([x_best[0]^2 <= x_best[1]]) and the [gamma] handed back is the
    objective the oracle wrote there, [x_best[0] / exp(x_best[1])]. *)
Theorem cutting_plane_optim_quasicvx {Space Num : Type}
        {NL : NumLt Num} {SS : SearchSpace Space Vec Cut Num}
        (o : MyQuasicCvxOracle) (space : Space) (gamma : R)
        (options : Options Num) :
  idx o = 0%Z \/ idx o = 1%Z ->
  let r := cutting_plane_optim o space gamma options in
  let xb := out_x_best r in
  (idx (out_omega r) = 0%Z \/ idx (out_omega r) = 1%Z)
  /\ ((xb = nil /\ out_tea r = gamma)
      \/ (at_ xb 0 * at_ xb 0 <= at_ xb 1
          /\ out_tea r = at_ xb 0 / exp (at_ xb 1))).
Proof.
  intros Hidx. cbv zeta. unfold cutting_plane_optim.
  match goal with
  | |- ?A /\ ?B =>
      enough (H : A /\ True /\ B)
        by (destruct H as [Ho [_ G]]; split; assumption)
  end.
  apply (optim_loop_best options
           (fun o' => idx o' = 0%Z \/ idx o' = 1%Z) (fun _ => True)
           (fun x t => at_ x 0 * at_ x 0 <= at_ x 1
                       /\ t = at_ x 0 / exp (at_ x 1))
           gamma).
  - intros o1 x t o' t' c s Io _ E.
    unfold CuttingPlane.assess_optim, MyQuasicCvxOracle_optim in E.
    destruct (quasicvx_call o1 x t Io)
      as [o2 [g2 [c2 [sh [E2 [I2 [Sh Ns]]]]]]].
    rewrite E2 in E. injection E as <- <- <- <-.
    split; [exact I2|]. split; [exact I|]. split.
    + intros ->. exact (Sh eq_refl).
    + intros ->. exact (Ns eq_refl).
  - exact Hidx.
  - exact I.
  - left. split; reflexivity.
Qed.

(** The statement of X23 for the fresh oracle on the one-point space at
    the origin. *)
Lemma cutting_plane_optim_quasicvx_witness :
  idx (out_omega (cutting_plane_optim fresh origin 0 real_opts)) = 0%Z
  \/ idx (out_omega (cutting_plane_optim fresh origin 0 real_opts)) = 1%Z.
Proof.
  apply (cutting_plane_optim_quasicvx fresh origin 0 real_opts).
  left. reflexivity.
Defined.

End QuasicvxProofs.
